(** * naudiodon3: the stream bridging layer of src/index.ts

    The three stream classes ([AudioReadableStream], [AudioWritableStream],
    [AudioDuplexStream]) and the factory [AudioIO] are embedded as they are
    written.  An [async] method is a program of the monad [Prog]: it performs
    synchronous effects and suspends at each call of the audio engine
    ([audioIOAddon]); the engine and the application are the environment. *)

From Stdlib Require Import Floats List String Bool NArith ZArith Arith Lia.
Import ListNotations.
Local Open Scope string_scope.
Local Open Scope list_scope.

Set Implicit Arguments.

(** ** Values *)

(** A Node.js [Buffer]: its bytes. *)
Definition Buffer := list Byte.byte.

Record Error := mkError { message : string }.

(** A thrown value or rejection reason: an [Error] object, or any other
    value, kept as its [String(...)] conversion. *)
Inductive Thrown :=
| ThrownError (e : Error)
| ThrownValue (str : string).

(** [error instanceof Error ? error : new Error(String(error))], for a
    reason that is an [Error] or has a string form. *)
Definition toError (error : Thrown) : Error :=
  match error with
  | ThrownError e => e
  | ThrownValue str => mkError str
  end.

(** Outcome of a synchronous call. *)
Inductive Completion (A : Type) :=
| Returned (a : A)
| Threw (v : Thrown).
Arguments Threw {A} v.

(** Outcome of a promise. *)
Inductive Settled (A : Type) :=
| Fulfilled (a : A)
| Rejected (reason : Thrown).
Arguments Rejected {A} reason.

(** A JavaScript [number] is a binary64 float; it is falsy when it is
    [0], [-0] or [NaN]. *)
Definition truthy (x : float) : bool :=
  negb (PrimFloat.is_zero x || PrimFloat.is_nan x).

(** [x || d] for an optional number [x] ([None] is [undefined]). *)
Definition or_default (x : option float) (d : float) : float :=
  match x with
  | Some v => if truthy v then v else d
  | None => d
  end.

Definition SampleFormatFloat32 : float := 1.
Definition SampleFormat8Bit : float := 8.
Definition SampleFormat16Bit : float := 16.
Definition SampleFormat24Bit : float := 24.
Definition SampleFormat32Bit : float := 32.

(** [interface AudioOptions]: every field is optional. *)
Record AudioOptions := {
  deviceId : option float;
  sampleRate : option float;
  channelCount : option float;
  sampleFormat : option float;
  maxQueue : option float;
  framesPerBuffer : option float;
  highwaterMark : option float;
  closeOnError : option bool
}.

(** [interface AudioIOResult] *)
Record AudioIOResult := {
  err : option Error;
  finished : option bool;
  buf : option Buffer
}.

(** [if (result.finished)] on an optional boolean. *)
Definition is_true (b : option bool) : bool :=
  match b with
  | Some true => true
  | _ => false
  end.

(** A property of an object literal: the key may be missing, or present
    with the value [undefined]. *)
Inductive Slot (A : Type) :=
| Absent
| Undefined
| Defined (a : A).
Arguments Absent {A}.
Arguments Undefined {A}.

(** ['key' in obj] *)
Definition has_key {A} (s : Slot A) : bool :=
  match s with
  | Absent => false
  | _ => true
  end.

(** [obj.key]; [None] is [undefined]. *)
Definition get {A} (s : Slot A) : option A :=
  match s with
  | Defined a => Some a
  | _ => None
  end.

Definition is_defined {A} (x : option A) : bool :=
  match x with
  | Some _ => true
  | None => false
  end.

(** The argument of [AudioIO]. *)
Record Options := {
  inOptions : Slot AudioOptions;
  outOptions : Slot AudioOptions
}.

(** ** The audio engine, seen from the bridging layer *)

(** Handle of a native [AudioIOAddon] object. *)
Definition AudioIOAddon := nat.

(** The calls the source makes on the native side. *)
Inductive EngineCall :=
| ECreate (options : Options)
| EStart
| ERead (size : N)
| EWrite (chunk : Buffer)
| EQuit (mode : string).

(** [portAudioBindings]: [create] returns an addon or throws. *)
Record Bindings := {
  create : Options -> Completion AudioIOAddon
}.

(** ** Synchronous effects of the stream code *)

(** Token of a callback function received as an argument. *)
Definition Callback := nat.

Inductive Action :=
| Engine (c : EngineCall)                    (* a call on this.audioIOAddon *)
| Push (chunk : option Buffer)               (* this.push(result.buf) *)
| PushNull                                   (* this.push(null) *)
| Destroy (e : Error)                        (* this.destroy(err) *)
| WriteCallback (cb : Callback) (e : option Error)  (* callback(error) in doWrite *)
| UserCallback (cb : Callback)               (* callback() in quit and abort *)
| Emit (name : string)                       (* stream.emit(name) *)
| ConsoleError (e : option Error).           (* console.error('AudioIO:', err) *)

(** ** Asynchronous programs *)

(** A program runs until it returns, throws, or reaches an [await] on one
    of the engine's promises; [Fork] is a call of an async function whose
    promise is not awaited ([this.doRead(size);], [promise.then(...)]).
    The actions themselves return: a callback or a listener of the
    application that throws when it is called is outside this model, and
    so is what the [catch] blocks would do with its exception. *)
Inductive Prog (A : Type) : Type :=
| Ret (a : A)
| Throw (v : Thrown)
| Do (act : Action) (k : Prog A)
| Fork (child : Prog unit) (k : Prog A)
| AwaitRead (size : N) (k : Settled AudioIOResult -> Prog A)
| AwaitWrite (chunk : Buffer) (k : Settled (option Error) -> Prog A)
| AwaitQuit (mode : string) (k : Settled unit -> Prog A).
Arguments Throw {A} v.
Arguments Fork {A} child k.

Fixpoint bind {A B} (p : Prog A) (f : A -> Prog B) : Prog B :=
  match p with
  | Ret a => f a
  | Throw v => Throw v
  | Do act k => Do act (bind k f)
  | Fork child k => Fork child (bind k f)
  | AwaitRead size k => AwaitRead size (fun o => bind (k o) f)
  | AwaitWrite chunk k => AwaitWrite chunk (fun o => bind (k o) f)
  | AwaitQuit mode k => AwaitQuit mode (fun o => bind (k o) f)
  end.

(** [try { p } catch (error) { h error }] *)
Fixpoint try_catch {A} (p : Prog A) (h : Thrown -> Prog A) : Prog A :=
  match p with
  | Ret a => Ret a
  | Throw v => h v
  | Do act k => Do act (try_catch k h)
  | Fork child k => Fork child (try_catch k h)
  | AwaitRead size k => AwaitRead size (fun o => try_catch (k o) h)
  | AwaitWrite chunk k => AwaitWrite chunk (fun o => try_catch (k o) h)
  | AwaitQuit mode k => AwaitQuit mode (fun o => try_catch (k o) h)
  end.

(** [await promise]: the value, or the rejection reason thrown. *)
Definition settle {A} (o : Settled A) : Prog A :=
  match o with
  | Fulfilled a => Ret a
  | Rejected reason => Throw reason
  end.

Definition await_read (size : N) : Prog AudioIOResult := AwaitRead size settle.
Definition await_write (chunk : Buffer) : Prog (option Error) := AwaitWrite chunk settle.
Definition await_quit (mode : string) : Prog unit := AwaitQuit mode settle.
Definition perform (act : Action) : Prog unit := Do act (Ret tt).

Declare Scope prog_scope.
Delimit Scope prog_scope with prog.
Notation "x <- p ;; q" := (bind p (fun x => q))
  (at level 61, p at next level, right associativity) : prog_scope.
Notation "p ;; q" := (bind p (fun _ => q))
  (at level 61, right associativity) : prog_scope.
Notation "'try' p 'catch' h" := (try_catch p h)
  (at level 62, p at level 61, h at level 9) : prog_scope.
Local Open Scope prog_scope.

(** [if (typeof callback === 'function') { callback(); }] *)
Definition call_if_function (callback : option Callback) : Prog unit :=
  match callback with
  | Some cb => perform (UserCallback cb)
  | None => Ret tt
  end.

(** ** Options handed to the base classes of Node's [stream] module *)

Record ReadableOptions := {
  r_highWaterMark : float;
  r_objectMode : bool
}.

Record WritableOptions := {
  w_highWaterMark : float;
  w_decodeStrings : bool;
  w_objectMode : bool
}.

Record DuplexOptions := {
  allowHalfOpen : bool;
  readableObjectMode : bool;
  writableObjectMode : bool;
  readableHighWaterMark : float;
  writableHighWaterMark : float
}.

Inductive Base :=
| BaseReadable (o : ReadableOptions)
| BaseWritable (o : WritableOptions)
| BaseDuplex (o : DuplexOptions).

(** [Number.isInteger(x)] on a binary64 number [m * 2^e]. *)
Definition is_integer (x : float) : bool :=
  match Prim2SF x with
  | S754_zero _ => true
  | S754_finite _ m e => (0 <=? e)%Z || (Z.land (Zpos m) (Z.ones (- e)) =? 0)%Z
  | S754_infinity _ | S754_nan => false
  end.

(** The base classes accept a high-water mark that is given only if it is
    an integer and not negative (Node's [getHighWaterMark]: [if
    (!NumberIsInteger(hwm) || hwm < 0) throw new ERR_INVALID_ARG_VALUE(name,
    hwm)]).  The error is kept by the name of the option it refuses. *)
Definition valid_highWaterMark (hwm : float) : bool :=
  is_integer hwm && PrimFloat.leb 0 hwm.

Definition ERR_INVALID_ARG_VALUE (name : string) : Error :=
  mkError ("The property '" ++ name ++ "' is invalid.").

(** [super(options)] in a class that extends [Readable], [Writable] or
    [Duplex]; the duplex class sets up its readable side first. *)
Definition Readable_super (o : ReadableOptions) : Completion Base :=
  if valid_highWaterMark (r_highWaterMark o) then Returned (BaseReadable o)
  else Threw (ThrownError (ERR_INVALID_ARG_VALUE "options.highWaterMark")).

Definition Writable_super (o : WritableOptions) : Completion Base :=
  if valid_highWaterMark (w_highWaterMark o) then Returned (BaseWritable o)
  else Threw (ThrownError (ERR_INVALID_ARG_VALUE "options.highWaterMark")).

Definition Duplex_super (o : DuplexOptions) : Completion Base :=
  if valid_highWaterMark (readableHighWaterMark o) then
    if valid_highWaterMark (writableHighWaterMark o) then Returned (BaseDuplex o)
    else Threw (ThrownError (ERR_INVALID_ARG_VALUE "options.writableHighWaterMark"))
  else Threw (ThrownError (ERR_INVALID_ARG_VALUE "options.readableHighWaterMark")).

(** A listener receives the event's optional argument. *)
Definition Listener := option Error -> Prog unit.

(** A stream object: what [super(...)] was given, the private field
    [audioIOAddon], and the listeners added with [on]. *)
Record Stream := {
  base : Base;
  audioIOAddon : AudioIOAddon;
  listeners : list (string * Listener)
}.

(** [this.audioIOAddon = audioIOAddon], once [super(...)] has returned. *)
Definition construct (super : Completion Base) (audioIOAddon : AudioIOAddon)
    : Completion Stream :=
  match super with
  | Returned base => Returned {| base := base; audioIOAddon := audioIOAddon; listeners := [] |}
  | Threw v => Threw v
  end.

(** [stream.on(name, listener)] *)
Definition on (stream : Stream) (name : string) (listener : Listener) : Stream :=
  {| base := base stream;
     audioIOAddon := audioIOAddon stream;
     listeners := listeners stream ++ [(name, listener)] |}.

(** The listeners [emit(name)] calls, in the order they were added. *)
Definition listeners_of (stream : Stream) (name : string) : list Listener :=
  map snd (filter (fun nl => String.eqb (fst nl) name) (listeners stream)).

(** ** class AudioReadableStream extends Readable *)
Module AudioReadableStream.

(** The argument of [super(...)]. *)
Definition super_options (options : AudioOptions) : ReadableOptions :=
  {| r_highWaterMark := or_default (highwaterMark options) 16384;
     r_objectMode := false |}.

Definition constructor (audioIOAddon : AudioIOAddon) (options : AudioOptions)
    : Completion Stream :=
  construct (Readable_super (super_options options)) audioIOAddon.

Definition doRead (size : N) : Prog unit :=
  try
    (result <- await_read size ;;
     match err result with
     | Some e => perform (Destroy e)
     | None =>
         if is_true (finished result)
         then perform PushNull
         else perform (Push (buf result))
     end)
  catch (fun error => perform (Destroy (toError error))).

Definition _read (size : N) : Prog unit :=
  Fork (doRead size) (Ret tt).

Definition start : Prog unit := perform (Engine EStart).

Definition quit (callback : option Callback) : Prog unit :=
  await_quit "WAIT" ;;
  call_if_function callback.

Definition abort (callback : option Callback) : Prog unit :=
  Fork (await_quit "ABORT" ;; call_if_function callback) (Ret tt).

End AudioReadableStream.

(** ** class AudioWritableStream extends Writable *)
Module AudioWritableStream.

(** The argument of [super(...)]. *)
Definition super_options (options : AudioOptions) : WritableOptions :=
  {| w_highWaterMark := or_default (highwaterMark options) 16384;
     w_decodeStrings := false;
     w_objectMode := false |}.

Definition constructor (audioIOAddon : AudioIOAddon) (options : AudioOptions)
    : Completion Stream :=
  construct (Writable_super (super_options options)) audioIOAddon.

Definition doWrite (chunk : Buffer) (encoding : string) (callback : Callback) : Prog unit :=
  try
    (error <- await_write chunk ;;
     perform (WriteCallback callback error))
  catch (fun error => perform (WriteCallback callback (Some (toError error)))).

Definition _write (chunk : Buffer) (encoding : string) (callback : Callback) : Prog unit :=
  Fork (doWrite chunk encoding callback) (Ret tt).

Definition start : Prog unit := perform (Engine EStart).

Definition quit (callback : option Callback) : Prog unit :=
  await_quit "WAIT" ;;
  call_if_function callback.

Definition abort (callback : option Callback) : Prog unit :=
  Fork (await_quit "ABORT" ;; call_if_function callback) (Ret tt).

End AudioWritableStream.

(** ** class AudioDuplexStream extends Duplex *)
Module AudioDuplexStream.

(** The argument of [super(...)]. *)
Definition super_options (inOptions outOptions : AudioOptions) : DuplexOptions :=
  {| allowHalfOpen := false;
     readableObjectMode := false;
     writableObjectMode := false;
     readableHighWaterMark := or_default (highwaterMark inOptions) 16384;
     writableHighWaterMark := or_default (highwaterMark outOptions) 16384 |}.

Definition constructor (audioIOAddon : AudioIOAddon)
    (inOptions outOptions : AudioOptions) : Completion Stream :=
  construct (Duplex_super (super_options inOptions outOptions)) audioIOAddon.

Definition doRead (size : N) : Prog unit :=
  try
    (result <- await_read size ;;
     match err result with
     | Some e => perform (Destroy e)
     | None =>
         if is_true (finished result)
         then perform PushNull
         else perform (Push (buf result))
     end)
  catch (fun error => perform (Destroy (toError error))).

Definition doWrite (chunk : Buffer) (encoding : string) (callback : Callback) : Prog unit :=
  try
    (error <- await_write chunk ;;
     perform (WriteCallback callback error))
  catch (fun error => perform (WriteCallback callback (Some (toError error)))).

Definition _read (size : N) : Prog unit :=
  Fork (doRead size) (Ret tt).

Definition _write (chunk : Buffer) (encoding : string) (callback : Callback) : Prog unit :=
  Fork (doWrite chunk encoding callback) (Ret tt).

Definition start : Prog unit := perform (Engine EStart).

Definition quit (callback : option Callback) : Prog unit :=
  await_quit "WAIT" ;;
  call_if_function callback.

Definition abort (callback : option Callback) : Prog unit :=
  Fork (await_quit "ABORT" ;; call_if_function callback) (Ret tt).

End AudioDuplexStream.

(** ** function AudioIO *)

(** Reading a property of [undefined]: what [options.inOptions!] would
    lead to if the guard before it had not established the value. *)
Definition TypeError_undefined : Thrown :=
  ThrownError (mkError "TypeError: Cannot read properties of undefined").

Definition AudioIO_error : Error :=
  mkError "AudioIO requires either inOptions, outOptions, or both".

(** The result comes with the calls made on [portAudioBindings], in
    order.  An exception of a constructor ends the call.  The ['finish']
    listener has the body of [stream.quit()] in line: in the source the
    listener awaits the promise of [quit()], so that continuations of other
    engine calls may run between the fulfilment of the engine's [quit] and
    [emit('finished')]; the order of the two is as here. *)
Definition AudioIO (portAudioBindings : Bindings) (options : Options)
    : list EngineCall * Completion Stream :=
  ([ECreate options],
   match create portAudioBindings options with
   | Threw v => Threw v
   | Returned audioIOAddon =>
       let readable := has_key (inOptions options) && is_defined (get (inOptions options)) in
       let writable := has_key (outOptions options) && is_defined (get (outOptions options)) in
       if readable && writable then
         match get (inOptions options), get (outOptions options) with
         | Some inOpts, Some outOpts =>
             match AudioDuplexStream.constructor audioIOAddon inOpts outOpts with
             | Threw v => Threw v
             | Returned stream =>
                 let stream := on stream "close" (fun _ => perform (Emit "closed")) in
                 let stream := on stream "finish"
                                 (fun _ => AudioDuplexStream.quit None ;;
                                           perform (Emit "finished")) in
                 let stream := on stream "error" (fun err => perform (ConsoleError err)) in
                 Returned stream
             end
         | _, _ => Threw TypeError_undefined
         end
       else if readable then
         match get (inOptions options) with
         | Some inOpts =>
             match AudioReadableStream.constructor audioIOAddon inOpts with
             | Threw v => Threw v
             | Returned stream =>
                 let stream := on stream "close" (fun _ => perform (Emit "closed")) in
                 let stream := on stream "error" (fun err => perform (ConsoleError err)) in
                 Returned stream
             end
         | None => Threw TypeError_undefined
         end
       else if writable then
         match get (outOptions options) with
         | Some outOpts =>
             match AudioWritableStream.constructor audioIOAddon outOpts with
             | Threw v => Threw v
             | Returned stream =>
                 let stream := on stream "close" (fun _ => perform (Emit "closed")) in
                 let stream := on stream "finish"
                                 (fun _ => AudioWritableStream.quit None ;;
                                           perform (Emit "finished")) in
                 let stream := on stream "error" (fun err => perform (ConsoleError err)) in
                 Returned stream
             end
         | None => Threw TypeError_undefined
         end
       else Threw (ThrownError AudioIO_error)
   end).

(** ** Running a program *)

(** What an observer of the stream sees, in order. *)
Inductive Event :=
| Did (a : Action)
| ReadSettled (o : Settled AudioIOResult)
| WriteSettled (o : Settled (option Error))
| QuitSettled (o : Settled unit)
| UnhandledRejection (v : Thrown).

(** The continuations waiting for one of the engine's promises. *)
Record Tasks := {
  reads : list (Settled AudioIOResult -> Prog unit);
  writes : list (Settled (option Error) -> Prog unit);
  quits : list (Settled unit -> Prog unit)
}.

Definition no_tasks : Tasks := {| reads := []; writes := []; quits := [] |}.

Definition join (a b : Tasks) : Tasks :=
  {| reads := reads a ++ reads b;
     writes := writes a ++ writes b;
     quits := quits a ++ quits b |}.

(** [run p] executes [p] up to its first [await] (and each forked call up
    to its own): the effects in order, and what stays suspended.  The
    engine call of an [await] is made when the [await] is reached. *)
Fixpoint run (p : Prog unit) : list Event * Tasks :=
  match p with
  | Ret _ => ([], no_tasks)
  | Throw v => ([UnhandledRejection v], no_tasks)
  | Do act k => let (es, ts) := run k in (Did act :: es, ts)
  | Fork child k =>
      let (es1, ts1) := run child in
      let (es2, ts2) := run k in
      (es1 ++ es2, join ts1 ts2)
  | AwaitRead size k =>
      ([Did (Engine (ERead size))], {| reads := [k]; writes := []; quits := [] |})
  | AwaitWrite chunk k =>
      ([Did (Engine (EWrite chunk))], {| reads := []; writes := [k]; quits := [] |})
  | AwaitQuit mode k =>
      ([Did (Engine (EQuit mode))], {| reads := []; writes := []; quits := [k] |})
  end.

(** ** The base classes of Node's [stream] module

    [Readable], [Writable] and [Duplex] are not code of this repository
    ([import {Duplex, Readable, Writable} from 'stream'], line 17); the
    classes of the source only override [_read] and [_write].  [Node] keeps
    the part of the base classes' state that decides when [_read] and
    [_write] are called and what [push], [destroy] and the write callback
    do, as the [stream] module documents it (Node 14 and later):
    - [reading] is set when [_read] is called and cleared by [push];
      [_read] is not called while it is set, nor after [push(null)]
      ([ended]), nor once the stream is destroyed;
    - [writing] is set when [_write] is called and cleared by its callback;
      chunks written meanwhile wait in [buffered], in order;
    - a write callback called with an error destroys the stream with that
      error: [autoDestroy] is true by default, and no constructor of the
      source passes [autoDestroy];
    - [destroy] takes effect once; [errored] is the error it was given;
    - [accepted] (the chunks [write] took, in order) and [calls] (the number
      of [_write] calls, which names the callback handed to each) are
      bookkeeping for the statements below.
    When the consumer pulls is left to the environment: the high-water
    marks only make pulls and writes rarer, so they are not part of the
    state. *)
Record Node := {
  reading : bool;
  ended : bool;
  delivered : list Buffer;
  writing : bool;
  ending : bool;
  buffered : list Buffer;
  accepted : list Buffer;
  calls : nat;
  destroyed : bool;
  errored : option Error;
  finishEmitted : bool;
  errorEmitted : bool;
  closeEmitted : bool
}.

Definition fresh : Node :=
  {| reading := false; ended := false; delivered := [];
     writing := false; ending := false; buffered := []; accepted := []; calls := 0;
     destroyed := false; errored := None;
     finishEmitted := false; errorEmitted := false; closeEmitted := false |}.

Definition set_reading (b : bool) (n : Node) : Node :=
  {| reading := b; ended := ended n; delivered := delivered n;
     writing := writing n; ending := ending n; buffered := buffered n;
     accepted := accepted n; calls := calls n;
     destroyed := destroyed n; errored := errored n;
     finishEmitted := finishEmitted n; errorEmitted := errorEmitted n;
     closeEmitted := closeEmitted n |}.

Definition set_ended (n : Node) : Node :=
  {| reading := reading n; ended := true; delivered := delivered n;
     writing := writing n; ending := ending n; buffered := buffered n;
     accepted := accepted n; calls := calls n;
     destroyed := destroyed n; errored := errored n;
     finishEmitted := finishEmitted n; errorEmitted := errorEmitted n;
     closeEmitted := closeEmitted n |}.

Definition deliver (chunk : Buffer) (n : Node) : Node :=
  {| reading := false; ended := ended n; delivered := delivered n ++ [chunk];
     writing := writing n; ending := ending n; buffered := buffered n;
     accepted := accepted n; calls := calls n;
     destroyed := destroyed n; errored := errored n;
     finishEmitted := finishEmitted n; errorEmitted := errorEmitted n;
     closeEmitted := closeEmitted n |}.

Definition set_writing (b : bool) (n : Node) : Node :=
  {| reading := reading n; ended := ended n; delivered := delivered n;
     writing := b; ending := ending n; buffered := buffered n;
     accepted := accepted n; calls := calls n;
     destroyed := destroyed n; errored := errored n;
     finishEmitted := finishEmitted n; errorEmitted := errorEmitted n;
     closeEmitted := closeEmitted n |}.

Definition set_ending (n : Node) : Node :=
  {| reading := reading n; ended := ended n; delivered := delivered n;
     writing := writing n; ending := true; buffered := buffered n;
     accepted := accepted n; calls := calls n;
     destroyed := destroyed n; errored := errored n;
     finishEmitted := finishEmitted n; errorEmitted := errorEmitted n;
     closeEmitted := closeEmitted n |}.

(** [write(chunk)] while a write is in progress: the chunk waits. *)
Definition enqueue (chunk : Buffer) (n : Node) : Node :=
  {| reading := reading n; ended := ended n; delivered := delivered n;
     writing := writing n; ending := ending n; buffered := buffered n ++ [chunk];
     accepted := accepted n ++ [chunk]; calls := calls n;
     destroyed := destroyed n; errored := errored n;
     finishEmitted := finishEmitted n; errorEmitted := errorEmitted n;
     closeEmitted := closeEmitted n |}.

(** [write(chunk)] on an idle stream: [_write] is called at once. *)
Definition begin_write (chunk : Buffer) (n : Node) : Node :=
  {| reading := reading n; ended := ended n; delivered := delivered n;
     writing := true; ending := ending n; buffered := buffered n;
     accepted := accepted n ++ [chunk]; calls := S (calls n);
     destroyed := destroyed n; errored := errored n;
     finishEmitted := finishEmitted n; errorEmitted := errorEmitted n;
     closeEmitted := closeEmitted n |}.

(** The next waiting chunk is taken: [_write] is called with it. *)
Definition dequeue (rest : list Buffer) (n : Node) : Node :=
  {| reading := reading n; ended := ended n; delivered := delivered n;
     writing := true; ending := ending n; buffered := rest;
     accepted := accepted n; calls := S (calls n);
     destroyed := destroyed n; errored := errored n;
     finishEmitted := finishEmitted n; errorEmitted := errorEmitted n;
     closeEmitted := closeEmitted n |}.

(** [destroy(e)]: once; the waiting chunks are dropped. *)
Definition destroy (e : option Error) (n : Node) : Node :=
  if destroyed n then n
  else
    {| reading := reading n; ended := ended n; delivered := delivered n;
       writing := writing n; ending := ending n; buffered := [];
       accepted := accepted n; calls := calls n;
       destroyed := true; errored := e;
       finishEmitted := finishEmitted n; errorEmitted := errorEmitted n;
       closeEmitted := closeEmitted n |}.

Definition set_emitted (name : string) (n : Node) : Node :=
  {| reading := reading n; ended := ended n; delivered := delivered n;
     writing := writing n; ending := ending n; buffered := buffered n;
     accepted := accepted n; calls := calls n;
     destroyed := destroyed n; errored := errored n;
     finishEmitted := finishEmitted n || String.eqb name "finish";
     errorEmitted := errorEmitted n || String.eqb name "error";
     closeEmitted := closeEmitted n || String.eqb name "close" |}.

Definition ERR_STREAM_PUSH_AFTER_EOF : Error := mkError "stream.push() after EOF".
Definition ERR_STREAM_WRITE_AFTER_END : Error := mkError "write after end".

Definition is_empty {A} (l : list A) : bool :=
  match l with
  | [] => true
  | _ => false
  end.

(** [push(chunk)] for a chunk that is not [null]: an empty or undefined
    chunk only clears [reading]; a chunk pushed after the end is an error;
    a chunk pushed to a destroyed stream is dropped. *)
Definition node_push (chunk : option Buffer) (n : Node) : Node :=
  match chunk with
  | Some (b :: bs) =>
      if ended n then destroy (Some ERR_STREAM_PUSH_AFTER_EOF) n
      else if destroyed n then n
      else deliver (b :: bs) n
  | _ => set_reading false n
  end.

(** The effect of an action on the base class.  [push(null)] ends the
    readable side; the write callback clears [writing] and, given an error,
    destroys the stream ([onwrite] then [errorOrDestroy]). *)
Definition node_do (a : Action) (n : Node) : Node :=
  match a with
  | Push chunk => node_push chunk n
  | PushNull => set_ended (set_reading false n)
  | Destroy e => destroy (Some e) n
  | WriteCallback _ None => set_writing false n
  | WriteCallback _ (Some e) => destroy (Some e) (set_writing false n)
  | Engine _ | UserCallback _ | Emit _ | ConsoleError _ => n
  end.

Definition node_event (n : Node) (e : Event) : Node :=
  match e with
  | Did a => node_do a n
  | _ => n
  end.

(** ** A stream in its environment *)

Record State := {
  self : Stream;
  node : Node;
  tasks : Tasks;
  trace : list Event
}.

Definition init (stream : Stream) : State :=
  {| self := stream; node := fresh; tasks := no_tasks; trace := [] |}.

Definition with_node (f : Node -> Node) (s : State) : State :=
  {| self := self s; node := f (node s); tasks := tasks s; trace := trace s |}.

(** Call [p]: its effects happen now, its suspended parts wait. *)
Definition exec (p : Prog unit) (s : State) : State :=
  {| self := self s;
     node := fold_left node_event (fst (run p)) (node s);
     tasks := join (tasks s) (snd (run p));
     trace := trace s ++ fst (run p) |}.

(** [emit(name, arg)] by the base class: every listener is called. *)
Definition emit (name : string) (arg : option Error) (s : State) : State :=
  fold_left (fun s l => exec (l arg) s) (listeners_of (self s) name)
            (with_node (set_emitted name) s).

(** Method lookup by class. *)
Definition class_read (stream : Stream) : option (N -> Prog unit) :=
  match base stream with
  | BaseReadable _ => Some AudioReadableStream._read
  | BaseWritable _ => None
  | BaseDuplex _ => Some AudioDuplexStream._read
  end.

Definition class_write (stream : Stream) : option (Buffer -> string -> Callback -> Prog unit) :=
  match base stream with
  | BaseReadable _ => None
  | BaseWritable _ => Some AudioWritableStream._write
  | BaseDuplex _ => Some AudioDuplexStream._write
  end.

Definition class_start (stream : Stream) : Prog unit :=
  match base stream with
  | BaseReadable _ => AudioReadableStream.start
  | BaseWritable _ => AudioWritableStream.start
  | BaseDuplex _ => AudioDuplexStream.start
  end.

Definition class_quit (stream : Stream) : option Callback -> Prog unit :=
  match base stream with
  | BaseReadable _ => AudioReadableStream.quit
  | BaseWritable _ => AudioWritableStream.quit
  | BaseDuplex _ => AudioDuplexStream.quit
  end.

Definition class_abort (stream : Stream) : option Callback -> Prog unit :=
  match base stream with
  | BaseReadable _ => AudioReadableStream.abort
  | BaseWritable _ => AudioWritableStream.abort
  | BaseDuplex _ => AudioDuplexStream.abort
  end.

(** What the environment can do next: the application calls a method
    ([start], [quit], [abort], [write], [end], [destroy], the last also
    standing for [autoDestroy]); the base class calls [_read] ([Pull]) or
    [_write] for the next waiting chunk ([Flush]), or emits ['finish'],
    ['error'] or ['close']; the engine settles the [i]-th outstanding read,
    write or quit. *)
Inductive Input :=
| CallStart
| CallQuit (callback : option Callback)
| CallAbort (callback : option Callback)
| CallWrite (chunk : Buffer)
| CallEnd
| CallDestroy (e : option Error)
| Pull (size : N)
| Flush
| EmitFinish
| EmitError
| EmitClose
| SettleRead (i : nat) (o : Settled AudioIOResult)
| SettleWrite (i : nat) (o : Settled (option Error))
| SettleQuit (i : nat) (o : Settled unit).

Fixpoint remove_nth {A} (i : nat) (l : list A) : list A :=
  match i, l with
  | _, [] => []
  | 0, _ :: l => l
  | S i, a :: l => a :: remove_nth i l
  end.

Definition settled (e : Event) (ts : Tasks) (s : State) : State :=
  {| self := self s; node := node s; tasks := ts; trace := trace s ++ [e] |}.

(** One step; [None] when the environment cannot do this now.  [write]
    after [end] is an error that destroys the stream; [write] on a
    destroyed stream is refused; a chunk written while another is on its
    way, or waiting, waits. *)
Definition step (i : Input) (s : State) : option State :=
  let n := node s in
  match i with
  | CallStart => Some (exec (class_start (self s)) s)
  | CallQuit callback => Some (exec (class_quit (self s) callback) s)
  | CallAbort callback => Some (exec (class_abort (self s) callback) s)
  | CallWrite chunk =>
      match class_write (self s) with
      | None => None
      | Some _write =>
          if ending n then Some (with_node (destroy (Some ERR_STREAM_WRITE_AFTER_END)) s)
          else if destroyed n then Some s
          else if writing n || negb (is_empty (buffered n))
          then Some (with_node (enqueue chunk) s)
          else Some (exec (_write chunk "buffer" (calls n)) (with_node (begin_write chunk) s))
      end
  | Flush =>
      match class_write (self s), buffered n with
      | Some _write, chunk :: rest =>
          if destroyed n || writing n then None
          else Some (exec (_write chunk "buffer" (calls n)) (with_node (dequeue rest) s))
      | _, _ => None
      end
  | CallEnd =>
      match class_write (self s) with
      | None => None
      | Some _ => if destroyed n then Some s else Some (with_node set_ending s)
      end
  | CallDestroy e => Some (with_node (destroy e) s)
  | Pull size =>
      match class_read (self s) with
      | None => None
      | Some _read =>
          if reading n || ended n || destroyed n then None
          else Some (exec (_read size) (with_node (set_reading true) s))
      end
  | EmitFinish =>
      match class_write (self s) with
      | None => None
      | Some _ =>
          if ending n && negb (destroyed n) && negb (writing n)
             && is_empty (buffered n) && negb (finishEmitted n)
          then Some (emit "finish" None s)
          else None
      end
  | EmitError =>
      match errored n with
      | Some e =>
          if destroyed n && negb (errorEmitted n)
          then Some (emit "error" (Some e) s)
          else None
      | None => None
      end
  | EmitClose =>
      if destroyed n && negb (closeEmitted n)
         && (negb (is_defined (errored n)) || errorEmitted n)
      then Some (emit "close" None s)
      else None
  | SettleRead i o =>
      match nth_error (reads (tasks s)) i with
      | Some k =>
          Some (exec (k o)
                  (settled (ReadSettled o)
                     {| reads := remove_nth i (reads (tasks s));
                        writes := writes (tasks s);
                        quits := quits (tasks s) |} s))
      | None => None
      end
  | SettleWrite i o =>
      match nth_error (writes (tasks s)) i with
      | Some k =>
          Some (exec (k o)
                  (settled (WriteSettled o)
                     {| reads := reads (tasks s);
                        writes := remove_nth i (writes (tasks s));
                        quits := quits (tasks s) |} s))
      | None => None
      end
  | SettleQuit i o =>
      match nth_error (quits (tasks s)) i with
      | Some k =>
          Some (exec (k o)
                  (settled (QuitSettled o)
                     {| reads := reads (tasks s);
                        writes := writes (tasks s);
                        quits := remove_nth i (quits (tasks s)) |} s))
      | None => None
      end
  end.

Fixpoint steps (inputs : list Input) (s : State) : option State :=
  match inputs with
  | [] => Some s
  | i :: inputs =>
      match step i s with
      | Some s' => steps inputs s'
      | None => None
      end
  end.

Definition reachable_from (s s' : State) : Prop :=
  exists inputs, steps inputs s = Some s'.

(** A stream made by one of the constructors or by [AudioIO]. *)
Inductive made : Stream -> Prop :=
| made_readable audioIOAddon options stream :
    AudioReadableStream.constructor audioIOAddon options = Returned stream ->
    made stream
| made_writable audioIOAddon options stream :
    AudioWritableStream.constructor audioIOAddon options = Returned stream ->
    made stream
| made_duplex audioIOAddon inOptions outOptions stream :
    AudioDuplexStream.constructor audioIOAddon inOptions outOptions = Returned stream ->
    made stream
| made_AudioIO portAudioBindings options stream :
    snd (AudioIO portAudioBindings options) = Returned stream ->
    made stream.

Definition reachable (s : State) : Prop :=
  exists stream, made stream /\ reachable_from (init stream) s.

(** ** Observations on a trace *)

Definition read_calls (tr : list Event) : list N :=
  flat_map (fun e => match e with Did (Engine (ERead size)) => [size] | _ => [] end) tr.

Definition read_results (tr : list Event) : list (Settled AudioIOResult) :=
  flat_map (fun e => match e with ReadSettled o => [o] | _ => [] end) tr.

Definition write_calls (tr : list Event) : list Buffer :=
  flat_map (fun e => match e with Did (Engine (EWrite chunk)) => [chunk] | _ => [] end) tr.

Definition quit_calls (tr : list Event) : list string :=
  flat_map (fun e => match e with Did (Engine (EQuit mode)) => [mode] | _ => [] end) tr.

(** What the stream handed to [push]. *)
Inductive Pushed :=
| Chunk (chunk : option Buffer)
| EndOfStream.

Definition pushes (tr : list Event) : list Pushed :=
  flat_map (fun e => match e with
                     | Did (Push chunk) => [Chunk chunk]
                     | Did PushNull => [EndOfStream]
                     | _ => []
                     end) tr.

(** A read result that carries a buffer: no error, not finished. *)
Definition carries_buffer (o : Settled AudioIOResult) : bool :=
  match o with
  | Fulfilled r => negb (is_defined (err r)) && negb (is_true (finished r))
  | Rejected _ => false
  end.

Definition buffer_of (o : Settled AudioIOResult) : option Buffer :=
  match o with
  | Fulfilled r => buf r
  | Rejected _ => None
  end.

(** The error a settled write is reported with. *)
Definition error_of (o : Settled (option Error)) : option Error :=
  match o with
  | Fulfilled e => e
  | Rejected reason => Some (toError reason)
  end.

(** What follows a settled read, and a settled write whose [_write] was
    given the callback [cb]. *)
Definition read_effects (o : Settled AudioIOResult) : list Event :=
  match o with
  | Fulfilled r =>
      match err r with
      | Some e => [Did (Destroy e)]
      | None => if is_true (finished r) then [Did PushNull] else [Did (Push (buf r))]
      end
  | Rejected reason => [Did (Destroy (toError reason))]
  end.

Definition write_effects (cb : Callback) (o : Settled (option Error)) : list Event :=
  [Did (WriteCallback cb (error_of o))].

Definition pushed_by (o : Settled AudioIOResult) : list Pushed :=
  pushes (read_effects o).

Definition Error_eqb (a b : Error) : bool := String.eqb (message a) (message b).

Definition option_eqb {A} (eqb : A -> A -> bool) (a b : option A) : bool :=
  match a, b with
  | Some x, Some y => eqb x y
  | None, None => true
  | _, _ => false
  end.

(** The write protocol: the [n]-th engine write is issued when no write is
    outstanding, it settles, then the callback given with the [n]-th chunk
    is called with the settled result's error; only then can the next write
    be issued. *)
Inductive Phase :=
| Idle (n : nat)
| Busy (n : nat)
| Acking (n : nat) (o : Settled (option Error)).

Definition protocol_step (ph : option Phase) (e : Event) : option Phase :=
  match ph, e with
  | None, _ => None
  | Some (Idle n), Did (Engine (EWrite _)) => Some (Busy n)
  | Some (Busy n), WriteSettled o => Some (Acking n o)
  | Some (Acking n o), Did (WriteCallback cb e) =>
      if Nat.eqb cb n && option_eqb Error_eqb e (error_of o)
      then Some (Idle (S n)) else None
  | Some _, Did (Engine (EWrite _)) => None
  | Some _, WriteSettled _ => None
  | Some _, Did (WriteCallback _ _) => None
  | Some ph, _ => Some ph
  end.

Definition protocol (tr : list Event) : option Phase :=
  fold_left protocol_step tr (Some (Idle 0)).

(** Events that concern neither the read side nor the write side. *)
Definition neutral (e : Event) : bool :=
  match e with
  | Did (Engine (ERead _)) | Did (Engine (EWrite _)) => false
  | Did (Push _) | Did PushNull | Did (Destroy _) | Did (WriteCallback _ _) => false
  | ReadSettled _ | WriteSettled _ => false
  | _ => true
  end.

(** A program that ends without suspending, with neutral effects. *)
Definition quiet (p : Prog unit) : Prop :=
  forallb neutral (fst (run p)) = true /\ snd (run p) = no_tasks.

(** A program with neutral effects that may wait for [quit] once. *)
Definition tame (p : Prog unit) : Prop :=
  forallb neutral (fst (run p)) = true
  /\ reads (snd (run p)) = []
  /\ writes (snd (run p)) = []
  /\ Forall (fun k => forall o, quiet (k o)) (quits (snd (run p))).

Definition wired (stream : Stream) : Prop :=
  forall name l arg, In l (listeners_of stream name) -> tame (l arg).

(** The invariant of the machine. *)
Record Inv (s : State) : Prop := {
  inv_reads_k :
    Forall (fun k => forall o, run (k o) = (read_effects o, no_tasks)) (reads (tasks s));
  inv_reads_one : List.length (reads (tasks s)) <= 1;
  inv_reading : reads (tasks s) <> [] -> reading (node s) = true;
  inv_read_count :
    List.length (read_calls (trace s))
    = List.length (read_results (trace s)) + List.length (reads (tasks s));
  inv_pushes : pushes (trace s) = flat_map pushed_by (read_results (trace s));
  inv_stopped :
    forallb carries_buffer (read_results (trace s)) = false ->
    reads (tasks s) = [] /\ ended (node s) || destroyed (node s) = true;
  inv_bufs : forallb carries_buffer (removelast (read_results (trace s))) = true;
  inv_writes :
    (writes (tasks s) = [] /\ writing (node s) = false
     /\ protocol (trace s) = Some (Idle (calls (node s))))
    \/ (exists k cb, writes (tasks s) = [k] /\ writing (node s) = true
        /\ calls (node s) = S cb
        /\ (forall o, run (k o) = (write_effects cb o, no_tasks))
        /\ protocol (trace s) = Some (Busy cb));
  inv_order :
    exists rest, accepted (node s) = write_calls (trace s) ++ rest
                 /\ (destroyed (node s) = false -> rest = buffered (node s));
  inv_writable : buffered (node s) <> [] -> class_write (self s) <> None;
  inv_quits : Forall (fun k => forall o, quiet (k o)) (quits (tasks s));
  inv_wired : wired (self s)
}.

(** ** Statements of the specification that the code does not meet *)

Definition neither (options : Options) : Prop :=
  get (inOptions options) = None /\ get (outOptions options) = None.

(** The factory fails before any call on the engine. *)
Definition fails_before_engine (portAudioBindings : Bindings) (options : Options) : Prop :=
  neither options ->
  fst (AudioIO portAudioBindings options) = []
  /\ exists v, snd (AudioIO portAudioBindings options) = Threw v.

(** After [abort] is called in the state reached by [before], with a read
    or a write outstanding, nothing more reaches the consumer. *)
Definition abort_discards (stream : Stream) (before : list Input)
    (callback : option Callback) (after : list Input) : Prop :=
  forall s s',
    steps before (init stream) = Some s ->
    reads (tasks s) <> [] \/ writes (tasks s) <> [] ->
    steps (CallAbort callback :: after) s = Some s' ->
    delivered (node s') = delivered (node s)
    /\ pushes (trace s') = pushes (trace s).

(** Once [quit] or [abort] has been called, no read or write is issued. *)
Definition silent_after_shutdown (stream : Stream) (before after : list Input) : Prop :=
  forall s s',
    steps before (init stream) = Some s ->
    quit_calls (trace s) <> [] ->
    steps after s = Some s' ->
    read_calls (trace s') = read_calls (trace s)
    /\ write_calls (trace s') = write_calls (trace s).

(** After the engine reports an error for the outstanding write, the
    stream is not terminated and the next chunk is submitted. *)
Definition continues_after_write_error (stream : Stream) (before : list Input)
    (e : Error) (chunk : Buffer) : Prop :=
  forall s s1 s2,
    steps before (init stream) = Some s ->
    step (SettleWrite 0 (Fulfilled (Some e))) s = Some s1 ->
    step (CallWrite chunk) s1 = Some s2 ->
    destroyed (node s1) = false
    /\ write_calls (trace s2) = write_calls (trace s1) ++ [chunk].

(** The events of [callback()] for an optional callback. *)
Definition callback_effects (callback : option Callback) : list Event :=
  match callback with
  | Some cb => [Did (UserCallback cb)]
  | None => []
  end.

(** ** Which stream the factory selects *)

Inductive Variant := VReadable | VWritable | VDuplex.

Definition variant (stream : Stream) : Variant :=
  match base stream with
  | BaseReadable _ => VReadable
  | BaseWritable _ => VWritable
  | BaseDuplex _ => VDuplex
  end.

Definition readable_hwm (stream : Stream) : option float :=
  match base stream with
  | BaseReadable o => Some (r_highWaterMark o)
  | BaseWritable _ => None
  | BaseDuplex o => Some (readableHighWaterMark o)
  end.

Definition writable_hwm (stream : Stream) : option float :=
  match base stream with
  | BaseReadable _ => None
  | BaseWritable o => Some (w_highWaterMark o)
  | BaseDuplex o => Some (writableHighWaterMark o)
  end.

(** [highwaterMark] is missing or falsy. *)
Definition falsy (x : option float) : Prop :=
  match x with
  | Some v => truthy v = false
  | None => True
  end.

(** ** Sample values *)

Definition no_options : AudioOptions :=
  {| deviceId := None; sampleRate := None; channelCount := None;
     sampleFormat := None; maxQueue := None; framesPerBuffer := None;
     highwaterMark := None; closeOnError := None |}.

Definition lenient_options : AudioOptions :=
  {| deviceId := None; sampleRate := None; channelCount := None;
     sampleFormat := None; maxQueue := None; framesPerBuffer := None;
     highwaterMark := Some 0%float; closeOnError := Some false |}.

Definition sample_bindings : Bindings := {| create := fun _ => Returned 1 |}.

(** The streams [new AudioReadableStream(1, no_options)] and
    [new AudioWritableStream(1, lenient_options)]. *)
Definition sample_readable : Stream :=
  {| base := BaseReadable (AudioReadableStream.super_options no_options);
     audioIOAddon := 1; listeners := [] |}.
Definition sample_writable : Stream :=
  {| base := BaseWritable (AudioWritableStream.super_options lenient_options);
     audioIOAddon := 1; listeners := [] |}.

Definition chunk1 : Buffer := [Byte.x01; Byte.x02].
Definition chunk2 : Buffer := [Byte.x03; Byte.x04].
Definition chunk3 : Buffer := [Byte.x05].

Definition buffer_result (b : Buffer) : AudioIOResult :=
  {| err := None; finished := None; buf := Some b |}.
Definition finished_result : AudioIOResult :=
  {| err := None; finished := Some true; buf := None |}.
Definition error_result (e : Error) : AudioIOResult :=
  {| err := Some e; finished := None; buf := Some chunk1 |}.
Definition underrun : Error := mkError "output underflow".

(** [s'] comes after [s]: the trace grows; a stream that has ended or is
    destroyed stays so and issues no read; a destroyed stream issues no
    write; with no read outstanding either, the read side is silent. *)
Definition after (s s' : State) : Prop :=
  self s' = self s
  /\ exists evs,
      trace s' = trace s ++ evs
      /\ (ended (node s) = true -> ended (node s') = true)
      /\ (destroyed (node s) = true -> destroyed (node s') = true)
      /\ (ended (node s) || destroyed (node s) = true -> read_calls evs = [])
      /\ (destroyed (node s) = true -> write_calls evs = [])
      /\ (reads (tasks s) = [] ->
          ended (node s) || destroyed (node s) = true ->
          reads (tasks s') = [] /\ read_results evs = [] /\ pushes evs = []).

Definition no_streams : Options := {| inOptions := Absent; outOptions := Absent |}.
Definition playback : Options := {| inOptions := Absent; outOptions := Defined lenient_options |}.

(** A capture session: two buffers, then the end of the input. *)
Definition capture_session : list Input :=
  [Pull 16384; SettleRead 0 (Fulfilled (buffer_result chunk1));
   Pull 16384; SettleRead 0 (Fulfilled (buffer_result chunk2));
   Pull 16384; SettleRead 0 (Fulfilled finished_result)].

(** A playback session: three chunks written at once, the first played. *)
Definition playback_session : list Input :=
  [CallWrite chunk1; CallWrite chunk2; CallWrite chunk3;
   SettleWrite 0 (Fulfilled None)].

(** The state a session leads to. *)
Definition state_after (inputs : list Input) (stream : Stream) : State :=
  match steps inputs (init stream) with
  | Some s => s
  | None => init stream
  end.

(** The chunks the consumer receives for buffer results: the base class
    passes on every buffer that is not empty. *)
Definition data_of (results : list AudioIOResult) : list Buffer :=
  flat_map (fun r => match buf r with
                     | Some (b :: bs) => [b :: bs]
                     | _ => []
                     end) results.

(** The engine plays the chunk on its way, then the base class hands it
    the next one, for [n] chunks in all. *)
Fixpoint drain (n : nat) : list Input :=
  match n with
  | 0 => []
  | 1 => [SettleWrite 0 (Fulfilled None)]
  | S n => SettleWrite 0 (Fulfilled None) :: Flush :: drain n
  end.

(** The producer writes all the chunks at once, and the engine plays
    them. *)
Definition playback_of (chunks : list Buffer) : list Input :=
  map CallWrite chunks ++ drain (List.length chunks).

(** The consumer pulls and the engine answers, result after result. *)
Fixpoint capture (size : N) (results : list AudioIOResult) : list Input :=
  match results with
  | [] => []
  | r :: results => Pull size :: SettleRead 0 (Fulfilled r) :: capture size results
  end.

(** ** Relations between states of the base class *)

(** The fields the invariant reads. *)
Definition same_flow (n n' : Node) : Prop :=
  reading n' = reading n /\ ended n' = ended n /\ destroyed n' = destroyed n
  /\ writing n' = writing n /\ calls n' = calls n
  /\ accepted n' = accepted n /\ buffered n' = buffered n.

(** What [destroy] and the read side's actions keep. *)
Record gentle (n n' : Node) : Prop := {
  g_writing : writing n' = writing n;
  g_calls : calls n' = calls n;
  g_accepted : accepted n' = accepted n;
  g_ended : ended n = true -> ended n' = true;
  g_destroyed : destroyed n = true -> destroyed n' = true;
  g_buffered : destroyed n' = false -> buffered n' = buffered n;
  g_queue : buffered n' = [] \/ buffered n' = buffered n
}.

(** The read side is ready for a pull. *)
Definition ready (s : State) : Prop :=
  Inv s /\ class_read (self s) <> None
  /\ reading (node s) = false /\ ended (node s) = false /\ destroyed (node s) = false.

(** ** The engine calls a stream makes, and its notifications *)

(** The calls on the engine other than writes, in order. *)
Definition control_calls (tr : list Event) : list EngineCall :=
  flat_map (fun e => match e with
                     | Did (Engine (EWrite _)) => []
                     | Did (Engine c) => [c]
                     | _ => []
                     end) tr.

(** The calls a step of the environment asks of the stream: [start],
    [quit] and [abort] are forwarded, a pull is a read of the same size,
    and ['finish'] makes each of its listeners quit. *)
Definition requested (stream : Stream) (i : Input) : list EngineCall :=
  match i with
  | CallStart => [EStart]
  | CallQuit _ => [EQuit "WAIT"]
  | CallAbort _ => [EQuit "ABORT"]
  | Pull size => [ERead size]
  | EmitFinish => map (fun _ => EQuit "WAIT") (listeners_of stream "finish")
  | _ => []
  end.

(** The engine has just fulfilled a [quit]. *)
Definition quit_fulfilled (e : Event) : bool :=
  match e with
  | QuitSettled (Fulfilled _) => true
  | _ => false
  end.

(** A completion: the callback of [quit] or [abort], or the ['finished']
    notification. *)
Definition completion (e : Event) : bool :=
  match e with
  | Did (UserCallback _) => true
  | Did (Emit name) => String.eqb name "finished"
  | _ => false
  end.

(** Every completion in the trace comes right after a fulfilled [quit];
    [prev] tells whether the event before the trace was one. *)
Fixpoint completions_follow_quit (prev : bool) (tr : list Event) : bool :=
  match tr with
  | [] => true
  | e :: tr =>
      (negb (completion e) || prev) && completions_follow_quit (quit_fulfilled e) tr
  end.

(** Every completion answers a [quit] that the engine has fulfilled
    before it, and a fulfilled [quit] is answered at most once; [credit]
    counts the fulfilled calls not answered yet.  Other events may come
    between the fulfilment and its completion. *)
Fixpoint completions_are_answers (credit : nat) (tr : list Event) : bool :=
  match tr with
  | [] => true
  | e :: tr =>
      if quit_fulfilled e then completions_are_answers (S credit) tr
      else if completion e then
        match credit with
        | 0 => false
        | S credit => completions_are_answers credit tr
        end
      else completions_are_answers credit tr
  end.

(** What the continuation of a [quit] or an [abort] does: on fulfilment
    it calls the callback, if any, or emits ['finished']; on rejection
    nothing but the unhandled rejection. *)
Definition shutdown_k (k : Settled unit -> Prog unit) : Prop :=
  (exists evs,
      run (k (Fulfilled tt)) = (evs, no_tasks)
      /\ (evs = [Did (Emit "finished")] \/ exists callback, evs = callback_effects callback))
  /\ forall reason, run (k (Rejected reason)) = ([UnhandledRejection reason], no_tasks).

(** What a listener of [name] does when called. *)
Definition polite (stream : Stream) : Prop :=
  forall name l arg,
    In l (listeners_of stream name) ->
    forallb neutral (fst (run (l arg))) = true
    /\ control_calls (fst (run (l arg)))
       = (if String.eqb name "finish" then [EQuit "WAIT"] else [])
    /\ completions_follow_quit false (fst (run (l arg))) = true
    /\ reads (snd (run (l arg))) = []
    /\ writes (snd (run (l arg))) = []
    /\ Forall shutdown_k (quits (snd (run (l arg)))).

(** A second invariant of the machine. *)
Record Inv2 (s : State) : Prop := {
  i2_quits : Forall shutdown_k (quits (tasks s));
  i2_polite : polite (self s);
  i2_ended : reads (tasks s) <> [] -> ended (node s) = false;
  i2_readable : reads (tasks s) <> [] -> class_read (self s) <> None
}.

(** What the step [i] from [s] to [s'] adds to the trace: the calls it
    asks for, completions only after a fulfilled [quit], and writes only on
    a stream that has a writable side. *)
Definition adds (s : State) (i : Input) (s' : State) : Prop :=
  exists evs,
    trace s' = trace s ++ evs
    /\ control_calls evs = requested (self s) i
    /\ completions_follow_quit false evs = true
    /\ (write_calls evs <> [] -> class_write (self s) <> None).

(** The sizes pulled, in order. *)
Definition pulled (inputs : list Input) : list N :=
  flat_map (fun i => match i with Pull size => [size] | _ => [] end) inputs.

(** A duplex stream with its defaults, and sample options with marks. *)
Definition sample_duplex : Stream :=
  {| base := BaseDuplex (AudioDuplexStream.super_options no_options no_options);
     audioIOAddon := 1; listeners := [] |}.

Definition marked_options (mark : float) : AudioOptions :=
  {| deviceId := None; sampleRate := None; channelCount := None;
     sampleFormat := None; maxQueue := None; framesPerBuffer := None;
     highwaterMark := Some mark; closeOnError := None |}.

Definition empty_result : AudioIOResult :=
  {| err := None; finished := None; buf := None |}.

Definition finished_with_data : AudioIOResult :=
  {| err := None; finished := Some true; buf := Some chunk1 |}.

Definition undefined_input : Options :=
  {| inOptions := Undefined; outOptions := Defined lenient_options |}.

(** The stream [AudioIO] makes for playback. *)
Definition factory_playback : Stream :=
  match snd (AudioIO sample_bindings playback) with
  | Returned stream => stream
  | Threw _ => sample_writable
  end.

(** ** Selection by presence, as specified *)

(** The factory returns the stream variant named by the configurations
    that are present, and fails when neither is. *)
Definition selects_by_presence (portAudioBindings : Bindings) (options : Options) : Prop :=
  match get (inOptions options), get (outOptions options) with
  | Some _, Some _ =>
      exists stream,
        snd (AudioIO portAudioBindings options) = Returned stream
        /\ variant stream = VDuplex
  | Some _, None =>
      exists stream,
        snd (AudioIO portAudioBindings options) = Returned stream
        /\ variant stream = VReadable
  | None, Some _ =>
      exists stream,
        snd (AudioIO portAudioBindings options) = Returned stream
        /\ variant stream = VWritable
  | None, None => exists v, snd (AudioIO portAudioBindings options) = Threw v
  end.

(** The mark a constructor hands to its base class. *)
Definition mark_of (options : AudioOptions) : float :=
  or_default (highwaterMark options) 16384.

(** Capture with a high-water mark of [-1]. *)
Definition refused_capture : Options :=
  {| inOptions := Defined (marked_options (-1)); outOptions := Absent |}.

(** * Proofs *)

(** ** What the constructors and the factory build *)

Lemma constructed_readable a o stream :
  AudioReadableStream.constructor a o = Returned stream ->
  valid_highWaterMark (or_default (highwaterMark o) 16384) = true
  /\ stream = {| base := BaseReadable (AudioReadableStream.super_options o);
                 audioIOAddon := a; listeners := [] |}.
Proof.
  unfold AudioReadableStream.constructor, Readable_super, construct. simpl.
  destruct (valid_highWaterMark _); intros H; inversion H. auto.
Qed.

Lemma constructed_writable a o stream :
  AudioWritableStream.constructor a o = Returned stream ->
  valid_highWaterMark (or_default (highwaterMark o) 16384) = true
  /\ stream = {| base := BaseWritable (AudioWritableStream.super_options o);
                 audioIOAddon := a; listeners := [] |}.
Proof.
  unfold AudioWritableStream.constructor, Writable_super, construct. simpl.
  destruct (valid_highWaterMark _); intros H; inversion H. auto.
Qed.

Lemma constructed_duplex a i o stream :
  AudioDuplexStream.constructor a i o = Returned stream ->
  valid_highWaterMark (or_default (highwaterMark i) 16384) = true
  /\ valid_highWaterMark (or_default (highwaterMark o) 16384) = true
  /\ stream = {| base := BaseDuplex (AudioDuplexStream.super_options i o);
                 audioIOAddon := a; listeners := [] |}.
Proof.
  unfold AudioDuplexStream.constructor, Duplex_super, construct. simpl.
  destruct (valid_highWaterMark (or_default (highwaterMark i) 16384));
    [|intros H; inversion H].
  destruct (valid_highWaterMark (or_default (highwaterMark o) 16384));
    intros H; inversion H. auto.
Qed.

(** A stream the factory returns: the stream of a constructor with the
    listeners of its variant. *)
Lemma AudioIO_returned b options stream :
  snd (AudioIO b options) = Returned stream ->
  exists a,
    create b options = Returned a
    /\ ((exists i o stream0,
           get (inOptions options) = Some i /\ get (outOptions options) = Some o
           /\ AudioDuplexStream.constructor a i o = Returned stream0
           /\ stream = on (on (on stream0 "close" (fun _ => perform (Emit "closed")))
                           "finish" (fun _ => AudioDuplexStream.quit None ;;
                                              perform (Emit "finished")))
                       "error" (fun err => perform (ConsoleError err)))
        \/ (exists i stream0,
              get (inOptions options) = Some i /\ get (outOptions options) = None
              /\ AudioReadableStream.constructor a i = Returned stream0
              /\ stream = on (on stream0 "close" (fun _ => perform (Emit "closed")))
                          "error" (fun err => perform (ConsoleError err)))
        \/ (exists o stream0,
              get (inOptions options) = None /\ get (outOptions options) = Some o
              /\ AudioWritableStream.constructor a o = Returned stream0
              /\ stream = on (on (on stream0 "close" (fun _ => perform (Emit "closed")))
                              "finish" (fun _ => AudioWritableStream.quit None ;;
                                                 perform (Emit "finished")))
                          "error" (fun err => perform (ConsoleError err)))).
Proof.
  unfold AudioIO. cbn [snd].
  destruct (create b options) as [a|v]; [|discriminate].
  intros H. exists a. split; [reflexivity|].
  destruct options as [[| |i] [| |o]]; cbn [inOptions outOptions get has_key is_defined andb] in *;
    try discriminate.
  - right. right. destruct (AudioWritableStream.constructor a o) as [s0|v] eqn:E;
      [|discriminate]. inversion H. exists o, s0. auto.
  - right. right. destruct (AudioWritableStream.constructor a o) as [s0|v] eqn:E;
      [|discriminate]. inversion H. exists o, s0. auto.
  - right. left. destruct (AudioReadableStream.constructor a i) as [s0|v] eqn:E;
      [|discriminate]. inversion H. exists i, s0. auto.
  - right. left. destruct (AudioReadableStream.constructor a i) as [s0|v] eqn:E;
      [|discriminate]. inversion H. exists i, s0. auto.
  - left. destruct (AudioDuplexStream.constructor a i o) as [s0|v] eqn:E;
      [|discriminate]. inversion H. exists i, o, s0. auto.
Qed.

Lemma made_listeners stream :
  made stream ->
  listeners stream = []
  \/ listeners stream
     = [("close", fun _ => perform (Emit "closed"));
        ("finish", fun _ => AudioDuplexStream.quit None ;; perform (Emit "finished"));
        ("error", fun err => perform (ConsoleError err))]
  \/ listeners stream
     = [("close", fun _ => perform (Emit "closed"));
        ("error", fun err => perform (ConsoleError err))]
  \/ listeners stream
     = [("close", fun _ => perform (Emit "closed"));
        ("finish", fun _ => AudioWritableStream.quit None ;; perform (Emit "finished"));
        ("error", fun err => perform (ConsoleError err))].
Proof.
  intros M. destruct M as [a o stream E|a o stream E|a i o stream E|b options stream H].
  - apply constructed_readable in E. destruct E as [_ ->]. left. reflexivity.
  - apply constructed_writable in E. destruct E as [_ ->]. left. reflexivity.
  - apply constructed_duplex in E. destruct E as (_ & _ & ->). left. reflexivity.
  - destruct (AudioIO_returned _ _ H)
      as (a & _ & [(i & o & s0 & _ & _ & E & ->)|[(i & s0 & _ & _ & E & ->)
                                                 |(o & s0 & _ & _ & E & ->)]]).
    + apply constructed_duplex in E. destruct E as (_ & _ & ->). right. left. reflexivity.
    + apply constructed_readable in E. destruct E as [_ ->]. right. right. left. reflexivity.
    + apply constructed_writable in E. destruct E as [_ ->]. right. right. right. reflexivity.
Qed.

(** ** Observations distribute over concatenation *)

Lemma read_calls_app a b : read_calls (a ++ b) = read_calls a ++ read_calls b.
Proof. apply flat_map_app. Qed.

Lemma read_results_app a b : read_results (a ++ b) = read_results a ++ read_results b.
Proof. apply flat_map_app. Qed.

Lemma write_calls_app a b : write_calls (a ++ b) = write_calls a ++ write_calls b.
Proof. apply flat_map_app. Qed.

Lemma quit_calls_app a b : quit_calls (a ++ b) = quit_calls a ++ quit_calls b.
Proof. apply flat_map_app. Qed.

Lemma pushes_app a b : pushes (a ++ b) = pushes a ++ pushes b.
Proof. apply flat_map_app. Qed.

Lemma protocol_app a b : protocol (a ++ b) = fold_left protocol_step b (protocol a).
Proof. apply fold_left_app. Qed.

(** ** Neutral events leave both sides alone *)

Lemma flat_map_vanish {A B} (P : A -> bool) (f : A -> list B) (l : list A) :
  (forall a, P a = true -> f a = []) ->
  forallb P l = true -> flat_map f l = [].
Proof.
  intros Hf. induction l as [|a l IH]; simpl; [reflexivity|].
  intros H. apply andb_prop in H. destruct H as [Ha Hl].
  rewrite (Hf a Ha), (IH Hl). reflexivity.
Qed.

Ltac by_event e :=
  destruct e as [[[]| | | | | | |]| | | |]; try discriminate; reflexivity.

Section Neutral.
Variable evs : list Event.
Hypothesis Hn : forallb neutral evs = true.

Lemma neutral_read_calls : read_calls evs = [].
Proof. apply (flat_map_vanish neutral); [intros e; by_event e | exact Hn]. Qed.

Lemma neutral_read_results : read_results evs = [].
Proof. apply (flat_map_vanish neutral); [intros e; by_event e | exact Hn]. Qed.

Lemma neutral_write_calls : write_calls evs = [].
Proof. apply (flat_map_vanish neutral); [intros e; by_event e | exact Hn]. Qed.

Lemma neutral_pushes : pushes evs = [].
Proof. apply (flat_map_vanish neutral); [intros e; by_event e | exact Hn]. Qed.

Lemma neutral_node n : fold_left node_event evs n = n.
Proof.
  revert n. induction evs as [|e l IH]; intro n; [reflexivity|].
  simpl in Hn. apply andb_prop in Hn. destruct Hn as [He Hl].
  simpl. rewrite (IH Hl). by_event e.
Qed.

Lemma neutral_protocol ph : fold_left protocol_step evs ph = ph.
Proof.
  revert ph. induction evs as [|e l IH]; intro ph; [reflexivity|].
  simpl in Hn. apply andb_prop in Hn. destruct Hn as [He Hl].
  simpl. rewrite (IH Hl).
  destruct ph as [[n|n|n o]|]; by_event e.
Qed.

End Neutral.

(** ** The methods, run *)

Lemma doRead_continues (k : Settled AudioIOResult -> Prog unit) :
  k = (fun o =>
         try (result <- settle o ;;
              match err result with
              | Some e => perform (Destroy e)
              | None => if is_true (finished result)
                        then perform PushNull
                        else perform (Push (buf result))
              end)
         catch (fun error => perform (Destroy (toError error)))) ->
  forall o, run (k o) = (read_effects o, no_tasks).
Proof.
  intros -> [[[e|] [[]|] b]|reason]; reflexivity.
Qed.

Lemma doWrite_continues cb (k : Settled (option Error) -> Prog unit) :
  k = (fun o =>
         try (error <- settle o ;; perform (WriteCallback cb error))
         catch (fun error => perform (WriteCallback cb (Some (toError error))))) ->
  forall o, run (k o) = (write_effects cb o, no_tasks).
Proof.
  intros -> [e|reason]; reflexivity.
Qed.

Lemma run_read stream _read size :
  class_read stream = Some _read ->
  exists k,
    run (_read size)
    = ([Did (Engine (ERead size))], {| reads := [k]; writes := []; quits := [] |})
    /\ forall o, run (k o) = (read_effects o, no_tasks).
Proof.
  unfold class_read. destruct (base stream); intros H; inversion H; subst;
    eexists; (split; [reflexivity | apply doRead_continues; reflexivity]).
Qed.

Lemma run_write stream _write chunk encoding cb :
  class_write stream = Some _write ->
  exists k,
    run (_write chunk encoding cb)
    = ([Did (Engine (EWrite chunk))], {| reads := []; writes := [k]; quits := [] |})
    /\ forall o, run (k o) = (write_effects cb o, no_tasks).
Proof.
  unfold class_write. destruct (base stream); intros H; inversion H; subst;
    eexists; (split; [reflexivity | apply doWrite_continues; reflexivity]).
Qed.

(** [quit] and [abort]: the engine's [quit] is called at once; the
    callback follows when it is fulfilled. *)
Lemma run_quit stream callback :
  exists k,
    run (class_quit stream callback)
    = ([Did (Engine (EQuit "WAIT"))], {| reads := []; writes := []; quits := [k] |})
    /\ run (k (Fulfilled tt)) = (callback_effects callback, no_tasks)
    /\ forall reason, run (k (Rejected reason)) = ([UnhandledRejection reason], no_tasks).
Proof.
  unfold class_quit.
  destruct (base stream); eexists; (split; [reflexivity|]);
    (split; [destruct callback; reflexivity | reflexivity]).
Qed.

Lemma run_abort stream callback :
  exists k,
    run (class_abort stream callback)
    = ([Did (Engine (EQuit "ABORT"))], {| reads := []; writes := []; quits := [k] |})
    /\ run (k (Fulfilled tt)) = (callback_effects callback, no_tasks)
    /\ forall reason, run (k (Rejected reason)) = ([UnhandledRejection reason], no_tasks).
Proof.
  unfold class_abort.
  destruct (base stream); eexists; (split; [reflexivity|]);
    (split; [destruct callback; reflexivity | reflexivity]).
Qed.

Lemma quiet_from_runs (k : Settled unit -> Prog unit) evs :
  run (k (Fulfilled tt)) = (evs, no_tasks) ->
  forallb neutral evs = true ->
  (forall reason, run (k (Rejected reason)) = ([UnhandledRejection reason], no_tasks)) ->
  forall o, quiet (k o).
Proof.
  intros H1 Hn H2 [[]|reason]; unfold quiet.
  - rewrite H1. split; [exact Hn | reflexivity].
  - rewrite H2. split; reflexivity.
Qed.

Lemma tame_start stream : tame (class_start stream).
Proof.
  unfold class_start, tame. destruct (base stream); simpl; repeat split; constructor.
Qed.

Lemma tame_quit stream callback : tame (class_quit stream callback).
Proof.
  destruct (run_quit stream callback) as (k & Hr & H1 & H2).
  unfold tame. rewrite Hr. simpl. repeat split.
  constructor; [|constructor].
  eapply quiet_from_runs; eauto. destruct callback; reflexivity.
Qed.

Lemma tame_abort stream callback : tame (class_abort stream callback).
Proof.
  destruct (run_abort stream callback) as (k & Hr & H1 & H2).
  unfold tame. rewrite Hr. simpl. repeat split.
  constructor; [|constructor].
  eapply quiet_from_runs; eauto. destruct callback; reflexivity.
Qed.

Lemma quiet_tame p : quiet p -> tame p.
Proof.
  intros [H1 H2]. unfold tame. rewrite H2. simpl. repeat split; auto.
Qed.

(** ** The streams the factory makes *)

Lemma listeners_of_In stream name l :
  In l (listeners_of stream name) -> In l (map snd (listeners stream)).
Proof.
  unfold listeners_of. intros H. apply in_map_iff in H.
  destruct H as (x & Hx & Hin). apply filter_In in Hin.
  apply in_map_iff. exists x. tauto.
Qed.

Ltac tame_by_run :=
  unfold tame; simpl; repeat split;
  repeat (constructor;
          try (intros [[]|?]; unfold quiet; simpl; split; reflexivity)).

Lemma made_wired stream : made stream -> wired stream.
Proof.
  intros H name l arg Hin. apply listeners_of_In in Hin.
  destruct (made_listeners H) as [L|[L|[L|L]]]; rewrite L in Hin;
    simpl in Hin; intuition (subst; tame_by_run).
Qed.

(** ** Effects on the base class *)

Lemma same_flow_refl n : same_flow n n.
Proof. unfold same_flow; tauto. Qed.

Lemma same_flow_emitted name n : same_flow n (set_emitted name n).
Proof. unfold same_flow; simpl; tauto. Qed.

Lemma same_flow_ending n : same_flow n (set_ending n).
Proof. unfold same_flow; simpl; tauto. Qed.

Lemma gentle_refl n : gentle n n.
Proof. constructor; auto. Qed.

Lemma gentle_trans a b c : gentle a b -> gentle b c -> gentle a c.
Proof.
  intros [] []. constructor; try congruence; auto.
  - intros H. rewrite g_buffered1 by auto. apply g_buffered0.
    destruct (destroyed b) eqn:E; auto. rewrite g_destroyed1 in H; auto.
  - destruct g_queue1 as [H|H]; [left; exact H|]. rewrite H. exact g_queue0.
Qed.

Lemma gentle_destroy e n : gentle n (destroy e n).
Proof.
  unfold destroy. destruct (destroyed n) eqn:E; constructor; simpl; auto; congruence.
Qed.

Lemma destroyed_destroy e n : destroyed (destroy e n) = true.
Proof. unfold destroy. destruct (destroyed n) eqn:E; auto. Qed.

Lemma reading_destroy e n : reading (destroy e n) = reading n.
Proof. unfold destroy. destruct (destroyed n); auto. Qed.

Lemma gentle_push chunk n : gentle n (node_push chunk n).
Proof.
  unfold node_push. destruct chunk as [[|b bs]|];
    try (constructor; simpl; auto; fail).
  destruct (ended n); [apply gentle_destroy|].
  destruct (destroyed n); [apply gentle_refl|].
  constructor; simpl; auto.
Qed.

Lemma gentle_read_effects o n : gentle n (fold_left node_event (read_effects o) n).
Proof.
  destruct o as [[[e|] f b]|reason]; simpl.
  - apply gentle_destroy.
  - destruct (is_true f); simpl.
    + constructor; simpl; auto.
    + apply gentle_push.
  - apply gentle_destroy.
Qed.

Lemma stopped_read_effects o n :
  carries_buffer o = false ->
  ended (fold_left node_event (read_effects o) n)
  || destroyed (fold_left node_event (read_effects o) n) = true.
Proof.
  destruct o as [[[e|] f b]|reason]; simpl; intros H.
  - rewrite destroyed_destroy. apply orb_true_r.
  - destruct (is_true f); [reflexivity | discriminate].
  - rewrite destroyed_destroy. apply orb_true_r.
Qed.

Lemma gentle_stopped n n' :
  gentle n n' -> ended n || destroyed n = true -> ended n' || destroyed n' = true.
Proof.
  intros G H. apply orb_prop in H. destruct H as [H|H].
  - rewrite (g_ended G H). reflexivity.
  - rewrite (g_destroyed G H). apply orb_true_r.
Qed.

Lemma read_effects_read_calls o : read_calls (read_effects o) = [].
Proof. destruct o as [[[e|] f b]|reason]; simpl; try destruct (is_true f); reflexivity. Qed.

Lemma read_effects_read_results o : read_results (read_effects o) = [].
Proof. destruct o as [[[e|] f b]|reason]; simpl; try destruct (is_true f); reflexivity. Qed.

Lemma read_effects_write_calls o : write_calls (read_effects o) = [].
Proof. destruct o as [[[e|] f b]|reason]; simpl; try destruct (is_true f); reflexivity. Qed.

Lemma read_effects_protocol o ph : fold_left protocol_step (read_effects o) ph = ph.
Proof.
  destruct o as [[[e|] f b]|reason]; simpl; try destruct (is_true f);
    destruct ph as [[]|]; reflexivity.
Qed.

Lemma Error_eqb_refl e : Error_eqb e e = true.
Proof. apply String.eqb_refl. Qed.

Lemma option_eqb_refl e : option_eqb Error_eqb e e = true.
Proof. destruct e; simpl; auto using Error_eqb_refl. Qed.

(** The write callback clears [writing]; with an error it destroys. *)
Lemma write_effects_node cb o n :
  let n' := fold_left node_event (write_effects cb o) n in
  writing n' = false /\ reading n' = reading n /\ ended n' = ended n
  /\ calls n' = calls n /\ accepted n' = accepted n
  /\ (destroyed n = true -> destroyed n' = true)
  /\ (destroyed n' = false -> buffered n' = buffered n)
  /\ (buffered n' = [] \/ buffered n' = buffered n)
  /\ (error_of o <> None -> destroyed n' = true).
Proof.
  simpl. destruct (error_of o) as [e|]; simpl.
  - unfold destroy; simpl. destruct (destroyed n) eqn:E; simpl; repeat split; auto; congruence.
  - repeat split; auto; congruence.
Qed.

(** ** Forall and the removal of a task *)

Lemma Forall_remove_nth {A} (P : A -> Prop) i (l : list A) :
  Forall P l -> Forall P (remove_nth i l).
Proof.
  intros H. revert i. induction H; intros [|i]; simpl; auto.
Qed.

Lemma single_nth {A} (l : list A) i k :
  List.length l <= 1 -> nth_error l i = Some k -> l = [k] /\ i = 0.
Proof.
  destruct l as [|a [|b l]]; simpl; intros H E.
  - destruct i; discriminate.
  - destruct i as [|[|i]]; simpl in E; try discriminate. inversion E. auto.
  - lia.
Qed.

(** ** The invariant holds initially and is kept by every step *)

Lemma Inv_init stream : made stream -> Inv (init stream).
Proof.
  intros M. constructor; simpl; auto.
  - exists []. auto.
  - apply made_wired, M.
Qed.

Lemma not_destroyed_before n n' :
  (destroyed n = true -> destroyed n' = true) ->
  destroyed n' = false -> destroyed n = false.
Proof. destruct (destroyed n); auto. intros H E. rewrite H in E; auto. Qed.

(** A step that only adds neutral events and quiet [quit] tasks. *)
Lemma Inv_frame s s' evs :
  Inv s -> self s' = self s -> same_flow (node s) (node s') ->
  reads (tasks s') = reads (tasks s) ->
  writes (tasks s') = writes (tasks s) ->
  Forall (fun k => forall o, quiet (k o)) (quits (tasks s')) ->
  trace s' = trace s ++ evs -> forallb neutral evs = true ->
  Inv s'.
Proof.
  intros I Hs (F1 & F2 & F3 & F4 & F5 & F6 & F7) Hr Hw Hq Ht Hn.
  destruct I as [Hrk Hro Hrd Hrc Hpu Hst Hbu Hwr Hor Hwa Hqu Hwi].
  constructor;
    rewrite ?Hs, ?Hr, ?Hw, ?Ht, ?F1, ?F2, ?F3, ?F4, ?F5, ?F6, ?F7,
      ?read_calls_app, ?read_results_app, ?write_calls_app, ?pushes_app,
      ?protocol_app, ?(@neutral_read_calls _ Hn), ?(@neutral_read_results _ Hn),
      ?(@neutral_write_calls _ Hn), ?(@neutral_pushes _ Hn), ?(@neutral_protocol _ Hn),
      ?app_nil_r; auto.
Qed.

Lemma Inv_exec_tame p s : Inv s -> tame p -> Inv (exec p s).
Proof.
  intros I (Hn & Hr & Hw & Hq).
  apply Inv_frame with (s := s) (evs := fst (run p)); auto; unfold exec; simpl.
  - rewrite (@neutral_node _ Hn). apply same_flow_refl.
  - rewrite Hr. apply app_nil_r.
  - rewrite Hw. apply app_nil_r.
  - apply Forall_app. split; [apply (inv_quits I) | exact Hq].
Qed.

Lemma Inv_with_node f s :
  Inv s -> same_flow (node s) (f (node s)) -> Inv (with_node f s).
Proof.
  intros I F.
  apply Inv_frame with (s := s) (evs := []); auto; simpl.
  - apply (inv_quits I).
  - symmetry. apply app_nil_r.
Qed.

Lemma self_exec p s : self (exec p s) = self s.
Proof. reflexivity. Qed.

Lemma Inv_emit name arg s : Inv s -> Inv (emit name arg s).
Proof.
  intros I. unfold emit.
  assert (I0 : Inv (with_node (set_emitted name) s))
    by (apply Inv_with_node; [exact I | apply same_flow_emitted]).
  assert (W : forall l, In l (listeners_of (self s) name) -> tame (l arg))
    by (intros l Hl; apply (inv_wired I name l arg Hl)).
  revert W I0. generalize (with_node (set_emitted name) s).
  induction (listeners_of (self s) name) as [|l ls IH]; intros s0 W I0; simpl; auto.
  apply IH.
  - intros l' Hl'. apply W. right. exact Hl'.
  - apply Inv_exec_tame; [exact I0 | apply W; left; reflexivity].
Qed.

(** [destroy], by the application, by [autoDestroy] or after a late write. *)
Lemma Inv_gentle s s' :
  Inv s -> self s' = self s -> tasks s' = tasks s -> trace s' = trace s ->
  gentle (node s) (node s') -> reading (node s') = reading (node s) ->
  Inv s'.
Proof.
  intros I Hs Hk Ht G Hr. destruct I as [Hrk Hro Hrd Hrc Hpu Hst Hbu Hwr Hor Hwa Hqu Hwi].
  constructor; rewrite ?Hs, ?Hk, ?Ht, ?Hr, ?(g_writing G), ?(g_calls G), ?(g_accepted G); auto.
  - intros H. destruct (Hst H) as [H1 H2]. split; auto.
    eapply gentle_stopped; eauto.
  - destruct Hor as (rest & H1 & H2). exists rest. split; auto.
    intros H. rewrite (g_buffered G H). apply H2.
    eapply not_destroyed_before; [apply (g_destroyed G) | exact H].
  - destruct (g_queue G) as [H|H]; rewrite H; [congruence | exact Hwa].
Qed.

Lemma Inv_destroy e s : Inv s -> Inv (with_node (destroy e) s).
Proof.
  intros I. apply Inv_gentle with (s := s); auto; simpl.
  - apply gentle_destroy.
  - apply reading_destroy.
Qed.

(** [write(chunk)] while a chunk is on its way. *)
Lemma Inv_enqueue chunk s :
  Inv s -> destroyed (node s) = false -> class_write (self s) <> None ->
  Inv (with_node (enqueue chunk) s).
Proof.
  intros I D C. destruct I as [Hrk Hro Hrd Hrc Hpu Hst Hbu Hwr Hor Hwa Hqu Hwi]. constructor; simpl; auto.
  destruct Hor as (rest & H1 & H2).
  exists (rest ++ [chunk]). rewrite H1, app_assoc. split; auto.
  intros _. rewrite (H2 D). reflexivity.
Qed.

(** [_write] is called: at once, or for the next waiting chunk. *)
Lemma Inv_call_write s _write chunk rest f :
  Inv s -> class_write (self s) = Some _write ->
  destroyed (node s) = false -> writing (node s) = false ->
  reading (f (node s)) = reading (node s) -> ended (f (node s)) = ended (node s) ->
  destroyed (f (node s)) = false -> writing (f (node s)) = true ->
  calls (f (node s)) = S (calls (node s)) ->
  accepted (f (node s)) = write_calls (trace s) ++ chunk :: rest ->
  buffered (f (node s)) = rest ->
  Inv (exec (_write chunk "buffer" (calls (node s))) (with_node f s)).
Proof.
  intros I C D W F1 F2 F3 F4 F5 F6 F7.
  destruct (run_write (self s) chunk "buffer" (calls (node s)) C) as (k & Hr & Hk).
  destruct I as [Hrk Hro Hrd Hrc Hpu Hst Hbu Hwr Hor Hwa Hqu Hwi]. unfold exec. rewrite Hr. simpl.
  destruct Hwr as [(W1 & _ & P)|(k0 & cb & _ & W' & _)]; [|congruence].
  constructor; simpl;
    rewrite ?app_nil_r, ?read_calls_app, ?read_results_app, ?write_calls_app,
      ?pushes_app, ?protocol_app, ?F1, ?F2, ?F3, ?F4, ?F5, ?W1; simpl;
    rewrite ?app_nil_r; auto.
  - intros H. destruct (Hst H) as [H1 H2]. rewrite D in H2. auto.
  - right. exists k, (calls (node s)). repeat split; auto.
    rewrite P. reflexivity.
  - exists rest. rewrite F6, <- app_assoc. simpl. split; auto.
  - intros _. rewrite C. discriminate.
Qed.

(** [_read] is called. *)
Lemma Inv_pull s _read size :
  Inv s -> class_read (self s) = Some _read ->
  reading (node s) = false -> ended (node s) = false -> destroyed (node s) = false ->
  Inv (exec (_read size) (with_node (set_reading true) s)).
Proof.
  intros I C R E D.
  destruct (run_read (self s) size C) as (k & Hr & Hk).
  assert (N : reads (tasks s) = []).
  { destruct (reads (tasks s)) eqn:X; auto.
    rewrite (inv_reading I) in R; [discriminate | rewrite X; discriminate]. }
  assert (B : forallb carries_buffer (read_results (trace s)) = true).
  { destruct (forallb carries_buffer (read_results (trace s))) eqn:X; auto.
    destruct (inv_stopped I X) as [_ H]. rewrite E, D in H. discriminate. }
  destruct I as [Hrk Hro Hrd Hrc Hpu Hst Hbu Hwr Hor Hwa Hqu Hwi]. unfold exec. rewrite Hr. simpl.
  constructor; simpl;
    rewrite ?app_nil_r, ?read_calls_app, ?read_results_app, ?write_calls_app,
      ?pushes_app, ?protocol_app, ?N; simpl; rewrite ?app_nil_r; auto.
  - rewrite length_app. rewrite N in Hrc. simpl in *. lia.
  - rewrite B. discriminate.
  - destruct Hwr as [(H1 & H2 & H3)|(k0 & cb & H1 & H2 & H3 & H4 & H5)].
    + left. rewrite H3. auto.
    + right. exists k0, cb. rewrite H5. auto.
Qed.

(** The engine settles the outstanding read. *)
Lemma Inv_settle_read s i k o :
  Inv s -> nth_error (reads (tasks s)) i = Some k ->
  Inv (exec (k o)
         (settled (ReadSettled o)
            {| reads := remove_nth i (reads (tasks s));
               writes := writes (tasks s);
               quits := quits (tasks s) |} s)).
Proof.
  intros I E.
  destruct (single_nth _ _ (inv_reads_one I) E) as [L ->].
  assert (Hk : forall o, run (k o) = (read_effects o, no_tasks)).
  { pose proof (inv_reads_k I) as H. rewrite L in H. inversion H; auto. }
  assert (B : forallb carries_buffer (read_results (trace s)) = true).
  { destruct (forallb carries_buffer (read_results (trace s))) eqn:X; auto.
    destruct (inv_stopped I X) as [H _]. rewrite L in H. discriminate. }
  pose proof (gentle_read_effects o (node s)) as G.
  destruct I as [Hrk Hro Hrd Hrc Hpu Hst Hbu Hwr Hor Hwa Hqu Hwi]. unfold exec. rewrite Hk, L. simpl.
  constructor; simpl;
    rewrite ?app_nil_r, ?read_calls_app, ?read_results_app, ?write_calls_app,
      ?pushes_app, ?protocol_app, ?read_effects_read_calls,
      ?read_effects_read_results, ?read_effects_write_calls,
      ?read_effects_protocol, ?(g_writing G), ?(g_calls G), ?(g_accepted G);
    simpl; rewrite ?app_nil_r; auto.
  - rewrite L in Hrc. simpl in Hrc.
    rewrite length_app. simpl. lia.
  - rewrite flat_map_app. simpl. rewrite app_nil_r, Hpu. reflexivity.
  - rewrite forallb_app, B. simpl. rewrite andb_true_r. intros H. split; auto.
    apply stopped_read_effects, H.
  - rewrite removelast_last. exact B.
  - destruct Hwr as [(H1 & H2 & H3)|(k0 & cb & H1 & H2 & H3 & H4 & H5)].
    + left. rewrite H3. auto.
    + right. exists k0, cb. rewrite H5. auto.
  - destruct Hor as (rest & H1 & H2). exists rest. split; auto.
    intros H. rewrite (g_buffered G H). apply H2.
    eapply not_destroyed_before; [apply (g_destroyed G) | exact H].
  - destruct (g_queue G) as [H|H]; rewrite H; [congruence | exact Hwa].
Qed.

(** The engine settles the outstanding write. *)
Lemma Inv_settle_write s i k o :
  Inv s -> nth_error (writes (tasks s)) i = Some k ->
  Inv (exec (k o)
         (settled (WriteSettled o)
            {| reads := reads (tasks s);
               writes := remove_nth i (writes (tasks s));
               quits := quits (tasks s) |} s)).
Proof.
  intros I E.
  destruct (inv_writes I) as [(H1 & _)|(k0 & cb & H1 & H2 & H3 & H4 & H5)].
  { rewrite H1 in E. destruct i; discriminate. }
  rewrite H1 in E. destruct i as [|[|i]]; try discriminate.
  simpl in E. inversion E; subst k0; clear E.
  pose proof (write_effects_node cb o (node s)) as N. cbv zeta in N.
  remember (fold_left node_event (write_effects cb o) (node s)) as n' eqn:En.
  destruct N as (N1 & N2 & N3 & N4 & N5 & N6 & N7 & N8 & _).
  destruct I as [Hrk Hro Hrd Hrc Hpu Hst Hbu Hwr Hor Hwa Hqu Hwi]. unfold exec, settled. rewrite H4, H1. cbn [fst snd node self tasks trace]. rewrite <- En.
  unfold write_effects.
  constructor; cbn [tasks trace node self reads writes quits settled join no_tasks remove_nth];
    rewrite ?app_nil_r, ?read_calls_app, ?read_results_app, ?write_calls_app,
      ?pushes_app, ?protocol_app, ?N1, ?N2, ?N3, ?N4, ?N5; simpl;
    rewrite ?app_nil_r; auto.
  - intros H. destruct (Hst H) as [X Y]. split; auto.
    apply orb_prop in Y. destruct Y as [Y|Y]; [rewrite Y; reflexivity|].
    rewrite (N6 Y). apply orb_true_r.
  - left. repeat split; auto. rewrite H5. simpl.
    rewrite Nat.eqb_refl, option_eqb_refl, H3. reflexivity.
  - destruct Hor as (rest & R1 & R2). exists rest. split; auto.
    intros H. rewrite (N7 H). apply R2.
    eapply not_destroyed_before; [exact N6 | exact H].
  - destruct N8 as [H|H]; rewrite H; [congruence | exact Hwa].
Qed.

(** The engine settles a [quit]. *)
Lemma Inv_settle_quit s i k o :
  Inv s -> nth_error (quits (tasks s)) i = Some k ->
  Inv (exec (k o)
         (settled (QuitSettled o)
            {| reads := reads (tasks s);
               writes := writes (tasks s);
               quits := remove_nth i (quits (tasks s)) |} s)).
Proof.
  intros I E.
  assert (Q : quiet (k o)).
  { pose proof (inv_quits I) as H. rewrite Forall_forall in H.
    apply H. eapply nth_error_In, E. }
  apply Inv_exec_tame; [|apply quiet_tame, Q].
  apply Inv_frame with (s := s) (evs := [QuitSettled o]); auto; simpl.
  - apply same_flow_refl.
  - apply Forall_remove_nth, (inv_quits I).
Qed.

Theorem Inv_step i s s' : Inv s -> step i s = Some s' -> Inv s'.
Proof.
  intros I. unfold step.
  destruct i as [|cb|cb|chunk| |e|size| | | | |i o|i o|i o].
  - intros H; inversion H. apply Inv_exec_tame, tame_start; auto.
  - intros H; inversion H. apply Inv_exec_tame, tame_quit; auto.
  - intros H; inversion H. apply Inv_exec_tame, tame_abort; auto.
  - destruct (class_write (self s)) as [_write|] eqn:C; [|discriminate].
    destruct (ending (node s)).
    { intros H; inversion H. apply Inv_destroy, I. }
    destruct (destroyed (node s)) eqn:D.
    { intros H; inversion H; subst; exact I. }
    destruct (writing (node s)) eqn:W; simpl.
    { intros H; inversion H. apply Inv_enqueue; auto. congruence. }
    destruct (buffered (node s)) as [|b bs] eqn:B; simpl.
    + intros H; inversion H.
      apply Inv_call_write with (rest := []); auto.
      simpl. destruct (inv_order I) as (rest & R1 & R2).
      rewrite R1, (R2 D), B, app_nil_r. reflexivity.
    + intros H; inversion H. apply Inv_enqueue; auto. congruence.
  - destruct (class_write (self s)) as [_write|] eqn:C; [|discriminate].
    destruct (destroyed (node s)); intros H; inversion H; subst; auto.
    apply Inv_with_node; [exact I | apply same_flow_ending].
  - intros H; inversion H. apply Inv_destroy, I.
  - destruct (class_read (self s)) as [_read|] eqn:C; [|discriminate].
    destruct (reading (node s)) eqn:R; simpl; [discriminate|].
    destruct (ended (node s)) eqn:E; simpl; [discriminate|].
    destruct (destroyed (node s)) eqn:D; simpl; [discriminate|].
    intros H; inversion H. apply Inv_pull; auto.
  - destruct (class_write (self s)) as [_write|] eqn:C; [|discriminate].
    destruct (buffered (node s)) as [|chunk rest] eqn:B; [discriminate|].
    destruct (destroyed (node s)) eqn:D; simpl; [discriminate|].
    destruct (writing (node s)) eqn:W; simpl; [discriminate|].
    intros H; inversion H.
    apply Inv_call_write with (rest := rest); auto.
    simpl. destruct (inv_order I) as (rest' & R1 & R2).
    rewrite R1, (R2 D), B. reflexivity.
  - destruct (class_write (self s)); [|discriminate].
    match goal with |- (if ?c then _ else _) = _ -> _ => destruct c end;
      [|discriminate].
    intros H; inversion H. apply Inv_emit, I.
  - destruct (errored (node s)); [|discriminate].
    match goal with |- (if ?c then _ else _) = _ -> _ => destruct c end;
      [|discriminate].
    intros H; inversion H. apply Inv_emit, I.
  - match goal with |- (if ?c then _ else _) = _ -> _ => destruct c end;
      [|discriminate].
    intros H; inversion H. apply Inv_emit, I.
  - destruct (nth_error (reads (tasks s)) i) as [k|] eqn:E; [|discriminate].
    intros H; inversion H. apply Inv_settle_read; auto.
  - destruct (nth_error (writes (tasks s)) i) as [k|] eqn:E; [|discriminate].
    intros H; inversion H. apply Inv_settle_write; auto.
  - destruct (nth_error (quits (tasks s)) i) as [k|] eqn:E; [|discriminate].
    intros H; inversion H. apply Inv_settle_quit; auto.
Qed.

Lemma Inv_steps inputs : forall s s', Inv s -> steps inputs s = Some s' -> Inv s'.
Proof.
  induction inputs as [|i inputs IH]; simpl; intros s s' I H.
  - inversion H; subst; exact I.
  - destruct (step i s) as [s1|] eqn:E; [|discriminate].
    eapply IH; [eapply Inv_step; eauto | exact H].
Qed.

Lemma Inv_reachable s : reachable s -> Inv s.
Proof.
  intros (stream & M & inputs & H).
  eapply Inv_steps; [apply Inv_init, M | exact H].
Qed.

(** ** What a step can add to the trace *)

Lemma after_refl s : after s s.
Proof.
  split; [reflexivity|]. exists []. rewrite app_nil_r. repeat split; auto.
Qed.

Lemma stopped_mono (n n' : Node) :
  (ended n = true -> ended n' = true) ->
  (destroyed n = true -> destroyed n' = true) ->
  ended n || destroyed n = true -> ended n' || destroyed n' = true.
Proof.
  intros He Hd H. apply orb_prop in H. destruct H as [H|H].
  - rewrite (He H). reflexivity.
  - rewrite (Hd H). apply orb_true_r.
Qed.

Lemma after_trans a b c : after a b -> after b c -> after a c.
Proof.
  intros (S1 & e1 & T1 & E1 & D1 & R1 & W1 & Q1) (S2 & e2 & T2 & E2 & D2 & R2 & W2 & Q2).
  split; [congruence|]. exists (e1 ++ e2).
  rewrite T2, T1, app_assoc. split; [reflexivity|].
  split; [auto|]. split; [auto|].
  split.
  { intros H. rewrite read_calls_app, (R1 H), R2; auto.
    eapply stopped_mono; eauto. }
  split.
  { intros H. rewrite write_calls_app, (W1 H), W2; auto. }
  intros N H. destruct (Q1 N H) as (N1 & X1 & Y1).
  destruct (Q2 N1 (stopped_mono _ _ E1 D1 H)) as (N2 & X2 & Y2).
  rewrite read_results_app, pushes_app, X1, X2, Y1, Y2. auto.
Qed.

(** A step that only adds neutral events. *)
Lemma after_frame s s' evs :
  self s' = self s -> trace s' = trace s ++ evs -> forallb neutral evs = true ->
  ended (node s') = ended (node s) ->
  (destroyed (node s) = true -> destroyed (node s') = true) ->
  reads (tasks s') = reads (tasks s) ->
  after s s'.
Proof.
  intros Hs Ht Hn He Hd Hr. split; [exact Hs|]. exists evs.
  rewrite (@neutral_read_calls _ Hn), (@neutral_write_calls _ Hn),
    (@neutral_read_results _ Hn), (@neutral_pushes _ Hn), Hr.
  repeat split; auto. congruence.
Qed.

Lemma after_exec_tame p s : tame p -> after s (exec p s).
Proof.
  intros (Hn & Hr & Hw & Hq).
  apply after_frame with (evs := fst (run p)); auto; unfold exec; simpl;
    rewrite ?(@neutral_node _ Hn); auto.
  rewrite Hr. apply app_nil_r.
Qed.

Lemma after_with_node f s :
  ended (f (node s)) = ended (node s) ->
  (destroyed (node s) = true -> destroyed (f (node s)) = true) ->
  after s (with_node f s).
Proof.
  intros He Hd. apply after_frame with (evs := []); simpl; auto.
  symmetry. apply app_nil_r.
Qed.

Lemma after_emit name arg s : wired (self s) -> after s (emit name arg s).
Proof.
  intros W. unfold emit.
  assert (A0 : after s (with_node (set_emitted name) s))
    by (apply after_with_node; auto).
  assert (W0 : forall l, In l (listeners_of (self s) name) -> tame (l arg))
    by (intros l Hl; apply (W name l arg Hl)).
  revert W0 A0. generalize (with_node (set_emitted name) s).
  induction (listeners_of (self s) name) as [|l ls IH]; intros s0 W0 A0; simpl; auto.
  apply IH.
  - intros l' Hl'. apply W0. right. exact Hl'.
  - eapply after_trans; [exact A0|]. apply after_exec_tame, W0. left. reflexivity.
Qed.

Lemma ended_destroy e n : ended (destroy e n) = ended n.
Proof. unfold destroy. destruct (destroyed n); reflexivity. Qed.

Lemma read_effects_pushes_results o : read_results ([ReadSettled o] ++ read_effects o) = [o].
Proof. rewrite read_results_app, read_effects_read_results. reflexivity. Qed.

Theorem step_after i s s' : Inv s -> step i s = Some s' -> after s s'.
Proof.
  intros I. unfold step.
  destruct i as [|cb|cb|chunk| |e|size| | | | |i o|i o|i o].
  - intros H; inversion H. apply after_exec_tame, tame_start.
  - intros H; inversion H. apply after_exec_tame, tame_quit.
  - intros H; inversion H. apply after_exec_tame, tame_abort.
  - destruct (class_write (self s)) as [_write|] eqn:C; [|discriminate].
    destruct (ending (node s)).
    { intros H; inversion H. apply after_with_node;
        [apply ended_destroy | intros _; apply destroyed_destroy]. }
    destruct (destroyed (node s)) eqn:D.
    { intros H; inversion H; subst. apply after_refl. }
    destruct (writing (node s) || negb (is_empty (buffered (node s)))).
    { intros H; inversion H. apply after_with_node; auto. }
    intros H; inversion H.
    destruct (run_write (self s) chunk "buffer" (calls (node s)) C) as (k & Hr & Hk).
    split; [reflexivity|]. exists [Did (Engine (EWrite chunk))].
    unfold exec. rewrite Hr. simpl. rewrite app_nil_r.
    repeat split; auto; congruence.
  - destruct (class_write (self s)) as [_write|] eqn:C; [|discriminate].
    destruct (destroyed (node s)); intros H; inversion H; subst.
    + apply after_refl.
    + apply after_with_node; auto.
  - intros H; inversion H. apply after_with_node;
      [apply ended_destroy | intros _; apply destroyed_destroy].
  - destruct (class_read (self s)) as [_read|] eqn:C; [|discriminate].
    destruct (reading (node s)) eqn:R; simpl; [discriminate|].
    destruct (ended (node s)) eqn:E; simpl; [discriminate|].
    destruct (destroyed (node s)) eqn:D; simpl; [discriminate|].
    intros H; inversion H.
    destruct (run_read (self s) size C) as (k & Hr & Hk).
    split; [reflexivity|]. exists [Did (Engine (ERead size))].
    unfold exec. rewrite Hr. simpl.
    repeat split; auto; rewrite ?E, ?D in *; simpl in *; congruence.
  - destruct (class_write (self s)) as [_write|] eqn:C; [|discriminate].
    destruct (buffered (node s)) as [|chunk rest] eqn:B; [discriminate|].
    destruct (destroyed (node s)) eqn:D; simpl; [discriminate|].
    destruct (writing (node s)) eqn:W; simpl; [discriminate|].
    intros H; inversion H.
    destruct (run_write (self s) chunk "buffer" (calls (node s)) C) as (k & Hr & Hk).
    split; [reflexivity|]. exists [Did (Engine (EWrite chunk))].
    unfold exec. rewrite Hr. simpl. rewrite app_nil_r.
    repeat split; auto; congruence.
  - destruct (class_write (self s)); [|discriminate].
    match goal with |- (if ?c then _ else _) = _ -> _ => destruct c end;
      [|discriminate].
    intros H; inversion H. apply after_emit, (inv_wired I).
  - destruct (errored (node s)); [|discriminate].
    match goal with |- (if ?c then _ else _) = _ -> _ => destruct c end;
      [|discriminate].
    intros H; inversion H. apply after_emit, (inv_wired I).
  - match goal with |- (if ?c then _ else _) = _ -> _ => destruct c end;
      [|discriminate].
    intros H; inversion H. apply after_emit, (inv_wired I).
  - destruct (nth_error (reads (tasks s)) i) as [k|] eqn:E; [|discriminate].
    intros H; inversion H.
    destruct (single_nth _ _ (inv_reads_one I) E) as [L ->].
    assert (Hk : forall o, run (k o) = (read_effects o, no_tasks)).
    { pose proof (inv_reads_k I) as X. rewrite L in X. inversion X; auto. }
    pose proof (gentle_read_effects o (node s)) as G.
    split; [reflexivity|]. exists ([ReadSettled o] ++ read_effects o).
    unfold exec, settled. rewrite Hk. cbn [fst snd node self tasks trace].
    rewrite <- app_assoc. split; [reflexivity|].
    split; [apply (g_ended G)|]. split; [apply (g_destroyed G)|].
    rewrite read_calls_app, write_calls_app, read_effects_read_calls,
      read_effects_write_calls.
    repeat split; auto; rewrite L in *; discriminate.
  - destruct (nth_error (writes (tasks s)) i) as [k|] eqn:E; [|discriminate].
    intros H; inversion H as [H0]; clear H H0 s'.
    destruct (inv_writes I) as [(H1 & _)|(k0 & cb & H1 & H2 & H3 & H4 & H5)].
    { rewrite H1 in E. destruct i; discriminate. }
    rewrite H1 in E. destruct i as [|[|i]]; try discriminate.
    simpl in E. inversion E; subst k0; clear E.
    pose proof (write_effects_node cb o (node s)) as N. cbv zeta in N.
    remember (fold_left node_event (write_effects cb o) (node s)) as n' eqn:En.
    destruct N as (N1 & N2 & N3 & N4 & N5 & N6 & N7 & N8 & _).
    split; [reflexivity|]. exists ([WriteSettled o] ++ write_effects cb o).
    unfold exec, settled. rewrite H4. cbn [fst snd node self tasks trace].
    rewrite <- En, <- app_assoc. split; [reflexivity|].
    split; [congruence|]. split; [exact N6|].
    simpl. rewrite app_nil_r. repeat split; auto.
  - destruct (nth_error (quits (tasks s)) i) as [k|] eqn:E; [|discriminate].
    intros H; inversion H.
    assert (Q : quiet (k o)).
    { pose proof (inv_quits I) as X. rewrite Forall_forall in X.
      apply X. eapply nth_error_In, E. }
    eapply after_trans; [|apply after_exec_tame, quiet_tame, Q].
    apply after_frame with (evs := [QuitSettled o]); auto.
Qed.

Lemma steps_after inputs : forall s s', Inv s -> steps inputs s = Some s' -> after s s'.
Proof.
  induction inputs as [|i inputs IH]; simpl; intros s s' I H.
  - inversion H; subst. apply after_refl.
  - destruct (step i s) as [s1|] eqn:E; [|discriminate].
    eapply after_trans; [eapply step_after; eauto|].
    eapply IH; [eapply Inv_step; eauto | exact H].
Qed.

Lemma steps_app a b s :
  steps (a ++ b) s = match steps a s with Some s1 => steps b s1 | None => None end.
Proof.
  revert s. induction a as [|i a IH]; simpl; intros s; [reflexivity|].
  destruct (step i s); auto.
Qed.

Lemma reachable_from_reachable s s' : reachable s -> reachable_from s s' -> reachable s'.
Proof.
  intros (stream & M & i1 & H1) (i2 & H2).
  exists stream. split; [exact M|]. exists (i1 ++ i2). rewrite steps_app, H1. exact H2.
Qed.

Lemma reachable_after s s' : reachable s -> reachable_from s s' -> after s s'.
Proof.
  intros R (inputs & H). eapply steps_after; [apply Inv_reachable, R | exact H].
Qed.

(** ** The factory and the constructors *)

Lemma or_default_falsy x d : falsy x -> or_default x d = d.
Proof. destruct x as [v|]; simpl; intros H; [rewrite H|]; reflexivity. Qed.

Lemma or_default_not_zero x : PrimFloat.is_zero (or_default x 16384) = false.
Proof.
  destruct x as [v|]; simpl; [|reflexivity].
  destruct (truthy v) eqn:T; [|reflexivity].
  unfold truthy in T. apply negb_true_iff, orb_false_elim in T. apply T.
Qed.

Lemma made_marks stream :
  made stream ->
  exists o,
    base stream = BaseReadable (AudioReadableStream.super_options o)
    \/ base stream = BaseWritable (AudioWritableStream.super_options o)
    \/ exists o', base stream = BaseDuplex (AudioDuplexStream.super_options o o').
Proof.
  intros M. destruct M as [a o stream E|a o stream E|a i o stream E|b options stream H].
  - apply constructed_readable in E. destruct E as [_ ->]. exists o. left. reflexivity.
  - apply constructed_writable in E. destruct E as [_ ->]. exists o. right. left. reflexivity.
  - apply constructed_duplex in E. destruct E as (_ & _ & ->).
    exists i. right. right. exists o. reflexivity.
  - destruct (AudioIO_returned _ _ H)
      as (a & _ & [(i & o & s0 & _ & _ & E & ->)|[(i & s0 & _ & _ & E & ->)
                                                 |(o & s0 & _ & _ & E & ->)]]).
    + apply constructed_duplex in E. destruct E as (_ & _ & ->).
      exists i. right. right. exists o. reflexivity.
    + apply constructed_readable in E. destruct E as [_ ->]. exists i. left. reflexivity.
    + apply constructed_writable in E. destruct E as [_ ->]. exists o. right. left. reflexivity.
Qed.

(** C10: when [highwaterMark] is missing or falsy ([0], [-0], [NaN]) every
    stream class hands 16384 to its base class as high-water mark, the
    base class accepts it, and the stream made has that mark; and whatever
    the options, no stream a constructor or the factory makes has a
    high-water mark of zero. *)
Theorem highWaterMark_default audioIOAddon options other :
  falsy (highwaterMark options) ->
  r_highWaterMark (AudioReadableStream.super_options options) = 16384%float
  /\ w_highWaterMark (AudioWritableStream.super_options options) = 16384%float
  /\ readableHighWaterMark (AudioDuplexStream.super_options options other) = 16384%float
  /\ writableHighWaterMark (AudioDuplexStream.super_options other options) = 16384%float
  /\ (exists stream,
        AudioReadableStream.constructor audioIOAddon options = Returned stream
        /\ readable_hwm stream = Some 16384%float)
  /\ (exists stream,
        AudioWritableStream.constructor audioIOAddon options = Returned stream
        /\ writable_hwm stream = Some 16384%float)
  /\ (exists stream,
        AudioDuplexStream.constructor audioIOAddon options options = Returned stream
        /\ readable_hwm stream = Some 16384%float
        /\ writable_hwm stream = Some 16384%float)
  /\ forall stream h,
       made stream ->
       readable_hwm stream = Some h \/ writable_hwm stream = Some h ->
       PrimFloat.is_zero h = false.
Proof.
  intros F.
  unfold AudioReadableStream.constructor, AudioWritableStream.constructor,
    AudioDuplexStream.constructor, Readable_super, Writable_super, Duplex_super,
    AudioReadableStream.super_options, AudioWritableStream.super_options,
    AudioDuplexStream.super_options.
  cbn [r_highWaterMark w_highWaterMark readableHighWaterMark writableHighWaterMark].
  rewrite (@or_default_falsy _ _ F).
  change (valid_highWaterMark 16384) with true. cbn [construct].
  split; [reflexivity|]. split; [reflexivity|]. split; [reflexivity|].
  split; [reflexivity|].
  split; [eexists; split; reflexivity|].
  split; [eexists; split; reflexivity|].
  split; [eexists; split; [reflexivity | split; reflexivity]|].
  intros stream h M H.
  unfold readable_hwm, writable_hwm in H.
  destruct (made_marks M) as (o & [B|[B|(o' & B)]]); rewrite B in H; simpl in H;
    destruct H as [H|H]; inversion H; apply or_default_not_zero.
Qed.

Lemma highWaterMark_default_witness :
  falsy (highwaterMark lenient_options)
  /\ exists stream,
       AudioReadableStream.constructor 1 lenient_options = Returned stream
       /\ readable_hwm stream = Some 16384%float.
Proof.
  split; [reflexivity|].
  apply (highWaterMark_default 1 lenient_options no_options). reflexivity.
Defined.

(** C8, as stated, fails: with [inOptions] present and a high-water mark
    of [-1] the engine is created, the base class refuses the mark, and
    the factory throws instead of returning the readable stream. *)
Lemma invalid_mark_is_refused :
  create sample_bindings refused_capture = Returned 1
  /\ snd (AudioIO sample_bindings refused_capture)
     = Threw (ThrownError (ERR_INVALID_ARG_VALUE "options.highWaterMark"))
  /\ ~ selects_by_presence sample_bindings refused_capture.
Proof.
  assert (E : snd (AudioIO sample_bindings refused_capture)
              = Threw (ThrownError (ERR_INVALID_ARG_VALUE "options.highWaterMark")))
    by (vm_compute; reflexivity).
  split; [reflexivity|]. split; [exact E|].
  unfold selects_by_presence. cbn [refused_capture inOptions outOptions get].
  intros (stream & H & _). rewrite E in H. discriminate H.
Qed.

(** C8, amended: when the engine's [create] returns, the configurations
    that are there decide which constructor [AudioIO] calls: the duplex
    one if both [inOptions] and [outOptions] are there, the readable one if
    only [inOptions] is, the writable one if only [outOptions] is.  If the
    base class accepts the high-water marks it is handed (integers that
    are not negative), [AudioIO] returns that stream, made from the addon
    and the options; if not, it throws the base class's error.  With
    neither configuration it throws its own error. *)
Theorem AudioIO_selects portAudioBindings options addon :
  create portAudioBindings options = Returned addon ->
  match get (inOptions options), get (outOptions options) with
  | Some i, Some o =>
      if valid_highWaterMark (mark_of i) then
        if valid_highWaterMark (mark_of o) then
          exists stream,
            snd (AudioIO portAudioBindings options) = Returned stream
            /\ variant stream = VDuplex
            /\ base stream = BaseDuplex (AudioDuplexStream.super_options i o)
            /\ audioIOAddon stream = addon
        else
          snd (AudioIO portAudioBindings options)
          = Threw (ThrownError (ERR_INVALID_ARG_VALUE "options.writableHighWaterMark"))
      else
        snd (AudioIO portAudioBindings options)
        = Threw (ThrownError (ERR_INVALID_ARG_VALUE "options.readableHighWaterMark"))
  | Some i, None =>
      if valid_highWaterMark (mark_of i) then
        exists stream,
          snd (AudioIO portAudioBindings options) = Returned stream
          /\ variant stream = VReadable
          /\ base stream = BaseReadable (AudioReadableStream.super_options i)
          /\ audioIOAddon stream = addon
      else
        snd (AudioIO portAudioBindings options)
        = Threw (ThrownError (ERR_INVALID_ARG_VALUE "options.highWaterMark"))
  | None, Some o =>
      if valid_highWaterMark (mark_of o) then
        exists stream,
          snd (AudioIO portAudioBindings options) = Returned stream
          /\ variant stream = VWritable
          /\ base stream = BaseWritable (AudioWritableStream.super_options o)
          /\ audioIOAddon stream = addon
      else
        snd (AudioIO portAudioBindings options)
        = Threw (ThrownError (ERR_INVALID_ARG_VALUE "options.highWaterMark"))
  | None, None =>
      snd (AudioIO portAudioBindings options) = Threw (ThrownError AudioIO_error)
  end.
Proof.
  intros C. unfold AudioIO. cbn [snd]. rewrite C.
  unfold AudioReadableStream.constructor, AudioWritableStream.constructor,
    AudioDuplexStream.constructor, Readable_super, Writable_super, Duplex_super, mark_of.
  destruct options as [[| |i] [| |o]];
    cbn [inOptions outOptions get has_key is_defined andb
         AudioReadableStream.super_options AudioWritableStream.super_options
         AudioDuplexStream.super_options r_highWaterMark w_highWaterMark
         readableHighWaterMark writableHighWaterMark];
    try reflexivity;
    repeat match goal with
           | |- context [valid_highWaterMark ?x] =>
               destruct (valid_highWaterMark x); cbn [construct]
           end;
    try reflexivity;
    eexists; repeat split; reflexivity.
Qed.

Lemma AudioIO_selects_witness :
  create sample_bindings playback = Returned 1
  /\ exists stream,
       snd (AudioIO sample_bindings playback) = Returned stream
       /\ variant stream = VWritable
       /\ base stream = BaseWritable (AudioWritableStream.super_options lenient_options)
       /\ audioIOAddon stream = 1.
Proof.
  split; [reflexivity|].
  apply (@AudioIO_selects sample_bindings playback 1). reflexivity.
Defined.

(** C5, as stated, fails: with neither configuration the factory has
    already called the engine's [create] when it throws. *)
Lemma create_precedes_failure : ~ fails_before_engine sample_bindings no_streams.
Proof.
  intros H. destruct H as [H _]; [split; reflexivity|]. discriminate H.
Qed.

(** C5, amended: with neither [inOptions] nor [outOptions], [AudioIO]
    fails synchronously, after exactly one call on the engine,
    [create(options)]: when [create] returns, the error thrown is
    [Error('AudioIO requires either inOptions, outOptions, or both')];
    when [create] throws, that is what [AudioIO] throws. *)
Theorem AudioIO_neither portAudioBindings options :
  neither options ->
  fst (AudioIO portAudioBindings options) = [ECreate options]
  /\ match create portAudioBindings options with
     | Returned _ =>
         snd (AudioIO portAudioBindings options) = Threw (ThrownError AudioIO_error)
     | Threw v => snd (AudioIO portAudioBindings options) = Threw v
     end.
Proof.
  intros [Hi Ho]. split; [reflexivity|].
  unfold AudioIO. simpl.
  destruct (create portAudioBindings options); [|reflexivity].
  rewrite Hi, Ho. simpl. rewrite !andb_false_r. reflexivity.
Qed.

Lemma AudioIO_neither_witness :
  neither no_streams
  /\ fst (AudioIO sample_bindings no_streams) = [ECreate no_streams]
  /\ snd (AudioIO sample_bindings no_streams) = Threw (ThrownError AudioIO_error).
Proof.
  split; [split; reflexivity|].
  apply (@AudioIO_neither sample_bindings no_streams). split; reflexivity.
Defined.

(** C9: a writable or duplex stream made by the factory has one listener
    for ['finish'] and one for ['close'].  The ['finish'] listener is
    [stream.quit()] followed by the emission of ['finished']: it calls the
    engine's [quit('WAIT')] and suspends; it emits ['finished'] when that
    call is fulfilled, and emits nothing when it is rejected.  The ['close']
    listener emits ['closed']. *)
Theorem finish_quits_then_notifies portAudioBindings options stream :
  snd (AudioIO portAudioBindings options) = Returned stream ->
  class_write stream <> None ->
  exists onFinish onClose k,
    listeners_of stream "finish" = [onFinish]
    /\ listeners_of stream "close" = [onClose]
    /\ onFinish None = bind (class_quit stream None) (fun _ => perform (Emit "finished"))
    /\ run (onClose None) = ([Did (Emit "closed")], no_tasks)
    /\ run (onFinish None)
       = ([Did (Engine (EQuit "WAIT"))], {| reads := []; writes := []; quits := [k] |})
    /\ run (k (Fulfilled tt)) = ([Did (Emit "finished")], no_tasks)
    /\ forall reason, run (k (Rejected reason)) = ([UnhandledRejection reason], no_tasks).
Proof.
  intros E W.
  destruct (AudioIO_returned _ _ E)
    as (a & _ & [(i & o & s0 & _ & _ & E0 & ->)|[(i & s0 & _ & _ & E0 & ->)
                                               |(o & s0 & _ & _ & E0 & ->)]]).
  - apply constructed_duplex in E0. destruct E0 as (_ & _ & ->).
    do 3 eexists; repeat split; reflexivity.
  - apply constructed_readable in E0. destruct E0 as [_ ->].
    exfalso; apply W; reflexivity.
  - apply constructed_writable in E0. destruct E0 as [_ ->].
    do 3 eexists; repeat split; reflexivity.
Qed.

Lemma finish_quits_then_notifies_witness :
  exists stream,
    snd (AudioIO sample_bindings playback) = Returned stream
    /\ class_write stream <> None
    /\ exists onFinish onClose k,
         listeners_of stream "finish" = [onFinish]
         /\ listeners_of stream "close" = [onClose]
         /\ onFinish None = bind (class_quit stream None) (fun _ => perform (Emit "finished"))
         /\ run (onClose None) = ([Did (Emit "closed")], no_tasks)
         /\ run (onFinish None)
            = ([Did (Engine (EQuit "WAIT"))], {| reads := []; writes := []; quits := [k] |})
         /\ run (k (Fulfilled tt)) = ([Did (Emit "finished")], no_tasks)
         /\ forall reason, run (k (Rejected reason)) = ([UnhandledRejection reason], no_tasks).
Proof.
  eexists. split; [reflexivity|]. split; [discriminate|].
  apply (@finish_quits_then_notifies sample_bindings playback); [reflexivity | discriminate].
Defined.

(** ** The read side *)

Lemma pushed_by_buffers rs :
  forallb carries_buffer rs = true ->
  flat_map pushed_by rs = map (fun o => Chunk (buffer_of o)) rs.
Proof.
  induction rs as [|o rs IH]; simpl; intros H; [reflexivity|].
  apply andb_prop in H. destruct H as [Ho Hrs]. rewrite (IH Hrs).
  destruct o as [[[e|] f b]|reason]; simpl in Ho; try discriminate.
  unfold pushed_by. simpl. destruct (is_true f); [discriminate | reflexivity].
Qed.

Lemma sample_reachable inputs stream s :
  made stream -> steps inputs (init stream) = Some s -> reachable s.
Proof. intros M H. exists stream. split; [exact M|]. exists inputs. exact H. Qed.

(** A history of read results that ends in a finished result. *)
Lemma history_ends_finished s rs r :
  reachable s ->
  read_results (trace s) = rs ++ [Fulfilled r] ->
  err r = None -> is_true (finished r) = true ->
  forallb carries_buffer rs = true
  /\ pushes (trace s) = map (fun o => Chunk (buffer_of o)) rs ++ [EndOfStream]
  /\ List.length (read_calls (trace s)) = List.length rs + 1
  /\ forall s',
       reachable_from s s' ->
       read_calls (trace s') = read_calls (trace s)
       /\ read_results (trace s') = read_results (trace s)
       /\ pushes (trace s') = pushes (trace s).
Proof.
  intros R H He Hf. pose proof (Inv_reachable R) as I.
  assert (B : forallb carries_buffer rs = true).
  { pose proof (inv_bufs I) as X. rewrite H, removelast_last in X. exact X. }
  assert (L : carries_buffer (Fulfilled r) = false).
  { simpl. rewrite Hf. apply andb_false_r. }
  destruct (inv_stopped I) as [N St].
  { rewrite H, forallb_app.
    change (forallb carries_buffer [Fulfilled r])
      with (carries_buffer (Fulfilled r) && true).
    rewrite L. apply andb_false_r. }
  split; [exact B|]. split; [|split].
  - rewrite (inv_pushes I), H, flat_map_app, (pushed_by_buffers _ B).
    unfold pushed_by. simpl. rewrite He, Hf. reflexivity.
  - rewrite (inv_read_count I), H, N, length_app. simpl. lia.
  - intros s' F.
    destruct (reachable_after R F) as (_ & evs & T & _ & _ & Rc & _ & Q).
    destruct (Q N St) as (_ & Rr & P).
    rewrite T, read_calls_app, read_results_app, pushes_app, (Rc St), Rr, P, !app_nil_r.
    auto.
Qed.

(** C7: when the engine fulfils the outstanding read with a result that
    carries an error, the stream calls [destroy] with that error and does
    nothing else: nothing is pushed or delivered for that read, the stream
    is destroyed (with that very error unless it already was), and no read
    is issued ever after. *)
Theorem read_error_is_terminal s i k r e :
  reachable s ->
  nth_error (reads (tasks s)) i = Some k ->
  err r = Some e ->
  exists s',
    step (SettleRead i (Fulfilled r)) s = Some s'
    /\ trace s' = trace s ++ [ReadSettled (Fulfilled r); Did (Destroy e)]
    /\ destroyed (node s') = true
    /\ (destroyed (node s) = false -> errored (node s') = Some e)
    /\ delivered (node s') = delivered (node s)
    /\ reads (tasks s') = []
    /\ forall s'',
         reachable_from s' s'' ->
         read_calls (trace s'') = read_calls (trace s')
         /\ pushes (trace s'') = pushes (trace s').
Proof.
  intros R E He. pose proof (Inv_reachable R) as I.
  destruct (single_nth _ _ (inv_reads_one I) E) as [L ->].
  assert (Hk : forall o, run (k o) = (read_effects o, no_tasks)).
  { pose proof (inv_reads_k I) as X. rewrite L in X. inversion X; auto. }
  exists (exec (k (Fulfilled r))
            (settled (ReadSettled (Fulfilled r))
               {| reads := remove_nth 0 (reads (tasks s));
                  writes := writes (tasks s);
                  quits := quits (tasks s) |} s)).
  assert (S1 : step (SettleRead 0 (Fulfilled r)) s
               = Some (exec (k (Fulfilled r))
                         (settled (ReadSettled (Fulfilled r))
                            {| reads := remove_nth 0 (reads (tasks s));
                               writes := writes (tasks s);
                               quits := quits (tasks s) |} s)))
    by (cbn [step]; rewrite E; reflexivity).
  split; [exact S1|].
  assert (R' : reachable
                 (exec (k (Fulfilled r))
                    (settled (ReadSettled (Fulfilled r))
                       {| reads := remove_nth 0 (reads (tasks s));
                          writes := writes (tasks s);
                          quits := quits (tasks s) |} s))).
  { eapply reachable_from_reachable; [exact R|].
    exists [SettleRead 0 (Fulfilled r)]. cbn [steps]. rewrite S1. reflexivity. }
  clear S1.
  revert R'. unfold exec, settled. rewrite Hk, L.
  cbn [fst snd node self tasks trace reads remove_nth join no_tasks].
  unfold read_effects. rewrite He. cbn [fold_left node_event node_do].
  rewrite <- app_assoc. intros R'.
  split; [reflexivity|]. split; [apply destroyed_destroy|].
  split; [intros D; unfold destroy; rewrite D; reflexivity|].
  split; [unfold destroy; destruct (destroyed (node s)); reflexivity|].
  split; [reflexivity|].
  intros s'' F.
  destruct (reachable_after R' F) as (_ & evs & T & _ & _ & Rc & _ & Q).
  cbn [node trace tasks reads] in *.
  assert (St : ended (destroy (Some e) (node s)) || destroyed (destroy (Some e) (node s)) = true)
    by (rewrite destroyed_destroy; apply orb_true_r).
  destruct (Q eq_refl St) as (_ & _ & P).
  rewrite T, read_calls_app, pushes_app, (Rc St), P, !app_nil_r. auto.
Qed.

(** ** Single steps, spelled out *)

Lemma join_no_tasks ts : join ts no_tasks = ts.
Proof. destruct ts. unfold join. simpl. rewrite !app_nil_r. reflexivity. Qed.

Lemma exec_run p s evs ts :
  run p = (evs, ts) ->
  exec p s = {| self := self s;
                node := fold_left node_event evs (node s);
                tasks := join (tasks s) ts;
                trace := trace s ++ evs |}.
Proof. intros H. unfold exec. rewrite H. reflexivity. Qed.

Lemma nth_error_last {A} (l : list A) k : nth_error (l ++ [k]) (List.length l) = Some k.
Proof. induction l; simpl; auto. Qed.

Lemma remove_nth_last {A} (l : list A) k : remove_nth (List.length l) (l ++ [k]) = l.
Proof. induction l; simpl; congruence. Qed.

Lemma callback_effects_neutral callback : forallb neutral (callback_effects callback) = true.
Proof. destruct callback; reflexivity. Qed.

(** [quit] and [abort] are the same apart from the mode. *)
Lemma step_shutdown s input (p : Prog unit) mode callback k :
  step input s = Some (exec p s) ->
  run p = ([Did (Engine (EQuit mode))], {| reads := []; writes := []; quits := [k] |}) ->
  run (k (Fulfilled tt)) = (callback_effects callback, no_tasks) ->
  exists s1 s2,
    step input s = Some s1
    /\ trace s1 = trace s ++ [Did (Engine (EQuit mode))]
    /\ node s1 = node s /\ self s1 = self s
    /\ reads (tasks s1) = reads (tasks s)
    /\ writes (tasks s1) = writes (tasks s)
    /\ step (SettleQuit (List.length (quits (tasks s))) (Fulfilled tt)) s1 = Some s2
    /\ trace s2 = trace s1 ++ QuitSettled (Fulfilled tt) :: callback_effects callback
    /\ node s2 = node s /\ self s2 = self s
    /\ tasks s2 = tasks s.
Proof.
  intros Hs Hr Hk.
  rewrite (@exec_run _ s _ _ Hr) in Hs.
  eexists. eexists. split; [exact Hs|]. cbn [trace node self tasks join reads writes quits].
  rewrite !app_nil_r.
  split; [reflexivity|]. split; [reflexivity|]. split; [reflexivity|].
  split; [reflexivity|]. split; [reflexivity|].
  split.
  { cbn [step tasks quits join]. rewrite nth_error_last, remove_nth_last.
    rewrite (@exec_run _ _ _ _ Hk). reflexivity. }
  cbn [trace node self tasks settled].
  rewrite (@neutral_node _ (callback_effects_neutral callback)), join_no_tasks.
  rewrite <- app_assoc. simpl. destruct (tasks s). simpl. rewrite !app_nil_r. auto.
Qed.

Lemma step_abort s callback :
  exists s1 s2,
    step (CallAbort callback) s = Some s1
    /\ trace s1 = trace s ++ [Did (Engine (EQuit "ABORT"))]
    /\ node s1 = node s /\ self s1 = self s
    /\ reads (tasks s1) = reads (tasks s)
    /\ writes (tasks s1) = writes (tasks s)
    /\ step (SettleQuit (List.length (quits (tasks s))) (Fulfilled tt)) s1 = Some s2
    /\ trace s2 = trace s1 ++ QuitSettled (Fulfilled tt) :: callback_effects callback
    /\ node s2 = node s /\ self s2 = self s
    /\ tasks s2 = tasks s.
Proof.
  destruct (run_abort (self s) callback) as (k & Hr & Hk & _).
  apply step_shutdown with (p := class_abort (self s) callback) (k := k);
    [reflexivity | exact Hr | exact Hk].
Qed.

Lemma step_quit s callback :
  exists s1 s2,
    step (CallQuit callback) s = Some s1
    /\ trace s1 = trace s ++ [Did (Engine (EQuit "WAIT"))]
    /\ node s1 = node s /\ self s1 = self s
    /\ reads (tasks s1) = reads (tasks s)
    /\ writes (tasks s1) = writes (tasks s)
    /\ step (SettleQuit (List.length (quits (tasks s))) (Fulfilled tt)) s1 = Some s2
    /\ trace s2 = trace s1 ++ QuitSettled (Fulfilled tt) :: callback_effects callback
    /\ node s2 = node s /\ self s2 = self s
    /\ tasks s2 = tasks s.
Proof.
  destruct (run_quit (self s) callback) as (k & Hr & Hk & _).
  apply step_shutdown with (p := class_quit (self s) callback) (k := k);
    [reflexivity | exact Hr | exact Hk].
Qed.

(** A read settled with a buffer: the buffer is pushed. *)
Lemma step_settle_read s i k o :
  Inv s -> nth_error (reads (tasks s)) i = Some k ->
  exists s',
    step (SettleRead i o) s = Some s'
    /\ trace s' = trace s ++ ReadSettled o :: read_effects o
    /\ node s' = fold_left node_event (read_effects o) (node s)
    /\ self s' = self s
    /\ reads (tasks s') = [].
Proof.
  intros I E.
  destruct (single_nth _ _ (inv_reads_one I) E) as [L ->].
  assert (Hk : forall o, run (k o) = (read_effects o, no_tasks)).
  { pose proof (inv_reads_k I) as X. rewrite L in X. inversion X; auto. }
  eexists. split; [cbn [step]; rewrite E; reflexivity|].
  rewrite (@exec_run _ _ _ _ (Hk o)). cbn [trace node self tasks settled join reads no_tasks].
  rewrite L, <- app_assoc. auto.
Qed.

(** A write settled: its callback is called with the error, if any. *)
Lemma step_settle_write s k o :
  Inv s -> writes (tasks s) = [k] ->
  exists s' cb,
    step (SettleWrite 0 o) s = Some s'
    /\ calls (node s) = S cb
    /\ trace s' = trace s ++ [WriteSettled o; Did (WriteCallback cb (error_of o))]
    /\ node s' = node_do (WriteCallback cb (error_of o)) (node s)
    /\ self s' = self s.
Proof.
  intros I L.
  destruct (inv_writes I) as [(H1 & _)|(k0 & cb & H1 & H2 & H3 & H4 & H5)];
    [congruence|].
  rewrite L in H1. inversion H1; subst k0.
  eexists. exists cb. split; [cbn [step]; rewrite L; reflexivity|].
  rewrite (@exec_run _ _ _ _ (H4 o)). cbn [trace node self tasks settled].
  rewrite <- app_assoc. auto.
Qed.

Lemma read_error_is_terminal_witness :
  reachable (state_after [Pull 16384] sample_readable)
  /\ exists s',
       step (SettleRead 0 (Fulfilled (error_result underrun)))
            (state_after [Pull 16384] sample_readable) = Some s'
       /\ trace s' = [Did (Engine (ERead 16384));
                      ReadSettled (Fulfilled (error_result underrun));
                      Did (Destroy underrun)]
       /\ destroyed (node s') = true
       /\ delivered (node s') = [].
Proof.
  assert (R : reachable (state_after [Pull 16384] sample_readable)).
  { exists sample_readable. split; [apply (@made_readable 1 no_options); reflexivity|].
    exists [Pull 16384]. vm_compute. reflexivity. }
  split; [exact R|].
  destruct (@read_error_is_terminal
              (state_after [Pull 16384] sample_readable) 0 _
              (error_result underrun) underrun R eq_refl eq_refl)
    as (s' & S1 & T & D & _ & Dl & _).
  exists s'. auto.
Defined.

(** ** The write side *)

Example protocol_refuses_overlap :
  protocol [Did (Engine (EWrite chunk1)); Did (Engine (EWrite chunk2))] = None.
Proof. reflexivity. Qed.

Example protocol_refuses_early_callback :
  protocol [Did (Engine (EWrite chunk1)); Did (WriteCallback 0 None)] = None.
Proof. reflexivity. Qed.

Example protocol_refuses_other_error :
  protocol [Did (Engine (EWrite chunk1)); WriteSettled (Fulfilled (Some underrun));
            Did (WriteCallback 0 None)] = None.
Proof. reflexivity. Qed.

Example protocol_accepts_two_writes :
  protocol [Did (Engine (EWrite chunk1)); WriteSettled (Fulfilled None);
            Did (WriteCallback 0 None); Did (Engine (EWrite chunk2))] = Some (Busy 1).
Proof. reflexivity. Qed.

(** The write side in a reachable state. *)
Lemma write_side s :
  reachable s ->
  (exists ph, protocol (trace s) = Some ph)
  /\ List.length (writes (tasks s)) <= 1
  /\ (exists rest,
        accepted (node s) = write_calls (trace s) ++ rest
        /\ (destroyed (node s) = false -> rest = buffered (node s)))
  /\ forall chunk rest,
       destroyed (node s) = false -> writes (tasks s) = [] ->
       buffered (node s) = chunk :: rest ->
       exists s',
         step Flush s = Some s'
         /\ trace s' = trace s ++ [Did (Engine (EWrite chunk))]
         /\ buffered (node s') = rest.
Proof.
  intros R. pose proof (Inv_reachable R) as I.
  split; [|split; [|split]].
  - destruct (inv_writes I) as [(_ & _ & P)|(k & cb & _ & _ & _ & _ & P)];
      rewrite P; eexists; reflexivity.
  - destruct (inv_writes I) as [(W & _)|(k & cb & W & _)]; rewrite W; simpl; lia.
  - apply (inv_order I).
  - intros chunk rest D W B.
    destruct (inv_writes I) as [(_ & Wr & _)|(k & cb & W' & _)]; [|congruence].
    destruct (class_write (self s)) as [_write|] eqn:C.
    2:{ exfalso. apply (inv_writable I); [rewrite B; discriminate | exact C]. }
    destruct (run_write (self s) chunk "buffer" (calls (node s)) C) as (k & Hr & _).
    eexists. split; [cbn [step]; rewrite C, B, D, Wr; reflexivity|].
    rewrite (@exec_run _ _ _ _ Hr). auto.
Qed.

(** C6, as stated, fails: the first chunk is played, the engine reports an
    error for the second, and the third chunk is not submitted: the stream
    has been destroyed. *)
Lemma write_error_terminates :
  ~ continues_after_write_error sample_writable
      [CallWrite chunk1; SettleWrite 0 (Fulfilled None); CallWrite chunk2]
      underrun chunk3.
Proof.
  intros H.
  assert (S0 : steps [CallWrite chunk1; SettleWrite 0 (Fulfilled None); CallWrite chunk2]
                 (init sample_writable)
               = Some (state_after
                         [CallWrite chunk1; SettleWrite 0 (Fulfilled None); CallWrite chunk2]
                         sample_writable))
    by (vm_compute; reflexivity).
  assert (S1 : step (SettleWrite 0 (Fulfilled (Some underrun)))
                 (state_after
                    [CallWrite chunk1; SettleWrite 0 (Fulfilled None); CallWrite chunk2]
                    sample_writable)
               = Some (state_after
                         [CallWrite chunk1; SettleWrite 0 (Fulfilled None); CallWrite chunk2;
                          SettleWrite 0 (Fulfilled (Some underrun))]
                         sample_writable))
    by (vm_compute; reflexivity).
  assert (S2 : step (CallWrite chunk3)
                 (state_after
                    [CallWrite chunk1; SettleWrite 0 (Fulfilled None); CallWrite chunk2;
                     SettleWrite 0 (Fulfilled (Some underrun))]
                    sample_writable)
               = Some (state_after
                         [CallWrite chunk1; SettleWrite 0 (Fulfilled None); CallWrite chunk2;
                          SettleWrite 0 (Fulfilled (Some underrun)); CallWrite chunk3]
                         sample_writable))
    by (vm_compute; reflexivity).
  destruct (H _ _ _ S0 S1 S2) as [D _].
  vm_compute in D. discriminate D.
Qed.

(** C6, amended: when the engine reports an error for the outstanding
    write, the stream calls the callback given with that chunk, once, with
    that error, and does nothing else; the base class then destroys the
    stream, and no further chunk is ever written to the engine.  Nothing
    of this depends on [closeOnError]: the stream classes only read
    [highwaterMark]. *)
Theorem write_error_is_reported_once s k e :
  reachable s ->
  writes (tasks s) = [k] ->
  (exists s' cb,
     step (SettleWrite 0 (Fulfilled (Some e))) s = Some s'
     /\ calls (node s) = S cb
     /\ trace s' = trace s ++ [WriteSettled (Fulfilled (Some e));
                               Did (WriteCallback cb (Some e))]
     /\ destroyed (node s') = true
     /\ forall s'', reachable_from s' s'' ->
                    write_calls (trace s'') = write_calls (trace s'))
  /\ forall audioIOAddon o o' other,
       highwaterMark o = highwaterMark o' ->
       AudioWritableStream.constructor audioIOAddon o
       = AudioWritableStream.constructor audioIOAddon o'
       /\ AudioDuplexStream.constructor audioIOAddon other o
          = AudioDuplexStream.constructor audioIOAddon other o'.
Proof.
  intros R L. pose proof (Inv_reachable R) as I. split.
  - destruct (@step_settle_write s k (Fulfilled (Some e)) I L)
      as (s' & cb & S1 & C & T & N & _).
    exists s', cb. split; [exact S1|]. split; [exact C|]. split; [exact T|].
    assert (D : destroyed (node s') = true).
    { rewrite N. simpl. apply destroyed_destroy. }
    split; [exact D|].
    intros s'' F.
    assert (R' : reachable s').
    { eapply reachable_from_reachable; [exact R|].
      exists [SettleWrite 0 (Fulfilled (Some e))]. cbn [steps]. rewrite S1. reflexivity. }
    destruct (reachable_after R' F) as (_ & evs & T' & _ & _ & _ & W & _).
    rewrite T', write_calls_app, (W D), app_nil_r. reflexivity.
  - intros a o o' other H. unfold AudioWritableStream.constructor,
      AudioDuplexStream.constructor, AudioWritableStream.super_options,
      AudioDuplexStream.super_options. rewrite H. auto.
Qed.

Lemma write_error_is_reported_once_witness :
  reachable (state_after [CallWrite chunk1] sample_writable)
  /\ exists s',
       step (SettleWrite 0 (Fulfilled (Some underrun)))
            (state_after [CallWrite chunk1] sample_writable) = Some s'
       /\ trace s' = [Did (Engine (EWrite chunk1));
                      WriteSettled (Fulfilled (Some underrun));
                      Did (WriteCallback 0 (Some underrun))]
       /\ destroyed (node s') = true.
Proof.
  assert (R : reachable (state_after [CallWrite chunk1] sample_writable)).
  { exists sample_writable. split; [apply (@made_writable 1 lenient_options); reflexivity|].
    exists [CallWrite chunk1]. vm_compute. reflexivity. }
  split; [exact R|].
  destruct (@write_error_is_reported_once
              (state_after [CallWrite chunk1] sample_writable) _ underrun R eq_refl)
    as ((s' & cb & S1 & C & T & D & _) & _).
  exists s'. split; [exact S1|]. split; [|exact D].
  rewrite T. injection C as <-. reflexivity.
Defined.

(** ** [quit] and [abort] *)

(** C3, as stated, fails: a read is outstanding, [abort] is called and
    resolves, then the read is fulfilled with a buffer: the buffer is
    pushed and reaches the consumer. *)
Lemma late_buffer_is_delivered :
  ~ abort_discards sample_readable [Pull 16384] (Some 0)
      [SettleQuit 0 (Fulfilled tt);
       SettleRead 0 (Fulfilled (buffer_result chunk1))].
Proof.
  intros H.
  assert (S1 : steps [Pull 16384] (init sample_readable)
               = Some (state_after [Pull 16384] sample_readable))
    by (vm_compute; reflexivity).
  assert (N : reads (tasks (state_after [Pull 16384] sample_readable)) <> []
              \/ writes (tasks (state_after [Pull 16384] sample_readable)) <> [])
    by (left; vm_compute; discriminate).
  assert (S2 : steps [CallAbort (Some 0); SettleQuit 0 (Fulfilled tt);
                      SettleRead 0 (Fulfilled (buffer_result chunk1))]
                 (state_after [Pull 16384] sample_readable)
               = Some (state_after
                         [Pull 16384; CallAbort (Some 0); SettleQuit 0 (Fulfilled tt);
                          SettleRead 0 (Fulfilled (buffer_result chunk1))]
                         sample_readable))
    by (vm_compute; reflexivity).
  destruct (H _ _ S1 N S2) as [D _].
  vm_compute in D. discriminate D.
Qed.

(** C3, amended: [abort] calls the engine's [quit('ABORT')] at once and
    waits for nothing else: as soon as the engine fulfils that call the
    callback is called, with every read and write that was outstanding
    still outstanding.  The stream keeps no trace of the abort: when the
    outstanding read is later fulfilled with a buffer, the buffer is pushed
    as usual, and delivered unless the stream had ended or was destroyed. *)
Theorem abort_does_not_wait s callback :
  reachable s ->
  exists s1 s2,
    step (CallAbort callback) s = Some s1
    /\ trace s1 = trace s ++ [Did (Engine (EQuit "ABORT"))]
    /\ step (SettleQuit (List.length (quits (tasks s))) (Fulfilled tt)) s1 = Some s2
    /\ trace s2 = trace s1 ++ QuitSettled (Fulfilled tt) :: callback_effects callback
    /\ node s2 = node s
    /\ tasks s2 = tasks s
    /\ forall i k r,
         nth_error (reads (tasks s)) i = Some k ->
         carries_buffer (Fulfilled r) = true ->
         exists s3,
           step (SettleRead i (Fulfilled r)) s2 = Some s3
           /\ trace s3 = trace s2 ++ [ReadSettled (Fulfilled r); Did (Push (buf r))]
           /\ forall b bs,
                buf r = Some (b :: bs) ->
                ended (node s) = false -> destroyed (node s) = false ->
                delivered (node s3) = delivered (node s) ++ [b :: bs].
Proof.
  intros R.
  destruct (step_abort s callback)
    as (s1 & s2 & S1 & T1 & N1 & _ & _ & _ & S2 & T2 & N2 & _ & K2).
  exists s1, s2. repeat (split; [assumption|]).
  intros i k r E B.
  assert (R2 : reachable s2).
  { eapply reachable_from_reachable; [exact R|].
    exists [CallAbort callback; SettleQuit (List.length (quits (tasks s))) (Fulfilled tt)].
    cbn [steps]. rewrite S1, S2. reflexivity. }
  rewrite <- K2 in E.
  destruct (@step_settle_read s2 i k (Fulfilled r) (Inv_reachable R2) E)
    as (s3 & S3 & T3 & N3 & _).
  assert (X : read_effects (Fulfilled r) = [Did (Push (buf r))]).
  { simpl in B. simpl. destruct (err r); [discriminate|].
    destruct (is_true (finished r)); [discriminate | reflexivity]. }
  rewrite X in T3, N3.
  exists s3. split; [exact S3|]. split; [exact T3|].
  intros b bs Hb He Hd. rewrite N3, N2. simpl. rewrite Hb. simpl.
  rewrite He, Hd. reflexivity.
Qed.

Lemma abort_does_not_wait_witness :
  reachable (state_after [Pull 16384] sample_readable)
  /\ exists s1 s2,
       step (CallAbort (Some 0)) (state_after [Pull 16384] sample_readable) = Some s1
       /\ step (SettleQuit 0 (Fulfilled tt)) s1 = Some s2
       /\ trace s2 = [Did (Engine (ERead 16384)); Did (Engine (EQuit "ABORT"));
                      QuitSettled (Fulfilled tt); Did (UserCallback 0)]
       /\ List.length (reads (tasks s2)) = 1.
Proof.
  assert (R : reachable (state_after [Pull 16384] sample_readable)).
  { exists sample_readable. split; [apply (@made_readable 1 no_options); reflexivity|].
    exists [Pull 16384]. vm_compute. reflexivity. }
  split; [exact R|].
  destruct (@abort_does_not_wait (state_after [Pull 16384] sample_readable) (Some 0) R)
    as (s1 & s2 & S1 & T1 & S2 & T2 & _ & K & _).
  exists s1, s2. split; [exact S1|]. split; [exact S2|].
  rewrite T2, T1, K. split; reflexivity.
Defined.

(** C4, as stated, fails: after [quit] was called, a pull still makes the
    stream issue a read. *)
Lemma read_after_quit :
  ~ silent_after_shutdown sample_readable [CallQuit None] [Pull 16384].
Proof.
  intros H.
  assert (S1 : steps [CallQuit None] (init sample_readable)
               = Some (state_after [CallQuit None] sample_readable))
    by (vm_compute; reflexivity).
  assert (Q : quit_calls (trace (state_after [CallQuit None] sample_readable)) <> [])
    by (vm_compute; discriminate).
  assert (S2 : steps [Pull 16384] (state_after [CallQuit None] sample_readable)
               = Some (state_after [CallQuit None; Pull 16384] sample_readable))
    by (vm_compute; reflexivity).
  destruct (H _ _ S1 Q S2) as [D _].
  vm_compute in D. discriminate D.
Qed.

(** C4, amended: once the stream has ended ([null] was pushed) or has been
    destroyed, no read is issued to the engine, and once it has been
    destroyed no write is issued.  [quit] and [abort] only call the
    engine's [quit] ('WAIT', 'ABORT'): they change nothing in the stream,
    which has no quitting, aborting or closed state, so that a pull that
    was possible before the call is possible after it. *)
Theorem silent_once_ended_or_destroyed s :
  reachable s ->
  (forall s',
     reachable_from s s' ->
     (ended (node s) || destroyed (node s) = true ->
      read_calls (trace s') = read_calls (trace s))
     /\ (destroyed (node s) = true ->
         write_calls (trace s') = write_calls (trace s)))
  /\ forall callback,
       exists s1 s2,
         step (CallQuit callback) s = Some s1
         /\ step (CallAbort callback) s = Some s2
         /\ trace s1 = trace s ++ [Did (Engine (EQuit "WAIT"))]
         /\ trace s2 = trace s ++ [Did (Engine (EQuit "ABORT"))]
         /\ node s1 = node s /\ node s2 = node s
         /\ forall size,
              is_defined (step (Pull size) s1) = is_defined (step (Pull size) s)
              /\ is_defined (step (Pull size) s2) = is_defined (step (Pull size) s).
Proof.
  intros R. split.
  - intros s' F.
    destruct (reachable_after R F) as (_ & evs & T & _ & _ & Rc & W & _).
    rewrite T, read_calls_app, write_calls_app. split; intros H.
    + rewrite (Rc H). apply app_nil_r.
    + rewrite (W H). apply app_nil_r.
  - intros callback.
    destruct (step_quit s callback) as (s1 & _ & Q1 & T1 & N1 & X1 & _).
    destruct (step_abort s callback) as (s2 & _ & Q2 & T2 & N2 & X2 & _).
    exists s1, s2. repeat (split; [assumption|]).
    intros size. cbn [step]. rewrite N1, N2, X1, X2.
    split; destruct (class_read (self s)); try reflexivity;
      destruct (reading (node s) || ended (node s) || destroyed (node s)); reflexivity.
Qed.

Lemma silent_once_ended_or_destroyed_witness :
  reachable (state_after capture_session sample_readable)
  /\ step (Pull 16384) (state_after capture_session sample_readable) = None
  /\ exists s1,
       step (CallQuit None) (state_after [] sample_readable) = Some s1
       /\ trace s1 = [Did (Engine (EQuit "WAIT"))].
Proof.
  assert (R : reachable (state_after capture_session sample_readable)).
  { exists sample_readable. split; [apply (@made_readable 1 no_options); reflexivity|].
    exists capture_session. vm_compute. reflexivity. }
  split; [exact R|]. split; [vm_compute; reflexivity|].
  assert (R0 : reachable (state_after [] sample_readable)).
  { exists sample_readable. split; [apply (@made_readable 1 no_options); reflexivity|].
    exists []. vm_compute. reflexivity. }
  destruct (silent_once_ended_or_destroyed R0) as (_ & Q).
  destruct (Q None) as (s1 & _ & Q1 & _ & T1 & _).
  exists s1. split; [exact Q1 | exact T1].
Defined.

(** ** Capture sessions run *)

Lemma pull_and_settle size r s :
  ready s ->
  exists s',
    steps [Pull size; SettleRead 0 (Fulfilled r)] s = Some s'
    /\ Inv s' /\ self s' = self s
    /\ read_results (trace s') = read_results (trace s) ++ [Fulfilled r]
    /\ node s' = fold_left node_event (read_effects (Fulfilled r))
                   (set_reading true (node s)).
Proof.
  intros (I & C & Rd & E & D).
  destruct (class_read (self s)) as [_read|] eqn:Cr; [clear C | contradiction].
  assert (N : reads (tasks s) = []).
  { destruct (reads (tasks s)) eqn:X; auto.
    rewrite (inv_reading I) in Rd; [discriminate | rewrite X; discriminate]. }
  destruct (run_read (self s) size Cr) as (k & Hr & Hk).
  assert (S1 : step (Pull size) s
               = Some (exec (_read size) (with_node (set_reading true) s)))
    by (cbn [step]; rewrite Cr, Rd, E, D; reflexivity).
  pose proof (Inv_step _ I S1) as I1.
  assert (E1 : nth_error (reads (tasks (exec (_read size) (with_node (set_reading true) s)))) 0
               = Some k).
  { rewrite (@exec_run _ _ _ _ Hr). cbn [tasks join reads with_node]. rewrite N. reflexivity. }
  destruct (@step_settle_read _ 0 k (Fulfilled r) I1 E1) as (s' & S2 & T & Nd & Sf & _).
  exists s'. split; [cbn [steps]; rewrite S1, S2; reflexivity|].
  split; [eapply Inv_step; [exact I1 | exact S2]|].
  split; [rewrite Sf; reflexivity|].
  split.
  - rewrite T, (@exec_run _ _ _ _ Hr). cbn [trace with_node].
    rewrite !read_results_app.
    change (ReadSettled (Fulfilled r) :: read_effects (Fulfilled r))
      with ([ReadSettled (Fulfilled r)] ++ read_effects (Fulfilled r)).
    rewrite read_results_app, read_effects_read_results. simpl.
    rewrite app_nil_r. reflexivity.
  - rewrite Nd, (@exec_run _ _ _ _ Hr). reflexivity.
Qed.

Lemma capture_runs size results :
  forall s,
    ready s ->
    forallb carries_buffer (map (@Fulfilled _) results) = true ->
    exists s',
      steps (capture size results) s = Some s'
      /\ ready s'
      /\ self s' = self s
      /\ read_results (trace s') = read_results (trace s) ++ map (@Fulfilled _) results
      /\ delivered (node s') = delivered (node s) ++ data_of results.
Proof.
  induction results as [|r results IH]; intros s Rd B.
  - exists s. simpl. rewrite !app_nil_r. auto.
  - simpl in B. apply andb_prop in B. destruct B as [Br B].
    destruct (pull_and_settle size r Rd) as (s1 & S1 & I1 & Sf & T & Nd).
    assert (R1 : ready s1 /\ delivered (node s1) = delivered (node s) ++ data_of [r]).
    { destruct Rd as (_ & C & _ & E & D).
      unfold ready. rewrite Sf, Nd. apply andb_prop in Br. destruct Br as [Be Bf].
      unfold data_of. simpl. destruct (err r); [discriminate|].
      destruct (is_true (finished r)); [discriminate|].
      simpl. unfold node_push. destruct (buf r) as [[|b bs]|]; simpl;
        rewrite ?E, ?D, ?app_nil_r; simpl; auto 10. }
    destruct R1 as [R1 D1].
    destruct (IH s1 R1 B) as (s' & S2 & R' & Sf' & T' & D').
    exists s'. split.
    { change (capture size (r :: results))
        with ([Pull size; SettleRead 0 (Fulfilled r)] ++ capture size results).
      rewrite steps_app, S1. exact S2. }
    split; [exact R'|]. split; [congruence|]. split.
    + rewrite T', T, <- app_assoc. reflexivity.
    + rewrite D', D1, <- app_assoc. unfold data_of.
      change (r :: results) with ([r] ++ results).
      rewrite flat_map_app. reflexivity.
Qed.

Lemma ready_init stream : made stream -> class_read stream <> None -> ready (init stream).
Proof.
  intros M C. split; [apply Inv_init, M|]. simpl. auto.
Qed.

Lemma capture_app size a b : capture size (a ++ b) = capture size a ++ capture size b.
Proof. induction a as [|r a IH]; simpl; [reflexivity | rewrite IH; reflexivity]. Qed.

(** C1: when the results the engine has returned to the stream's reads end
    in a finished result, all the results before it carried buffers, the
    stream has pushed exactly those buffers, in order and once each, and
    then [null] once; it has issued one read per result, and from then on
    it issues no read and pushes nothing.  And every sequence of buffer
    results followed by a finished result is the history of a run, the one
    where the consumer keeps pulling: there the consumer has received the
    buffers, in order (the empty ones carry no data), and the stream has
    ended. *)
Theorem readable_delivers_then_ends :
  (forall s rs r,
     reachable s ->
     read_results (trace s) = rs ++ [Fulfilled r] ->
     err r = None -> is_true (finished r) = true ->
     forallb carries_buffer rs = true
     /\ pushes (trace s) = map (fun o => Chunk (buffer_of o)) rs ++ [EndOfStream]
     /\ List.length (read_calls (trace s)) = List.length rs + 1
     /\ forall s',
          reachable_from s s' ->
          read_calls (trace s') = read_calls (trace s)
          /\ read_results (trace s') = read_results (trace s)
          /\ pushes (trace s') = pushes (trace s))
  /\ (forall stream size results r,
        made stream -> class_read stream <> None ->
        forallb carries_buffer (map (@Fulfilled _) results) = true ->
        err r = None -> is_true (finished r) = true ->
        exists s,
          steps (capture size (results ++ [r])) (init stream) = Some s
          /\ read_results (trace s) = map (@Fulfilled _) (results ++ [r])
          /\ pushes (trace s) = map (fun x => Chunk (buf x)) results ++ [EndOfStream]
          /\ delivered (node s) = data_of results
          /\ ended (node s) = true).
Proof.
  split; [intros s rs r; apply history_ends_finished|].
  intros stream size results r M C B He Hf.
  destruct (@capture_runs size results _ (ready_init M C) B) as (s1 & S1 & R1 & _ & T1 & D1).
  destruct (pull_and_settle size r R1) as (s & S2 & _ & _ & T2 & Nd).
  assert (S : steps (capture size (results ++ [r])) (init stream) = Some s).
  { rewrite capture_app, steps_app, S1. exact S2. }
  assert (T : read_results (trace s) = map (@Fulfilled _) results ++ [Fulfilled r]).
  { rewrite T2, T1. reflexivity. }
  exists s. split; [exact S|]. split; [rewrite T, map_app; reflexivity|].
  destruct (@history_ends_finished s _ r (sample_reachable _ M S) T He Hf) as (_ & P & _).
  split; [rewrite P, map_map; reflexivity|].
  rewrite Nd. simpl. rewrite He, Hf. simpl. split; [exact D1 | reflexivity].
Qed.

Lemma readable_delivers_then_ends_witness :
  reachable (state_after capture_session sample_readable)
  /\ pushes (trace (state_after capture_session sample_readable))
     = [Chunk (Some chunk1); Chunk (Some chunk2); EndOfStream]
  /\ List.length (read_calls (trace (state_after capture_session sample_readable))) = 3.
Proof.
  assert (R : reachable (state_after capture_session sample_readable)).
  { exists sample_readable. split; [apply (@made_readable 1 no_options); reflexivity|].
    exists capture_session. vm_compute. reflexivity. }
  split; [exact R|].
  destruct (proj1 readable_delivers_then_ends
              (state_after capture_session sample_readable)
              [Fulfilled (buffer_result chunk1); Fulfilled (buffer_result chunk2)]
              finished_result R eq_refl eq_refl eq_refl) as (_ & P & C & _).
  split; [exact P | exact C].
Defined.

(** ** Playback sessions run *)

(** Chunks written while a write is outstanding wait in order. *)
Lemma submit_runs chunks :
  forall s,
    class_write (self s) <> None ->
    ending (node s) = false -> destroyed (node s) = false -> writing (node s) = true ->
    exists s',
      steps (map CallWrite chunks) s = Some s'
      /\ trace s' = trace s /\ tasks s' = tasks s /\ self s' = self s
      /\ destroyed (node s') = false
      /\ buffered (node s') = buffered (node s) ++ chunks.
Proof.
  induction chunks as [|c chunks IH]; intros s C E D W.
  - exists s. simpl. rewrite app_nil_r. repeat split; auto.
  - destruct (IH (with_node (enqueue c) s)) as (s' & S & T & K & Sf & D' & B); auto.
    exists s'. split.
    { simpl. destruct (class_write (self s)); [|contradiction].
      rewrite E, D, W. simpl. exact S. }
    rewrite T, K, Sf, B. simpl. rewrite <- app_assoc. repeat split; auto.
Qed.

(** The engine plays the outstanding chunk and those that wait. *)
Lemma drain_runs waiting :
  forall s k,
    Inv s -> destroyed (node s) = false ->
    writes (tasks s) = [k] -> buffered (node s) = waiting ->
    exists s',
      steps (drain (S (List.length waiting))) s = Some s'
      /\ Inv s'
      /\ write_calls (trace s') = write_calls (trace s) ++ waiting
      /\ writes (tasks s') = [] /\ buffered (node s') = []
      /\ destroyed (node s') = false.
Proof.
  induction waiting as [|c rest IH]; intros s k I D W B.
  - destruct (@step_settle_write s k (Fulfilled None) I W) as (s1 & cb & S1 & _ & T1 & N1 & _).
    pose proof (Inv_step _ I S1) as I1.
    exists s1. split; [cbn [drain List.length steps]; rewrite S1; reflexivity|].
    split; [exact I1|].
    rewrite T1, write_calls_app, N1. simpl. rewrite !app_nil_r.
    split; [reflexivity|]. split; [|auto].
    destruct (inv_writes I1) as [(X & _)|(k0 & cb0 & _ & X & _)]; [exact X|].
    rewrite N1 in X. discriminate X.
  - destruct (@step_settle_write s k (Fulfilled None) I W) as (s1 & cb & S1 & _ & T1 & N1 & Sf1).
    pose proof (Inv_step _ I S1) as I1.
    assert (W1 : writes (tasks s1) = []).
    { destruct (inv_writes I1) as [(X & _)|(k0 & cb0 & _ & X & _)]; [exact X|].
      rewrite N1 in X. discriminate X. }
    assert (D1 : destroyed (node s1) = false) by (rewrite N1; exact D).
    assert (B1 : buffered (node s1) = c :: rest) by (rewrite N1; exact B).
    destruct (class_write (self s1)) as [_write|] eqn:C.
    2:{ exfalso. apply (inv_writable I1); [rewrite B1; discriminate | exact C]. }
    destruct (run_write (self s1) c "buffer" (calls (node s1)) C) as (k2 & Hr & _).
    assert (Wr : writing (node s1) = false) by (rewrite N1; reflexivity).
    assert (S2 : step Flush s1
                 = Some (exec (_write c "buffer" (calls (node s1)))
                           (with_node (dequeue rest) s1)))
      by (cbn [step]; rewrite C, B1, D1, Wr; reflexivity).
    pose proof (Inv_step _ I1 S2) as I2.
    destruct (IH _ k2 I2) as (s' & S3 & I' & T' & W' & B' & D').
    { rewrite (@exec_run _ _ _ _ Hr). exact D1. }
    { rewrite (@exec_run _ _ _ _ Hr). cbn [tasks join writes with_node].
      rewrite W1. reflexivity. }
    { rewrite (@exec_run _ _ _ _ Hr). reflexivity. }
    exists s'. split.
    { change (drain (S (List.length (c :: rest))))
        with (SettleWrite 0 (Fulfilled None) :: Flush :: drain (S (List.length rest))).
      cbn [steps]. rewrite S1, S2. exact S3. }
    split; [exact I'|]. split; [|auto].
    rewrite T', (@exec_run _ _ _ _ Hr). cbn [trace with_node].
    rewrite write_calls_app, T1, write_calls_app. simpl.
    rewrite app_nil_r, <- app_assoc. reflexivity.
Qed.

Lemma playback_runs stream chunks :
  made stream -> class_write stream <> None ->
  exists s,
    steps (playback_of chunks) (init stream) = Some s
    /\ write_calls (trace s) = chunks
    /\ accepted (node s) = chunks
    /\ writes (tasks s) = [] /\ buffered (node s) = [].
Proof.
  intros M C. unfold playback_of.
  destruct chunks as [|c chunks].
  { exists (init stream). simpl. auto. }
  destruct (class_write stream) as [_write|] eqn:Cw; [clear C | contradiction].
  destruct (run_write stream c "buffer" 0 Cw) as (k & Hr & _).
  assert (S1 : step (CallWrite c) (init stream)
               = Some (exec (_write c "buffer" 0) (with_node (begin_write c) (init stream))))
    by (cbn [step init self node]; rewrite Cw; reflexivity).
  pose proof (Inv_step _ (Inv_init M) S1) as I1.
  destruct (@submit_runs chunks
              (exec (_write c "buffer" 0) (with_node (begin_write c) (init stream))))
    as (s2 & S2 & T2 & K2 & Sf2 & D2 & B2);
    try (rewrite (@exec_run _ _ _ _ Hr); simpl; auto; fail).
  { simpl. rewrite Cw. discriminate. }
  assert (I2 : Inv s2) by (eapply Inv_steps; [exact I1 | exact S2]).
  destruct (@drain_runs chunks s2 k I2 D2) as (s & S3 & I3 & T3 & W3 & B3 & D3).
  { rewrite K2, (@exec_run _ _ _ _ Hr). reflexivity. }
  { rewrite B2, (@exec_run _ _ _ _ Hr). reflexivity. }
  exists s. split.
  { change (map CallWrite (c :: chunks)) with ([CallWrite c] ++ map CallWrite chunks).
    rewrite <- app_assoc, steps_app. cbn [steps]. rewrite S1.
    rewrite steps_app, S2. exact S3. }
  assert (Wc : write_calls (trace s) = c :: chunks).
  { rewrite T3, T2, (@exec_run _ _ _ _ Hr). reflexivity. }
  split; [exact Wc|]. split; [|auto].
  destruct (inv_order I3) as (rest & A & R). rewrite A, (R D3), B3, app_nil_r. exact Wc.
Qed.

(** C2: in every reachable state the trace follows the write protocol
    (an engine write is issued only when none is outstanding; the callback
    given with a chunk is called only after the engine's write for that
    chunk has settled, with its error; the next write is issued only after
    that callback), at most one write is outstanding, the chunks written
    to the engine are the first chunks accepted, in the order of
    submission, and unless the stream was destroyed the others wait, in
    order, the first of them being written as soon as no write is
    outstanding.  And for every sequence of chunks, written at once to a
    new stream whose engine then plays each of them, the engine is given
    exactly these chunks, in order. *)
Theorem writes_in_order_one_at_a_time :
  (forall s,
     reachable s ->
     (exists ph, protocol (trace s) = Some ph)
     /\ List.length (writes (tasks s)) <= 1
     /\ (exists rest,
           accepted (node s) = write_calls (trace s) ++ rest
           /\ (destroyed (node s) = false -> rest = buffered (node s)))
     /\ forall chunk rest,
          destroyed (node s) = false -> writes (tasks s) = [] ->
          buffered (node s) = chunk :: rest ->
          exists s',
            step Flush s = Some s'
            /\ trace s' = trace s ++ [Did (Engine (EWrite chunk))]
            /\ buffered (node s') = rest)
  /\ (forall stream chunks,
        made stream -> class_write stream <> None ->
        exists s,
          steps (playback_of chunks) (init stream) = Some s
          /\ write_calls (trace s) = chunks
          /\ accepted (node s) = chunks
          /\ writes (tasks s) = [] /\ buffered (node s) = []).
Proof.
  split; [exact write_side | exact playback_runs].
Qed.

Lemma writes_in_order_one_at_a_time_witness :
  reachable (state_after playback_session sample_writable)
  /\ (exists ph, protocol (trace (state_after playback_session sample_writable)) = Some ph)
  /\ exists s',
       step Flush (state_after playback_session sample_writable) = Some s'
       /\ write_calls (trace s') = [chunk1; chunk2].
Proof.
  assert (R : reachable (state_after playback_session sample_writable)).
  { exists sample_writable. split; [apply (@made_writable 1 lenient_options); reflexivity|].
    exists playback_session. vm_compute. reflexivity. }
  split; [exact R|].
  destruct (proj1 writes_in_order_one_at_a_time _ R) as (P & _ & _ & F).
  split; [exact P|].
  destruct (F chunk2 [chunk3] eq_refl eq_refl eq_refl) as (s' & S1 & T & _).
  exists s'. split; [exact S1|]. rewrite T. reflexivity.
Defined.

(** * Further properties of the stream classes and the factory *)

(** ** Engine calls and completions, step by step *)

Lemma control_calls_app a b : control_calls (a ++ b) = control_calls a ++ control_calls b.
Proof. apply flat_map_app. Qed.

Lemma completions_weaken tr : forall p,
  completions_follow_quit false tr = true -> completions_follow_quit p tr = true.
Proof.
  destruct tr as [|e tr]; simpl; intros p H; [reflexivity|].
  apply andb_prop in H. destruct H as [H1 H2]. rewrite H2.
  rewrite orb_false_r in H1. rewrite H1. reflexivity.
Qed.

Lemma completions_app a : forall p b,
  completions_follow_quit p a = true ->
  completions_follow_quit false b = true ->
  completions_follow_quit p (a ++ b) = true.
Proof.
  induction a as [|e a IH]; simpl; intros p b Ha Hb.
  - apply completions_weaken, Hb.
  - apply andb_prop in Ha. destruct Ha as [H1 H2]. rewrite H1. simpl.
    apply IH; assumption.
Qed.

Lemma read_effects_control o : control_calls (read_effects o) = [].
Proof. destruct o as [[[e|] f b]|reason]; simpl; try destruct (is_true f); reflexivity. Qed.

Lemma read_effects_completions o p :
  completions_follow_quit p (read_effects o) = true.
Proof. destruct o as [[[e|] f b]|reason]; simpl; try destruct (is_true f); reflexivity. Qed.

Lemma callback_effects_control callback : control_calls (callback_effects callback) = [].
Proof. destruct callback; reflexivity. Qed.

Lemma flat_map_single {A B} (f : A -> B) (l : list A) :
  flat_map (fun a => [f a]) l = map f l.
Proof. induction l as [|a l IH]; simpl; [reflexivity | rewrite IH; reflexivity]. Qed.

Lemma flat_map_none {A B} (l : list A) : flat_map (fun _ : A => @nil B) l = [].
Proof. induction l; simpl; auto. Qed.

(** The continuation of [quit] and of [abort]. *)
Lemma shutdown_from_runs (k : Settled unit -> Prog unit) callback :
  run (k (Fulfilled tt)) = (callback_effects callback, no_tasks) ->
  (forall reason, run (k (Rejected reason)) = ([UnhandledRejection reason], no_tasks)) ->
  shutdown_k k.
Proof.
  intros H1 H2. split; [|exact H2].
  eexists. split; [exact H1|]. right. exists callback. reflexivity.
Qed.

Lemma shutdown_events k o :
  shutdown_k k ->
  exists evs,
    run (k o) = (evs, no_tasks)
    /\ forallb neutral evs = true
    /\ control_calls evs = []
    /\ write_calls evs = []
    /\ completions_follow_quit false (QuitSettled o :: evs) = true.
Proof.
  intros [(evs & H1 & H) H2]. destruct o as [[]|reason].
  - exists evs. split; [exact H1|].
    destruct H as [->|(callback & ->)]; [|destruct callback]; repeat split; reflexivity.
  - eexists. split; [apply H2|]. repeat split; reflexivity.
Qed.

(** The listeners the factory adds. *)
Lemma made_polite stream : made stream -> polite stream.
Proof.
  intros M name l arg Hin. unfold listeners_of in Hin.
  apply in_map_iff in Hin. destruct Hin as ((nm & l') & E & Hin). simpl in E. subst l'.
  apply filter_In in Hin. destruct Hin as [Hin Hn]. simpl in Hn.
  apply String.eqb_eq in Hn. subst nm.
  destruct (made_listeners M) as [L|[L|[L|L]]]; rewrite L in Hin;
    simpl in Hin; try contradiction;
    repeat (destruct Hin as [Hin|Hin];
            [inversion Hin; subst; clear Hin; simpl; repeat split; auto;
             try (constructor; [|constructor]; split;
                  [eexists; split; [reflexivity | left; reflexivity]
                  | intros reason; reflexivity]) |]);
    try contradiction.
Qed.

Lemma Inv2_init stream : made stream -> Inv2 (init stream).
Proof.
  intros M. constructor; simpl; auto.
  apply made_polite, M.
Qed.

Lemma Inv2_same s s' :
  Inv2 s -> self s' = self s -> reads (tasks s') = reads (tasks s) ->
  ended (node s') = ended (node s) ->
  Forall shutdown_k (quits (tasks s')) ->
  Inv2 s'.
Proof.
  intros [Q P E R] Hs Hr He Hq.
  constructor; rewrite ?Hs, ?Hr, ?He; auto.
Qed.

Lemma Inv2_with_node f s :
  Inv2 s -> ended (f (node s)) = ended (node s) -> Inv2 (with_node f s).
Proof.
  intros I E. apply Inv2_same with (s := s); auto. apply (i2_quits I).
Qed.

Lemma Inv2_exec p s :
  Inv2 s -> forallb neutral (fst (run p)) = true ->
  reads (snd (run p)) = [] -> Forall shutdown_k (quits (snd (run p))) ->
  Inv2 (exec p s).
Proof.
  intros I Hn Hr Hq. apply Inv2_same with (s := s); auto; unfold exec; simpl.
  - rewrite Hr. apply app_nil_r.
  - rewrite (@neutral_node _ Hn). reflexivity.
  - apply Forall_app. split; [apply (i2_quits I) | exact Hq].
Qed.

Lemma adds_nothing s i : requested (self s) i = [] -> adds s i s.
Proof.
  intros H. exists []. rewrite app_nil_r, H. repeat split; auto.
Qed.

Lemma adds_with_node f s i :
  requested (self s) i = [] -> adds s i (with_node f s).
Proof.
  intros H. exists []. simpl. rewrite app_nil_r, H. repeat split; auto.
Qed.

Lemma run_start stream : run (class_start stream) = ([Did (Engine EStart)], no_tasks).
Proof. unfold class_start. destruct (base stream); reflexivity. Qed.

Lemma listeners_run (ls : list Listener) arg calls :
  forall s,
    Inv2 s ->
    (forall l, In l ls ->
       forallb neutral (fst (run (l arg))) = true
       /\ control_calls (fst (run (l arg))) = calls
       /\ completions_follow_quit false (fst (run (l arg))) = true
       /\ reads (snd (run (l arg))) = []
       /\ writes (snd (run (l arg))) = []
       /\ Forall shutdown_k (quits (snd (run (l arg))))) ->
    Inv2 (fold_left (fun s l => exec (l arg) s) ls s)
    /\ exists evs,
         trace (fold_left (fun s l => exec (l arg) s) ls s) = trace s ++ evs
         /\ control_calls evs = flat_map (fun _ => calls) ls
         /\ completions_follow_quit false evs = true
         /\ write_calls evs = [].
Proof.
  induction ls as [|l ls IH]; intros s I P; simpl.
  - split; [exact I|]. exists []. rewrite app_nil_r. auto.
  - destruct (P l (or_introl eq_refl)) as (Hn & Hc & Hq & Hr & Hw & Hk).
    destruct (IH (exec (l arg) s)) as (I' & evs & T & C & Q & W).
    { apply Inv2_exec; assumption. }
    { intros l' Hl'. apply P. right. exact Hl'. }
    split; [exact I'|]. exists (fst (run (l arg)) ++ evs).
    rewrite T. unfold exec at 1. simpl. rewrite <- app_assoc.
    split; [reflexivity|].
    rewrite control_calls_app, write_calls_app, Hc, C, W, (@neutral_write_calls _ Hn).
    repeat split; auto. apply completions_app; assumption.
Qed.

Lemma emit_facts name arg s :
  Inv2 s ->
  Inv2 (emit name arg s)
  /\ exists evs,
       trace (emit name arg s) = trace s ++ evs
       /\ control_calls evs
          = flat_map (fun _ => if String.eqb name "finish" then [EQuit "WAIT"] else [])
              (listeners_of (self s) name)
       /\ completions_follow_quit false evs = true
       /\ write_calls evs = [].
Proof.
  intros I. unfold emit.
  apply (@listeners_run (listeners_of (self s) name) arg
           (if String.eqb name "finish" then [EQuit "WAIT"] else [])
           (with_node (set_emitted name) s)).
  - apply Inv2_with_node; [exact I | reflexivity].
  - intros l Hl. apply (i2_polite I name l arg Hl).
Qed.

Theorem Inv2_step i s s' :
  Inv s -> Inv2 s -> step i s = Some s' -> Inv2 s' /\ adds s i s'.
Proof.
  intros I I2. unfold step.
  destruct i as [|cb|cb|chunk| |e|size| | | | |i o|i o|i o].
  - intros H; inversion H; clear H. split.
    + apply Inv2_exec; auto; rewrite run_start; simpl; auto.
    + exists [Did (Engine EStart)]. unfold exec. rewrite run_start. simpl. repeat split; auto; congruence.
  - intros H; inversion H; clear H.
    destruct (run_quit (self s) cb) as (k & Hr & Hk & Hj). split.
    + apply Inv2_exec; auto; rewrite Hr; simpl; auto.
      constructor; [|constructor]. eapply shutdown_from_runs; eauto.
    + exists [Did (Engine (EQuit "WAIT"))]. unfold exec. rewrite Hr. simpl. repeat split; auto; congruence.
  - intros H; inversion H; clear H.
    destruct (run_abort (self s) cb) as (k & Hr & Hk & Hj). split.
    + apply Inv2_exec; auto; rewrite Hr; simpl; auto.
      constructor; [|constructor]. eapply shutdown_from_runs; eauto.
    + exists [Did (Engine (EQuit "ABORT"))]. unfold exec. rewrite Hr. simpl. repeat split; auto; congruence.
  - destruct (class_write (self s)) as [_write|] eqn:C; [|discriminate].
    destruct (ending (node s)).
    { intros H; inversion H. split;
        [apply Inv2_with_node; [exact I2 | apply ended_destroy]
        | apply adds_with_node; reflexivity]. }
    destruct (destroyed (node s)) eqn:D.
    { intros H; inversion H; subst. split; [exact I2 | apply adds_nothing; reflexivity]. }
    destruct (writing (node s) || negb (is_empty (buffered (node s)))).
    { intros H; inversion H. split;
        [apply Inv2_with_node; [exact I2 | reflexivity]
        | apply adds_with_node; reflexivity]. }
    intros H; inversion H; clear H.
    destruct (run_write (self s) chunk "buffer" (calls (node s)) C) as (k & Hr & Hk).
    rewrite (@exec_run _ _ _ _ Hr). split.
    + apply Inv2_same with (s := s); simpl; auto.
      * apply app_nil_r.
      * rewrite app_nil_r. apply (i2_quits I2).
    + exists [Did (Engine (EWrite chunk))]. simpl. repeat split; auto.
      intros _. rewrite C. discriminate.
  - destruct (class_write (self s)) as [_write|] eqn:C; [|discriminate].
    destruct (destroyed (node s)); intros H; inversion H; subst.
    + split; [exact I2 | apply adds_nothing; reflexivity].
    + split; [apply Inv2_with_node; [exact I2 | reflexivity]
             | apply adds_with_node; reflexivity].
  - intros H; inversion H. split;
      [apply Inv2_with_node; [exact I2 | apply ended_destroy]
      | apply adds_with_node; reflexivity].
  - destruct (class_read (self s)) as [_read|] eqn:C; [|discriminate].
    destruct (reading (node s)) eqn:R; simpl; [discriminate|].
    destruct (ended (node s)) eqn:E; simpl; [discriminate|].
    destruct (destroyed (node s)) eqn:D; simpl; [discriminate|].
    intros H; inversion H; clear H.
    destruct (run_read (self s) size C) as (k & Hr & Hk).
    rewrite (@exec_run _ _ _ _ Hr). split.
    + destruct I2 as [Q P En Rd]. constructor; simpl; auto.
      * rewrite app_nil_r. exact Q.
      * intros _. rewrite C. discriminate.
    + exists [Did (Engine (ERead size))]. simpl. repeat split; auto.
  - destruct (class_write (self s)) as [_write|] eqn:C; [|discriminate].
    destruct (buffered (node s)) as [|chunk rest] eqn:B; [discriminate|].
    destruct (destroyed (node s)) eqn:D; simpl; [discriminate|].
    destruct (writing (node s)) eqn:W; simpl; [discriminate|].
    intros H; inversion H; clear H.
    destruct (run_write (self s) chunk "buffer" (calls (node s)) C) as (k & Hr & Hk).
    rewrite (@exec_run _ _ _ _ Hr). split.
    + apply Inv2_same with (s := s); simpl; auto.
      * apply app_nil_r.
      * rewrite app_nil_r. apply (i2_quits I2).
    + exists [Did (Engine (EWrite chunk))]. simpl. repeat split; auto.
      intros _. rewrite C. discriminate.
  - destruct (class_write (self s)); [|discriminate].
    match goal with |- (if ?c then _ else _) = _ -> _ => destruct c end;
      [|discriminate].
    intros H; inversion H; clear H.
    destruct (emit_facts "finish" None I2) as (I' & evs & T & Cc & Q & W).
    split; [exact I'|]. exists evs. simpl in Cc. rewrite flat_map_single in Cc.
    repeat split; auto; rewrite W; congruence.
  - destruct (errored (node s)) as [e|]; [|discriminate].
    match goal with |- (if ?c then _ else _) = _ -> _ => destruct c end;
      [|discriminate].
    intros H; inversion H; clear H.
    destruct (emit_facts "error" (Some e) I2) as (I' & evs & T & Cc & Q & W).
    split; [exact I'|]. exists evs. simpl in Cc. rewrite flat_map_none in Cc.
    repeat split; auto; rewrite W; congruence.
  - match goal with |- (if ?c then _ else _) = _ -> _ => destruct c end;
      [|discriminate].
    intros H; inversion H; clear H.
    destruct (emit_facts "close" None I2) as (I' & evs & T & Cc & Q & W).
    split; [exact I'|]. exists evs. simpl in Cc. rewrite flat_map_none in Cc.
    repeat split; auto; rewrite W; congruence.
  - destruct (nth_error (reads (tasks s)) i) as [k|] eqn:E; [|discriminate].
    intros H; inversion H; clear H.
    destruct (single_nth _ _ (inv_reads_one I) E) as [L ->].
    assert (Hk : forall o, run (k o) = (read_effects o, no_tasks)).
    { pose proof (inv_reads_k I) as X. rewrite L in X. inversion X; auto. }
    rewrite (@exec_run _ _ _ _ (Hk o)). unfold settled. rewrite L. split.
    + destruct I2 as [Q P En Rd]. constructor; simpl; auto; try congruence.
      rewrite app_nil_r. exact Q.
    + exists (ReadSettled o :: read_effects o). simpl. rewrite <- app_assoc.
      split; [reflexivity|].
      rewrite read_effects_control, read_effects_write_calls, read_effects_completions.
      repeat split; auto; congruence.
  - destruct (nth_error (writes (tasks s)) i) as [k|] eqn:E; [|discriminate].
    intros H; inversion H as [H0]; clear H H0.
    destruct (inv_writes I) as [(H1 & _)|(k0 & cb & H1 & H2 & H3 & H4 & H5)].
    { rewrite H1 in E. destruct i; discriminate. }
    rewrite H1 in E. destruct i as [|[|i]]; try discriminate.
    simpl in E. inversion E; subst k0; clear E.
    pose proof (write_effects_node cb o (node s)) as N. cbv zeta in N.
    destruct N as (_ & _ & N3 & _).
    rewrite (@exec_run _ _ _ _ (H4 o)). unfold settled. split.
    + apply Inv2_same with (s := s); cbn [self node tasks reads quits join no_tasks]; auto.
      * apply app_nil_r.
      * rewrite app_nil_r. apply (i2_quits I2).
    + exists ([WriteSettled o] ++ write_effects cb o).
      cbn [trace]. rewrite <- app_assoc. repeat split; auto.
  - destruct (nth_error (quits (tasks s)) i) as [k|] eqn:E; [|discriminate].
    intros H; inversion H; clear H.
    assert (K : shutdown_k k).
    { pose proof (i2_quits I2) as X. rewrite Forall_forall in X.
      apply X. eapply nth_error_In, E. }
    destruct (shutdown_events o K) as (evs & Hr & Hn & Hc & Hw & Hq).
    rewrite (@exec_run _ _ _ _ Hr). unfold settled. split.
    + apply Inv2_same with (s := s); cbn [self node tasks reads quits join no_tasks]; auto.
      * apply app_nil_r.
      * rewrite (@neutral_node _ Hn). reflexivity.
      * rewrite app_nil_r. apply Forall_remove_nth, (i2_quits I2).
    + exists (QuitSettled o :: evs). cbn [trace]. rewrite <- app_assoc.
      split; [reflexivity|].
      change (QuitSettled o :: evs) with ([QuitSettled o] ++ evs) at 1 3.
      rewrite control_calls_app, write_calls_app, Hc, Hw. simpl.
      repeat split; auto.
Qed.

Lemma step_self i s s' : Inv s -> step i s = Some s' -> self s' = self s.
Proof. intros I H. destruct (step_after i I H) as [E _]. exact E. Qed.

Lemma Inv2_steps inputs :
  forall s s',
    Inv s -> Inv2 s -> steps inputs s = Some s' ->
    Inv2 s'
    /\ self s' = self s
    /\ control_calls (trace s')
       = control_calls (trace s) ++ flat_map (requested (self s)) inputs
    /\ (forall p, completions_follow_quit p (trace s) = true ->
                  completions_follow_quit p (trace s') = true)
    /\ (class_write (self s) = None -> write_calls (trace s') = write_calls (trace s)).
Proof.
  induction inputs as [|i inputs IH]; simpl; intros s s' I I2 H.
  - inversion H; subst. rewrite app_nil_r. auto.
  - destruct (step i s) as [s1|] eqn:E; [|discriminate].
    destruct (Inv2_step i I I2 E) as (I2' & evs & T & C & Q & W).
    pose proof (step_self i I E) as Sf.
    destruct (IH s1 s' (Inv_step i I E) I2' H) as (J & Sf' & C' & Q' & W').
    split; [exact J|]. split; [congruence|]. split; [|split].
    + rewrite C', Sf, T, control_calls_app, C, <- app_assoc. reflexivity.
    + intros p Hp. apply Q'. rewrite T. apply completions_app; assumption.
    + intros N. rewrite W' by congruence. rewrite T, write_calls_app.
      destruct (write_calls evs) eqn:X; [apply app_nil_r|].
      exfalso. apply W; [try rewrite X; discriminate | exact N].
Qed.

Lemma read_calls_of_control tr :
  read_calls tr
  = flat_map (fun c => match c with ERead size => [size] | _ => [] end) (control_calls tr).
Proof.
  induction tr as [|e tr IH]; [reflexivity|].
  change (e :: tr) with ([e] ++ tr).
  rewrite read_calls_app, control_calls_app, flat_map_app, IH.
  f_equal. destruct e as [[[]| | | | | | |]| | | |]; reflexivity.
Qed.

Lemma reads_requested stream inputs :
  flat_map (fun c => match c with ERead size => [size] | _ => [] end)
    (flat_map (requested stream) inputs)
  = pulled inputs.
Proof.
  induction inputs as [|i inputs IH]; [reflexivity|].
  simpl. rewrite flat_map_app, IH. f_equal.
  destruct i; simpl; try reflexivity.
  induction (listeners_of stream "finish"); simpl; auto.
Qed.

Lemma no_pull inputs :
  forall s s',
    Inv s -> class_read (self s) = None -> steps inputs s = Some s' -> pulled inputs = [].
Proof.
  induction inputs as [|i inputs IH]; simpl; intros s s' I C H; [reflexivity|].
  destruct (step i s) as [s1|] eqn:E; [|discriminate].
  assert (X : match i with Pull size => [size] | _ => [] end = []).
  { destruct i; try reflexivity. cbn [step] in E. rewrite C in E. discriminate. }
  unfold pulled. simpl. rewrite X. simpl.
  apply (IH s1 s'); [eapply Inv_step; eauto | | exact H].
  rewrite (step_self i I E). exact C.
Qed.

Lemma read_calls_pulled stream inputs s :
  made stream -> steps inputs (init stream) = Some s ->
  control_calls (trace s) = flat_map (requested stream) inputs
  /\ read_calls (trace s) = pulled inputs.
Proof.
  intros M H.
  destruct (Inv2_steps inputs (Inv_init M) (Inv2_init M) H) as (_ & _ & C & _).
  simpl in C. split; [exact C|].
  rewrite read_calls_of_control, C. apply reads_requested.
Qed.

(** X1: every call a stream makes on the engine, writes apart, is asked
    for by its environment, in the same order: [start()] is one [start],
    [quit()] one [quit('WAIT')], [abort()] one [quit('ABORT')], a pull of
    [size] one [read(size)] with the size unchanged, and ['finish'] one
    [quit('WAIT')] per listener; the stream makes no other such call, and
    never creates an engine. *)
Theorem engine_calls_are_requested stream inputs s :
  made stream ->
  steps inputs (init stream) = Some s ->
  control_calls (trace s) = flat_map (requested stream) inputs
  /\ read_calls (trace s) = pulled inputs
  /\ forall options, ~ In (ECreate options) (control_calls (trace s)).
Proof.
  intros M H.
  destruct (@read_calls_pulled stream inputs s M H) as (C & Rc).
  split; [exact C|]. split; [exact Rc|].
  intros options. rewrite C. intros X. apply in_flat_map in X. destruct X as (i & _ & X).
  destruct i; simpl in X; try tauto;
    try (destruct X as [X|X]; [discriminate | contradiction]).
  apply in_map_iff in X. destruct X as (l & X & _). discriminate.
Qed.

Lemma engine_calls_are_requested_witness :
  made sample_readable
  /\ steps [CallStart; Pull 4096; CallAbort None] (init sample_readable)
     = Some (state_after [CallStart; Pull 4096; CallAbort None] sample_readable)
  /\ control_calls (trace (state_after [CallStart; Pull 4096; CallAbort None] sample_readable))
     = [EStart; ERead 4096; EQuit "ABORT"].
Proof.
  assert (M : made sample_readable) by (apply (@made_readable 1 no_options); reflexivity).
  assert (H : steps [CallStart; Pull 4096; CallAbort None] (init sample_readable)
              = Some (state_after [CallStart; Pull 4096; CallAbort None] sample_readable))
    by (vm_compute; reflexivity).
  split; [exact M|]. split; [exact H|].
  destruct (@engine_calls_are_requested sample_readable _ _ M H) as (C & _).
  rewrite C. reflexivity.
Defined.

Lemma Inv2_reachable s : reachable s -> Inv2 s.
Proof.
  intros (stream & M & inputs & H).
  apply (Inv2_steps inputs (Inv_init M) (Inv2_init M) H).
Qed.

(** ** Completions *)

Example completion_needs_quit :
  completions_are_answers 0 [Did (Engine (EQuit "WAIT")); Did (UserCallback 0)] = false.
Proof. reflexivity. Qed.

Example completion_needs_fulfilment :
  completions_are_answers 0
    [QuitSettled (Rejected (ThrownValue "busy")); Did (Emit "finished")] = false.
Proof. reflexivity. Qed.

Example completion_may_come_later :
  completions_are_answers 0
    [QuitSettled (Fulfilled tt); ReadSettled (Fulfilled (buffer_result chunk1));
     Did (Push (Some chunk1)); Did (Emit "finished")] = true.
Proof. reflexivity. Qed.

Lemma answers_of_follow tr :
  forall prev credit,
    completions_follow_quit prev tr = true ->
    (prev = true -> 1 <= credit) ->
    completions_are_answers credit tr = true.
Proof.
  induction tr as [|e tr IH]; intros prev credit H Hc; [reflexivity|].
  cbn [completions_follow_quit completions_are_answers] in *.
  apply andb_true_iff in H. destruct H as [H1 H2].
  destruct (quit_fulfilled e) eqn:Q.
  - apply (IH true (S credit) H2). intros _. lia.
  - destruct (completion e) eqn:C.
    + simpl in H1. destruct credit as [|credit]; [specialize (Hc H1); lia|].
      apply (IH false credit H2). discriminate.
    + apply (IH false credit H2). discriminate.
Qed.

(** X2: the callback given to [quit] or [abort] is called, and the
    ['finished'] notification is emitted, only in answer to a [quit] that
    the engine has fulfilled before, each fulfilled [quit] being answered
    at most once: never before the engine confirms, and never after a
    rejection. *)
Theorem completions_only_after_quit s :
  reachable s -> completions_are_answers 0 (trace s) = true.
Proof.
  intros (stream & M & inputs & H).
  destruct (Inv2_steps inputs (Inv_init M) (Inv2_init M) H) as (_ & _ & _ & Q & _).
  apply (@answers_of_follow (trace s) false 0); [|discriminate].
  apply Q. reflexivity.
Qed.

Lemma completions_only_after_quit_witness :
  reachable (state_after [CallQuit (Some 0); SettleQuit 0 (Fulfilled tt)] sample_readable)
  /\ trace (state_after [CallQuit (Some 0); SettleQuit 0 (Fulfilled tt)] sample_readable)
     = [Did (Engine (EQuit "WAIT")); QuitSettled (Fulfilled tt); Did (UserCallback 0)]
  /\ completions_are_answers 0
       (trace (state_after [CallQuit (Some 0); SettleQuit 0 (Fulfilled tt)] sample_readable))
     = true.
Proof.
  assert (R : reachable
                (state_after [CallQuit (Some 0); SettleQuit 0 (Fulfilled tt)] sample_readable)).
  { exists sample_readable. split; [apply (@made_readable 1 no_options); reflexivity|].
    exists [CallQuit (Some 0); SettleQuit 0 (Fulfilled tt)]. vm_compute. reflexivity. }
  split; [exact R|]. split; [vm_compute; reflexivity|].
  apply (completions_only_after_quit R).
Defined.

(** ** One direction only *)

Lemma variant_readable stream : variant stream = VReadable -> class_write stream = None.
Proof. unfold variant, class_write. destruct (base stream); intros H; try discriminate; auto. Qed.

Lemma variant_writable stream : variant stream = VWritable -> class_read stream = None.
Proof. unfold variant, class_read. destruct (base stream); intros H; try discriminate; auto. Qed.

(** X3: a readable stream never writes to the engine, and a writable
    stream never reads from it nor pushes anything. *)
Theorem one_direction_only stream inputs s :
  made stream ->
  steps inputs (init stream) = Some s ->
  (variant stream = VReadable -> write_calls (trace s) = [])
  /\ (variant stream = VWritable ->
      read_calls (trace s) = [] /\ pushes (trace s) = []).
Proof.
  intros M H.
  destruct (Inv2_steps inputs (Inv_init M) (Inv2_init M) H) as (_ & _ & _ & _ & W).
  split.
  - intros V. apply W. simpl. apply variant_readable, V.
  - intros V.
    assert (Rc : read_calls (trace s) = []).
    { destruct (@read_calls_pulled stream inputs s M H) as (_ & Rc).
      rewrite Rc. apply (@no_pull inputs (init stream) s (Inv_init M));
        [simpl; apply variant_writable, V | exact H]. }
    split; [exact Rc|].
    assert (I : Inv s) by (eapply Inv_steps; [apply Inv_init, M | exact H]).
    pose proof (inv_read_count I) as C. rewrite Rc in C. simpl in C.
    rewrite (inv_pushes I).
    destruct (read_results (trace s)); [reflexivity | simpl in C; lia].
Qed.

Lemma one_direction_only_witness :
  made sample_writable
  /\ steps playback_session (init sample_writable)
     = Some (state_after playback_session sample_writable)
  /\ read_calls (trace (state_after playback_session sample_writable)) = [].
Proof.
  assert (M : made sample_writable) by (apply (@made_writable 1 lenient_options); reflexivity).
  assert (H : steps playback_session (init sample_writable)
              = Some (state_after playback_session sample_writable))
    by (vm_compute; reflexivity).
  split; [exact M|]. split; [exact H|].
  destruct (@one_direction_only sample_writable _ _ M H) as (_ & W).
  apply W. reflexivity.
Defined.

(** ** Settled reads and writes, in full *)

Lemma settle_read_state s i k o :
  Inv s -> nth_error (reads (tasks s)) i = Some k ->
  step (SettleRead i o) s
  = Some {| self := self s;
            node := fold_left node_event (read_effects o) (node s);
            tasks := {| reads := []; writes := writes (tasks s); quits := quits (tasks s) |};
            trace := trace s ++ ReadSettled o :: read_effects o |}.
Proof.
  intros I E.
  destruct (single_nth _ _ (inv_reads_one I) E) as [L ->].
  assert (Hk : forall o, run (k o) = (read_effects o, no_tasks)).
  { pose proof (inv_reads_k I) as X. rewrite L in X. inversion X; auto. }
  cbn [step]. rewrite E, (@exec_run _ _ _ _ (Hk o)). unfold settled.
  cbn [self node tasks trace].
  rewrite join_no_tasks, L, <- app_assoc. reflexivity.
Qed.

Lemma settle_write_state s k o :
  Inv s -> writes (tasks s) = [k] ->
  exists cb,
    calls (node s) = S cb
    /\ step (SettleWrite 0 o) s
       = Some {| self := self s;
                 node := node_do (WriteCallback cb (error_of o)) (node s);
                 tasks := {| reads := reads (tasks s); writes := [];
                             quits := quits (tasks s) |};
                 trace := trace s ++ [WriteSettled o; Did (WriteCallback cb (error_of o))] |}.
Proof.
  intros I L.
  destruct (inv_writes I) as [(H1 & _)|(k0 & cb & H1 & H2 & H3 & H4 & H5)];
    [congruence|].
  rewrite L in H1. inversion H1; subst k0.
  exists cb. split; [exact H3|].
  cbn [step]. rewrite L. cbn [nth_error]. rewrite (@exec_run _ _ _ _ (H4 o)).
  unfold settled, write_effects.
  cbn [self node tasks trace remove_nth fold_left node_event].
  rewrite join_no_tasks, <- app_assoc. reflexivity.
Qed.

Lemma reachable_step s i s' : reachable s -> step i s = Some s' -> reachable s'.
Proof.
  intros R H. eapply reachable_from_reachable; [exact R|].
  exists [i]. cbn [steps]. rewrite H. reflexivity.
Qed.

(** A destroyed stream is silent in both directions. *)
Lemma destroyed_is_silent s s' :
  reachable s -> destroyed (node s) = true -> reachable_from s s' ->
  read_calls (trace s') = read_calls (trace s)
  /\ write_calls (trace s') = write_calls (trace s).
Proof.
  intros R D F.
  destruct (reachable_after R F) as (_ & evs & T & _ & _ & Rc & W & _).
  rewrite T, read_calls_app, write_calls_app, (W D), Rc, !app_nil_r; auto.
  rewrite D. apply orb_true_r.
Qed.

(** X4: when the engine rejects the outstanding read (or the call
    throws), the stream is destroyed with the reason if it is an [Error],
    and otherwise with a new [Error] whose message is the reason as a
    string; nothing is pushed for that read, the stream does not end, and
    no read is issued afterwards. *)
Theorem read_rejection_is_terminal s i k reason :
  reachable s ->
  nth_error (reads (tasks s)) i = Some k ->
  exists s',
    step (SettleRead i (Rejected reason)) s = Some s'
    /\ trace s' = trace s ++ [ReadSettled (Rejected reason); Did (Destroy (toError reason))]
    /\ match reason with
       | ThrownError e => toError reason = e
       | ThrownValue str => message (toError reason) = str
       end
    /\ destroyed (node s') = true
    /\ (destroyed (node s) = false -> errored (node s') = Some (toError reason))
    /\ delivered (node s') = delivered (node s)
    /\ ended (node s') = false
    /\ forall s'',
         reachable_from s' s'' ->
         read_calls (trace s'') = read_calls (trace s')
         /\ pushes (trace s'') = pushes (trace s').
Proof.
  intros R E. pose proof (Inv_reachable R) as I. pose proof (Inv2_reachable R) as I2.
  pose proof (@settle_read_state s i k (Rejected reason) I E) as S1.
  eexists. split; [exact S1|]. cbn [trace node read_effects fold_left node_event node_do].
  split; [reflexivity|]. split; [destruct reason; reflexivity|].
  split; [apply destroyed_destroy|].
  split; [intros D; unfold destroy; rewrite D; reflexivity|].
  split; [unfold destroy; destruct (destroyed (node s)); reflexivity|].
  split.
  { rewrite ended_destroy. apply (i2_ended I2). intros X. rewrite X in E.
    destruct i; discriminate. }
  intros s'' F.
  destruct (reachable_after (@reachable_step _ _ _ R S1) F)
    as (_ & evs & T & _ & _ & Rc & _ & Q).
  cbn [node tasks reads trace] in *.
  assert (St : ended (destroy (Some (toError reason)) (node s))
               || destroyed (destroy (Some (toError reason)) (node s)) = true)
    by (rewrite destroyed_destroy; apply orb_true_r).
  destruct (Q eq_refl St) as (_ & _ & P).
  rewrite T, read_calls_app, pushes_app, (Rc St), P, !app_nil_r. auto.
Qed.

Lemma read_rejection_is_terminal_witness :
  reachable (state_after [Pull 16384] sample_readable)
  /\ exists s',
       step (SettleRead 0 (Rejected (ThrownValue "device lost")))
            (state_after [Pull 16384] sample_readable) = Some s'
       /\ destroyed (node s') = true
       /\ ended (node s') = false.
Proof.
  assert (R : reachable (state_after [Pull 16384] sample_readable)).
  { exists sample_readable. split; [apply (@made_readable 1 no_options); reflexivity|].
    exists [Pull 16384]. vm_compute. reflexivity. }
  split; [exact R|].
  destruct (@read_rejection_is_terminal (state_after [Pull 16384] sample_readable) 0 _
              (ThrownValue "device lost") R eq_refl)
    as (s' & S1 & _ & _ & D & _ & _ & En & _).
  exists s'. auto.
Defined.

Lemma pending_read s i k : nth_error (reads (tasks s)) i = Some k -> reads (tasks s) <> [].
Proof. intros E X. rewrite X in E. destruct i; discriminate. Qed.

(** X5: however the engine settles the outstanding write, the first
    thing the stream does is to call the callback given with that chunk:
    with no error when the write is fulfilled with none, with the engine's
    error when it is fulfilled with one, and with the rejection reason made
    an [Error] when it is rejected.  The write is then no longer
    outstanding, and with an error the stream is destroyed. *)
Theorem write_callback_always_called s k o :
  reachable s ->
  writes (tasks s) = [k] ->
  exists s' cb,
    step (SettleWrite 0 o) s = Some s'
    /\ calls (node s) = S cb
    /\ firstn (List.length (trace s) + 2) (trace s')
       = trace s ++ [WriteSettled o; Did (WriteCallback cb (error_of o))]
    /\ match o with
       | Fulfilled e => error_of o = e
       | Rejected reason => error_of o = Some (toError reason)
       end
    /\ writes (tasks s') = []
    /\ (error_of o <> None -> destroyed (node s') = true).
Proof.
  intros R L. pose proof (Inv_reachable R) as I.
  destruct (@settle_write_state s k o I L) as (cb & C & S1).
  eexists. exists cb. split; [exact S1|]. cbn [trace node tasks writes].
  split; [exact C|].
  split; [apply firstn_all2; rewrite length_app; simpl; lia|].
  split; [destruct o; reflexivity|]. split; [reflexivity|].
  destruct (error_of o) as [e|]; simpl.
  - intros _. unfold destroy; simpl; destruct (destroyed (node s)) eqn:D; auto.
  - congruence.
Qed.

Lemma write_callback_always_called_witness :
  reachable (state_after [CallWrite chunk1] sample_writable)
  /\ exists s',
       step (SettleWrite 0 (Rejected (ThrownValue "device lost")))
            (state_after [CallWrite chunk1] sample_writable) = Some s'
       /\ firstn 3 (trace s')
          = [Did (Engine (EWrite chunk1));
             WriteSettled (Rejected (ThrownValue "device lost"));
             Did (WriteCallback 0 (Some (mkError "device lost")))]
       /\ destroyed (node s') = true.
Proof.
  assert (R : reachable (state_after [CallWrite chunk1] sample_writable)).
  { exists sample_writable. split; [apply (@made_writable 1 lenient_options); reflexivity|].
    exists [CallWrite chunk1]. vm_compute. reflexivity. }
  split; [exact R|].
  destruct (@write_callback_always_called
              (state_after [CallWrite chunk1] sample_writable) _
              (Rejected (ThrownValue "device lost")) R eq_refl)
    as (s' & cb & S1 & C & T & _ & _ & D).
  exists s'. split; [exact S1|]. injection C as <-.
  split; [exact T|]. apply D. discriminate.
Defined.

(** X6: the fields of a read result are looked at in order.  With [err]
    set the stream is destroyed and does not end, whatever [finished] and
    [buf] are.  Otherwise, with [finished] true, [null] is pushed and the
    stream ends: a buffer that comes with it is neither pushed nor
    delivered. *)
Theorem result_fields_in_order s i k r :
  reachable s ->
  nth_error (reads (tasks s)) i = Some k ->
  exists s',
    step (SettleRead i (Fulfilled r)) s = Some s'
    /\ (forall e, err r = Some e ->
        trace s' = trace s ++ [ReadSettled (Fulfilled r); Did (Destroy e)]
        /\ ended (node s') = false /\ destroyed (node s') = true
        /\ delivered (node s') = delivered (node s))
    /\ (err r = None -> is_true (finished r) = true ->
        trace s' = trace s ++ [ReadSettled (Fulfilled r); Did PushNull]
        /\ ended (node s') = true
        /\ delivered (node s') = delivered (node s)
        /\ destroyed (node s') = destroyed (node s)).
Proof.
  intros R E. pose proof (Inv_reachable R) as I. pose proof (Inv2_reachable R) as I2.
  pose proof (i2_ended I2 (@pending_read _ _ _ E)) as En.
  eexists. split; [exact (@settle_read_state s i k (Fulfilled r) I E)|].
  cbn [trace node read_effects]. split.
  - intros e He. rewrite He. cbn [fold_left node_event node_do].
    rewrite ended_destroy, destroyed_destroy. repeat split; auto.
    unfold destroy. destruct (destroyed (node s)); reflexivity.
  - intros He Hf. rewrite He, Hf. cbn [fold_left node_event node_do]. auto.
Qed.

Lemma result_fields_in_order_witness :
  reachable (state_after [Pull 16384] sample_readable)
  /\ exists s',
       step (SettleRead 0 (Fulfilled finished_with_data))
            (state_after [Pull 16384] sample_readable) = Some s'
       /\ trace s' = [Did (Engine (ERead 16384));
                      ReadSettled (Fulfilled finished_with_data); Did PushNull]
       /\ delivered (node s') = [].
Proof.
  assert (R : reachable (state_after [Pull 16384] sample_readable)).
  { exists sample_readable. split; [apply (@made_readable 1 no_options); reflexivity|].
    exists [Pull 16384]. vm_compute. reflexivity. }
  split; [exact R|].
  destruct (@result_fields_in_order
              (state_after [Pull 16384] sample_readable) 0 _ finished_with_data R eq_refl)
    as (s' & S1 & _ & F).
  destruct (F eq_refl eq_refl) as (T & _ & D & _).
  exists s'. split; [exact S1|]. split; [rewrite T; reflexivity | rewrite D; reflexivity].
Defined.

(** X7: a read result with no error, not finished, and with no buffer or
    an empty one is pushed as it is: the consumer receives nothing, the
    stream neither ends nor is destroyed, and the next pull makes the
    stream read again. *)
Theorem empty_result_keeps_reading s i k r size :
  reachable s ->
  nth_error (reads (tasks s)) i = Some k ->
  err r = None -> is_true (finished r) = false ->
  buf r = None \/ buf r = Some [] ->
  exists s',
    step (SettleRead i (Fulfilled r)) s = Some s'
    /\ trace s' = trace s ++ [ReadSettled (Fulfilled r); Did (Push (buf r))]
    /\ delivered (node s') = delivered (node s)
    /\ ended (node s') = false
    /\ destroyed (node s') = destroyed (node s)
    /\ reading (node s') = false
    /\ (destroyed (node s) = false ->
        exists s'',
          step (Pull size) s' = Some s''
          /\ trace s'' = trace s' ++ [Did (Engine (ERead size))]).
Proof.
  intros R E He Hf Hb. pose proof (Inv_reachable R) as I.
  pose proof (Inv2_reachable R) as I2.
  pose proof (i2_ended I2 (@pending_read _ _ _ E)) as En.
  pose proof (i2_readable I2 (@pending_read _ _ _ E)) as Cr.
  eexists. split; [exact (@settle_read_state s i k (Fulfilled r) I E)|].
  cbn [trace node read_effects self]. rewrite He, Hf.
  cbn [fold_left node_event node_do].
  assert (X : node_push (buf r) (node s) = set_reading false (node s))
    by (destruct Hb as [-> | ->]; reflexivity).
  rewrite X. cbn [delivered ended destroyed reading set_reading].
  repeat split; auto.
  intros D. destruct (class_read (self s)) as [_read|] eqn:C; [|contradiction].
  destruct (run_read (self s) size C) as (k' & Hr & _).
  eexists. split.
  - cbn [step self node reading ended destroyed set_reading]. rewrite C, En, D.
    cbn [orb]. rewrite (@exec_run _ _ _ _ Hr). reflexivity.
  - reflexivity.
Qed.

Lemma empty_result_keeps_reading_witness :
  reachable (state_after [Pull 16384] sample_readable)
  /\ exists s' s'',
       step (SettleRead 0 (Fulfilled empty_result))
            (state_after [Pull 16384] sample_readable) = Some s'
       /\ delivered (node s') = []
       /\ step (Pull 512) s' = Some s''
       /\ read_calls (trace s'') = [16384%N; 512%N].
Proof.
  assert (R : reachable (state_after [Pull 16384] sample_readable)).
  { exists sample_readable. split; [apply (@made_readable 1 no_options); reflexivity|].
    exists [Pull 16384]. vm_compute. reflexivity. }
  split; [exact R|].
  destruct (@empty_result_keeps_reading
              (state_after [Pull 16384] sample_readable) 0 _ empty_result 512
              R eq_refl eq_refl eq_refl (or_introl eq_refl))
    as (s' & S1 & T & D & _ & _ & _ & P).
  destruct (P eq_refl) as (s'' & S2 & T2).
  exists s', s''. split; [exact S1|]. split; [rewrite D; reflexivity|].
  split; [exact S2|]. rewrite T2, T. reflexivity.
Defined.

(** X8: an error of the engine on one side stops the whole stream.  When
    the outstanding read settles with an error or is rejected, no chunk is
    written to the engine afterwards; when the outstanding write settles
    with an error or is rejected, nothing is read from the engine
    afterwards. *)
Theorem engine_error_stops_both_sides s :
  reachable s ->
  (forall i k o,
     nth_error (reads (tasks s)) i = Some k ->
     match o with Fulfilled r => is_defined (err r) = true | Rejected _ => True end ->
     exists s',
       step (SettleRead i o) s = Some s'
       /\ destroyed (node s') = true
       /\ forall s'',
            reachable_from s' s'' ->
            read_calls (trace s'') = read_calls (trace s')
            /\ write_calls (trace s'') = write_calls (trace s'))
  /\ (forall k o,
        writes (tasks s) = [k] ->
        error_of o <> None ->
        exists s',
          step (SettleWrite 0 o) s = Some s'
          /\ destroyed (node s') = true
          /\ forall s'',
               reachable_from s' s'' ->
               read_calls (trace s'') = read_calls (trace s')
               /\ write_calls (trace s'') = write_calls (trace s')).
Proof.
  intros R. pose proof (Inv_reachable R) as I. split.
  - intros i k o E Ho.
    pose proof (@settle_read_state s i k o I E) as S1.
    assert (D : destroyed (fold_left node_event (read_effects o) (node s)) = true).
    { destruct o as [r|reason]; simpl.
      - destruct (err r); [|discriminate]. simpl. apply destroyed_destroy.
      - apply destroyed_destroy. }
    eexists. split; [exact S1|]. split; [exact D|].
    intros s'' F. apply (destroyed_is_silent (@reachable_step _ _ _ R S1) D F).
  - intros k o L Ho.
    destruct (@settle_write_state s k o I L) as (cb & C & S1).
    assert (D : destroyed (node_do (WriteCallback cb (error_of o)) (node s)) = true).
    { destruct (error_of o); [|congruence]. simpl. apply destroyed_destroy. }
    eexists. split; [exact S1|]. split; [exact D|].
    intros s'' F. apply (destroyed_is_silent (@reachable_step _ _ _ R S1) D F).
Qed.

Lemma engine_error_stops_both_sides_witness :
  reachable (state_after [Pull 16384; CallWrite chunk1; CallWrite chunk2] sample_duplex)
  /\ exists s',
       step (SettleRead 0 (Fulfilled (error_result underrun)))
            (state_after [Pull 16384; CallWrite chunk1; CallWrite chunk2] sample_duplex)
       = Some s'
       /\ destroyed (node s') = true
       /\ step Flush s' = None.
Proof.
  assert (R : reachable
                (state_after [Pull 16384; CallWrite chunk1; CallWrite chunk2] sample_duplex)).
  { exists sample_duplex. split; [apply (@made_duplex 1 no_options no_options); reflexivity|].
    exists [Pull 16384; CallWrite chunk1; CallWrite chunk2]. vm_compute. reflexivity. }
  split; [exact R|].
  destruct (proj1 (engine_error_stops_both_sides R) 0 _
              (Fulfilled (error_result underrun)) eq_refl eq_refl)
    as (s' & S1 & D & _).
  exists s'. split; [exact S1|]. split; [exact D|].
  vm_compute in S1. injection S1 as <-. vm_compute. reflexivity.
Defined.

(** ** [quit] and [abort], fulfilled or rejected *)

Lemma shutdown_steps s input (p : Prog unit) mode callback k :
  step input s = Some (exec p s) ->
  run p = ([Did (Engine (EQuit mode))], {| reads := []; writes := []; quits := [k] |}) ->
  run (k (Fulfilled tt)) = (callback_effects callback, no_tasks) ->
  (forall reason, run (k (Rejected reason)) = ([UnhandledRejection reason], no_tasks)) ->
  exists s1,
    step input s = Some s1
    /\ trace s1 = trace s ++ [Did (Engine (EQuit mode))]
    /\ node s1 = node s
    /\ (exists s2,
          step (SettleQuit (List.length (quits (tasks s))) (Fulfilled tt)) s1 = Some s2
          /\ trace s2 = trace s1 ++ QuitSettled (Fulfilled tt) :: callback_effects callback
          /\ tasks s2 = tasks s /\ node s2 = node s)
    /\ forall reason,
         exists s2,
           step (SettleQuit (List.length (quits (tasks s))) (Rejected reason)) s1 = Some s2
           /\ trace s2 = trace s1 ++ [QuitSettled (Rejected reason); UnhandledRejection reason]
           /\ tasks s2 = tasks s /\ node s2 = node s.
Proof.
  intros Hs Hr Hk Hj.
  rewrite (@exec_run _ s _ _ Hr) in Hs.
  eexists. split; [exact Hs|]. cbn [trace node self tasks join reads writes quits].
  split; [reflexivity|]. split; [reflexivity|].
  split.
  - eexists. split.
    { cbn [step tasks quits join]. rewrite nth_error_last, remove_nth_last.
      rewrite (@exec_run _ _ _ _ Hk). reflexivity. }
    cbn [trace node self tasks settled].
    rewrite (@neutral_node _ (callback_effects_neutral callback)), join_no_tasks.
    rewrite <- app_assoc. simpl. destruct (tasks s). simpl. rewrite ?app_nil_r. auto.
  - intros reason. eexists. split.
    { cbn [step tasks quits join]. rewrite nth_error_last, remove_nth_last.
      rewrite (@exec_run _ _ _ _ (Hj reason)). reflexivity. }
    cbn [trace node self tasks settled fold_left node_event].
    rewrite join_no_tasks.
    rewrite <- app_assoc. simpl. destruct (tasks s). simpl. rewrite ?app_nil_r. auto.
Qed.

(** X9: [quit(callback)] calls the engine's [quit('WAIT')] at once and
    [abort(callback)] its [quit('ABORT')], and neither does anything else
    until the engine answers.  When the engine fulfils the call, the
    callback, if one was given, is called once; when the engine rejects it,
    the callback is never called and the rejection stays unhandled.  In
    both cases nothing else of the stream changes. *)
Theorem shutdown_callback_waits_for_engine s callback :
  (exists s1,
     step (CallQuit callback) s = Some s1
     /\ trace s1 = trace s ++ [Did (Engine (EQuit "WAIT"))]
     /\ node s1 = node s
     /\ (exists s2,
           step (SettleQuit (List.length (quits (tasks s))) (Fulfilled tt)) s1 = Some s2
           /\ trace s2 = trace s1 ++ QuitSettled (Fulfilled tt) :: callback_effects callback
           /\ tasks s2 = tasks s /\ node s2 = node s)
     /\ forall reason,
          exists s2,
            step (SettleQuit (List.length (quits (tasks s))) (Rejected reason)) s1 = Some s2
            /\ trace s2 = trace s1 ++ [QuitSettled (Rejected reason); UnhandledRejection reason]
            /\ tasks s2 = tasks s /\ node s2 = node s)
  /\ (exists s1,
        step (CallAbort callback) s = Some s1
        /\ trace s1 = trace s ++ [Did (Engine (EQuit "ABORT"))]
        /\ node s1 = node s
        /\ (exists s2,
              step (SettleQuit (List.length (quits (tasks s))) (Fulfilled tt)) s1 = Some s2
              /\ trace s2 = trace s1 ++ QuitSettled (Fulfilled tt) :: callback_effects callback
              /\ tasks s2 = tasks s /\ node s2 = node s)
        /\ forall reason,
             exists s2,
               step (SettleQuit (List.length (quits (tasks s))) (Rejected reason)) s1 = Some s2
               /\ trace s2 = trace s1 ++ [QuitSettled (Rejected reason); UnhandledRejection reason]
               /\ tasks s2 = tasks s /\ node s2 = node s).
Proof.
  split.
  - destruct (run_quit (self s) callback) as (k & Hr & Hk & Hj).
    apply shutdown_steps with (p := class_quit (self s) callback) (k := k);
      [reflexivity | exact Hr | exact Hk | exact Hj].
  - destruct (run_abort (self s) callback) as (k & Hr & Hk & Hj).
    apply shutdown_steps with (p := class_abort (self s) callback) (k := k);
      [reflexivity | exact Hr | exact Hk | exact Hj].
Qed.

(** ** The two sides of a duplex stream *)



(** ** The factory *)

Lemma factory_listeners portAudioBindings options stream :
  snd (AudioIO portAudioBindings options) = Returned stream ->
  listeners_of stream "error" = [fun err => perform (ConsoleError err)]
  /\ listeners_of stream "close" = [fun _ => perform (Emit "closed")].
Proof.
  intros H.
  destruct (AudioIO_returned _ _ H)
    as (a & _ & [(i & o & s0 & _ & _ & E & ->)|[(i & s0 & _ & _ & E & ->)
                                               |(o & s0 & _ & _ & E & ->)]]).
  - apply constructed_duplex in E. destruct E as (_ & _ & ->). split; reflexivity.
  - apply constructed_readable in E. destruct E as [_ ->]. split; reflexivity.
  - apply constructed_writable in E. destruct E as [_ ->]. split; reflexivity.
Qed.

Lemma steps_self inputs :
  forall s s', Inv s -> steps inputs s = Some s' -> self s' = self s.
Proof.
  induction inputs as [|i inputs IH]; simpl; intros s s' I H.
  - inversion H; reflexivity.
  - destruct (step i s) as [s1|] eqn:E; [|discriminate].
    rewrite (IH s1 s' (Inv_step i I E) H). exact (step_self i I E).
Qed.

(** X11: on a stream the factory made, an error that destroyed the stream
    is written to the console, once, and is not thrown; only then ['close']
    can be emitted, and it is answered with one ['closed'].  Neither
    calls the engine, and neither leaves anything suspended. *)
Theorem factory_logs_error_then_closes portAudioBindings options stream s e :
  snd (AudioIO portAudioBindings options) = Returned stream ->
  reachable_from (init stream) s ->
  errored (node s) = Some e ->
  destroyed (node s) = true ->
  errorEmitted (node s) = false ->
  closeEmitted (node s) = false ->
  step EmitClose s = None
  /\ exists s1 s2,
       step EmitError s = Some s1
       /\ trace s1 = trace s ++ [Did (ConsoleError (Some e))]
       /\ step EmitError s1 = None
       /\ step EmitClose s1 = Some s2
       /\ trace s2 = trace s1 ++ [Did (Emit "closed")]
       /\ step EmitClose s2 = None
       /\ tasks s2 = tasks s.
Proof.
  intros A (inputs & F) E D EE CE.
  assert (M : made stream) by (econstructor; exact A).
  pose proof (steps_self inputs (Inv_init M) F) as Sf. cbn [init self] in Sf.
  destruct (factory_listeners _ _ A) as [Le Lc].
  split.
  { cbn [step]. rewrite D, CE, E, EE. reflexivity. }
  eexists. eexists. split.
  { cbn [step]. rewrite E, D, EE. cbn [negb andb]. unfold emit. rewrite Sf, Le.
    cbn [fold_left]. reflexivity. }
  unfold exec, with_node.
  cbn [run perform fst snd trace node tasks self fold_left node_event node_do].
  split; [reflexivity|].
  split.
  { cbn [step node errored destroyed errorEmitted set_emitted].
    rewrite E, D, EE. reflexivity. }
  split.
  { cbn [step node errored destroyed errorEmitted closeEmitted set_emitted].
    rewrite E, D, EE, CE. cbn [String.eqb Ascii.eqb Bool.eqb orb negb andb is_defined].
    unfold emit. cbn [self]. rewrite Sf, Lc. cbn [fold_left]. reflexivity. }
  unfold exec, with_node.
  cbn [run perform fst snd trace node tasks self fold_left node_event node_do].
  split; [reflexivity|].
  split.
  { cbn [step node errored destroyed errorEmitted closeEmitted set_emitted].
    rewrite D. cbn [String.eqb Ascii.eqb Bool.eqb orb negb andb].
    rewrite orb_true_r. reflexivity. }
  rewrite !join_no_tasks. reflexivity.
Qed.

Lemma factory_logs_error_then_closes_witness :
  snd (AudioIO sample_bindings playback) = Returned factory_playback
  /\ reachable_from (init factory_playback)
       (state_after [CallWrite chunk1; SettleWrite 0 (Fulfilled (Some underrun))]
          factory_playback)
  /\ exists s1 s2,
       step EmitError
            (state_after [CallWrite chunk1; SettleWrite 0 (Fulfilled (Some underrun))]
               factory_playback) = Some s1
       /\ step EmitClose s1 = Some s2
       /\ trace s2
          = [Did (Engine (EWrite chunk1)); WriteSettled (Fulfilled (Some underrun));
             Did (WriteCallback 0 (Some underrun));
             Did (ConsoleError (Some underrun)); Did (Emit "closed")].
Proof.
  assert (A : snd (AudioIO sample_bindings playback) = Returned factory_playback)
    by reflexivity.
  assert (F : reachable_from (init factory_playback)
                (state_after [CallWrite chunk1; SettleWrite 0 (Fulfilled (Some underrun))]
                   factory_playback))
    by (exists [CallWrite chunk1; SettleWrite 0 (Fulfilled (Some underrun))];
        vm_compute; reflexivity).
  split; [exact A|]. split; [exact F|].
  destruct (@factory_logs_error_then_closes sample_bindings playback factory_playback
              (state_after [CallWrite chunk1; SettleWrite 0 (Fulfilled (Some underrun))]
                 factory_playback)
              underrun A F eq_refl eq_refl eq_refl eq_refl)
    as (_ & s1 & s2 & S1 & T1 & _ & S2 & T2 & _).
  exists s1, s2. split; [exact S1|]. split; [exact S2|].
  rewrite T2, T1. vm_compute. reflexivity.
Defined.

(** X12: the outcomes of [AudioIO].  A stream it returns holds the addon
    that [create] returned for these options, was asked for by at least one
    of [inOptions] and [outOptions], has its listeners added in the order
    ['close'], ['finish'] (not on a readable stream), ['error'], and has
    high-water marks the base class accepts.  What it throws is what
    [create] threw; or, after [create] returned, its own error when neither
    option is there, or the base class's error when the mark of an option
    that is there is not accepted.  The non-null assertions on the options
    are never wrong. *)
Theorem AudioIO_outcome portAudioBindings options :
  match snd (AudioIO portAudioBindings options) with
  | Returned stream =>
      create portAudioBindings options = Returned (audioIOAddon stream)
      /\ ~ neither options
      /\ map fst (listeners stream)
         = match variant stream with
           | VReadable => ["close"; "error"]
           | _ => ["close"; "finish"; "error"]
           end
      /\ forall h,
           readable_hwm stream = Some h \/ writable_hwm stream = Some h ->
           valid_highWaterMark h = true
  | Threw v =>
      create portAudioBindings options = Threw v
      \/ (exists addon,
            create portAudioBindings options = Returned addon
            /\ neither options
            /\ v = ThrownError AudioIO_error)
      \/ (exists addon name opts,
            create portAudioBindings options = Returned addon
            /\ v = ThrownError (ERR_INVALID_ARG_VALUE name)
            /\ (get (inOptions options) = Some opts \/ get (outOptions options) = Some opts)
            /\ valid_highWaterMark (mark_of opts) = false)
  end.
Proof.
  unfold AudioIO, neither. cbn [snd].
  destruct (create portAudioBindings options) as [addon|v]; [|left; reflexivity].
  unfold AudioReadableStream.constructor, AudioWritableStream.constructor,
    AudioDuplexStream.constructor, Readable_super, Writable_super, Duplex_super.
  destruct options as [[| |i] [| |o]];
    cbn [inOptions outOptions get has_key is_defined andb
         AudioReadableStream.super_options AudioWritableStream.super_options
         AudioDuplexStream.super_options r_highWaterMark w_highWaterMark
         readableHighWaterMark writableHighWaterMark];
    try (right; left; exists addon; repeat split; reflexivity);
    repeat match goal with
           | |- context [valid_highWaterMark ?x] =>
               let V := fresh "V" in
               destruct (valid_highWaterMark x) eqn:V; cbn [construct]
           end;
    try (right; right; exists addon; eexists; eexists;
         split; [reflexivity|]; split; [reflexivity|];
         first [ split; [left; reflexivity | assumption]
               | split; [right; reflexivity | assumption] ]);
    (split; [reflexivity|]; split; [intros [X Y]; discriminate|];
     split; [reflexivity|];
     intros h [H|H]; cbn in H; inversion H; subst; assumption).
Qed.

(** ** High-water marks *)

Lemma or_default_truthy x : truthy (or_default x 16384) = true.
Proof.
  unfold or_default. destruct x as [v|]; [|reflexivity].
  destruct (truthy v) eqn:T; [exact T | reflexivity].
Qed.

(** X13: a [highwaterMark] that is a number other than [0], [-0] and
    [NaN] is handed to the base class as it is, by the duplex stream for
    each direction from that direction's own options; and whatever the
    options, the high-water mark of a stream a constructor or the factory
    makes is such a number. *)
Theorem highWaterMark_is_passed_on audioIOAddon options other mark :
  highwaterMark options = Some mark ->
  truthy mark = true ->
  r_highWaterMark (AudioReadableStream.super_options options) = mark
  /\ w_highWaterMark (AudioWritableStream.super_options options) = mark
  /\ readableHighWaterMark (AudioDuplexStream.super_options options other) = mark
  /\ writableHighWaterMark (AudioDuplexStream.super_options options other)
     = or_default (highwaterMark other) 16384
  /\ writableHighWaterMark (AudioDuplexStream.super_options other options) = mark
  /\ (forall stream,
        AudioReadableStream.constructor audioIOAddon options = Returned stream ->
        readable_hwm stream = Some mark)
  /\ (forall stream,
        AudioWritableStream.constructor audioIOAddon options = Returned stream ->
        writable_hwm stream = Some mark)
  /\ (forall stream,
        AudioDuplexStream.constructor audioIOAddon options other = Returned stream ->
        readable_hwm stream = Some mark
        /\ writable_hwm stream = Some (or_default (highwaterMark other) 16384))
  /\ forall stream h,
       made stream ->
       readable_hwm stream = Some h \/ writable_hwm stream = Some h ->
       truthy h = true.
Proof.
  intros H T.
  assert (M : or_default (highwaterMark options) 16384 = mark)
    by (rewrite H; simpl; rewrite T; reflexivity).
  unfold AudioReadableStream.super_options, AudioWritableStream.super_options,
    AudioDuplexStream.super_options.
  cbn [r_highWaterMark w_highWaterMark readableHighWaterMark writableHighWaterMark].
  split; [exact M|]. split; [exact M|]. split; [exact M|]. split; [reflexivity|].
  split; [exact M|].
  split.
  { intros stream E. apply constructed_readable in E. destruct E as [_ ->].
    unfold readable_hwm. simpl. rewrite H. simpl. rewrite T. reflexivity. }
  split.
  { intros stream E. apply constructed_writable in E. destruct E as [_ ->].
    unfold writable_hwm. simpl. rewrite H. simpl. rewrite T. reflexivity. }
  split.
  { intros stream E. apply constructed_duplex in E. destruct E as (_ & _ & ->).
    unfold readable_hwm, writable_hwm. simpl. rewrite H. simpl. rewrite T. auto. }
  intros stream h Md X. unfold readable_hwm, writable_hwm in X.
  destruct (made_marks Md) as (o & [B|[B|(o' & B)]]); rewrite B in X; simpl in X;
    destruct X as [X|X]; inversion X; apply or_default_truthy.
Qed.

Lemma highWaterMark_is_passed_on_witness :
  exists stream,
    AudioDuplexStream.constructor 1 (marked_options 4096) (marked_options 0)
    = Returned stream
    /\ readable_hwm stream = Some 4096%float
    /\ writable_hwm stream = Some 16384%float.
Proof.
  assert (E : AudioDuplexStream.constructor 1 (marked_options 4096) (marked_options 0)
              = Returned
                  {| base := BaseDuplex (AudioDuplexStream.super_options
                                           (marked_options 4096) (marked_options 0));
                     audioIOAddon := 1; listeners := [] |})
    by reflexivity.
  destruct (@highWaterMark_is_passed_on 1 (marked_options 4096) (marked_options 0) 4096
              eq_refl eq_refl) as (_ & _ & _ & _ & _ & _ & _ & D & _).
  eexists. split; [exact E|]. exact (D _ E).
Defined.

(** X14: the result of [AudioIO] depends on its argument only through the
    values of [inOptions] and [outOptions] and through what [create] does
    with it: a key that is there with the value [undefined] counts like a
    key that is not there. *)
Theorem undefined_counts_as_absent portAudioBindings options options' :
  get (inOptions options) = get (inOptions options') ->
  get (outOptions options) = get (outOptions options') ->
  create portAudioBindings options = create portAudioBindings options' ->
  snd (AudioIO portAudioBindings options) = snd (AudioIO portAudioBindings options').
Proof.
  intros I O C. unfold AudioIO. simpl. rewrite C.
  destruct (create portAudioBindings options') as [addon|v]; [|reflexivity].
  assert (K : forall s : Slot AudioOptions, has_key s && is_defined (get s) = is_defined (get s))
    by (intros [| |a]; reflexivity).
  rewrite !K, I, O. reflexivity.
Qed.

Lemma undefined_counts_as_absent_witness :
  snd (AudioIO sample_bindings undefined_input) = snd (AudioIO sample_bindings playback).
Proof.
  apply (@undefined_counts_as_absent sample_bindings undefined_input playback);
    reflexivity.
Defined.
